(** * A reliable stream over UDP: [UdpStream] and [UdpSocket]

    Shallow embedding of [src/UdpStream.ts] and [src/UdpSocket.ts].

    - JavaScript numbers that stay integral in the code are [Z];
    - a method is a function in a small state-and-exception monad: a
      JavaScript exception leaves every mutation performed before it in
      place, so a computation returns its outcome together with the state
      reached;
    - the two external collaborators, the [Oracle] and the
      [BufferSerializer] of [@bhoos/serialization], are not part of the
      repository: the oracle enters as parameters, the serializer as a
      byte-level model of a cursor over a Node [Buffer]; of the [dgram]
      socket of Node the model keeps what was sent and whether the socket
      has been closed;
    - timers are handles: the callback of [setImmediate] and the callback of
      [setTimeout] are separate operations that an event loop may run while
      the handle is pending;
    - the [console.log] lines that trace datagrams and attempts are left
      out; [raiseError], the socket's error report, is kept. *)

From Stdlib Require Import ZArith List Lia Bool Sorted.
From Stdlib Require Import Init.Byte.
From stdpp Require Import base option list gmap strings pretty.

Local Open Scope Z_scope.

(** ** Exceptions and state *)

Inductive error : Type :=
| RangeError    (* Node Buffer: access outside the buffer, value out of range *)
| TypeError     (* calling or dereferencing [undefined] *)
| OracleError   (* anything the oracle raises by itself *)
| PlainError    (* [throw new Error(...)] *)
| NotRunning.   (* Node dgram: [send] on a socket that has been closed *)

Inductive outcome (A : Type) : Type :=
| Ok (a : A)
| Threw (e : error).
Arguments Ok {A} a.
Arguments Threw {A} e.

Definition M (S A : Type) : Type := S -> outcome A * S.

Definition ret {S A : Type} (a : A) : M S A := fun s => (Ok a, s).

Definition throw {S A : Type} (e : error) : M S A := fun s => (Threw e, s).

Definition bind {S A B : Type} (m : M S A) (k : A -> M S B) : M S B :=
  fun s =>
    match m s with
    | (Ok a, s') => k a s'
    | (Threw e, s') => (Threw e, s')
    end.

Definition get {S : Type} : M S S := fun s => (Ok s, s).

Definition modify {S : Type} (f : S -> S) : M S unit := fun s => (Ok tt, f s).

(** [try { m } catch (err) { h }] *)
Definition try_catch {S A : Type} (m : M S A) (h : M S A) : M S A :=
  fun s =>
    match m s with
    | (Ok a, s') => (Ok a, s')
    | (Threw _, s') => h s'
    end.

Declare Scope js_scope.
Delimit Scope js_scope with js.
Notation "'let*' x ':=' m 'in' k" := (bind m (fun x => k))
  (at level 10, x name, m at level 200, k at level 200) : js_scope.
Notation "m ';;' k" := (bind m (fun _ => k))
  (at level 100, k at level 200, only parsing, right associativity) : js_scope.

(** A JavaScript timer handle as a field: [null], a callback that has yet to
    run, or a handle kept in the field after its callback has run. Only
    truthiness is ever tested. *)
Inductive handle : Type := HNull | HPending | HStale.

Definition truthy (h : handle) : bool :=
  match h with HNull => false | _ => true end.

(** ** Bytes and the 16-bit integers of the wire format *)

Definition byte_val (b : byte) : Z := Z.of_N (Byte.to_N b).

Definition byte_of (z : Z) : byte := default "000"%byte (Byte.of_N (Z.to_N z)).

Lemma byte_val_range (b : byte) : 0 <= byte_val b <= 255.
Proof.
  unfold byte_val. pose proof (Byte.to_N_bounded b) as Hb. lia.
Qed.

Definition in_u16 (v : Z) : bool := (0 <=? v) && (v <=? 65535).

Record EndPoint : Type := { port : Z; address : string }.

Section Wire.

(** Modelled from the spec: the byte order of the serializer's [uint16],
    which is the library's; the protocol only fixes the framing. *)
Variable big_endian : bool.

Definition u16_decode (b0 b1 : byte) : Z :=
  if big_endian then byte_val b0 * 256 + byte_val b1
  else byte_val b1 * 256 + byte_val b0.

Definition u16_encode (v : Z) : list byte :=
  if big_endian then [byte_of (v / 256); byte_of (v mod 256)]
  else [byte_of (v mod 256); byte_of (v / 256)].

Lemma u16_decode_range (b0 b1 : byte) : 0 <= u16_decode b0 b1 <= 65535.
Proof.
  unfold u16_decode.
  pose proof (byte_val_range b0). pose proof (byte_val_range b1).
  destruct big_endian; lia.
Qed.

Lemma u16_encode_length (v : Z) : length (u16_encode v) = 2%nat.
Proof. unfold u16_encode. destruct big_endian; reflexivity. Qed.

(** *** [BufferSerializer] in loading mode

    Modelled from the spec: [new BufferSerializer(version, buffer, offset)],
    of the library; [rbytes] is the part of the buffer from the cursor on. *)
Record Reader : Type := { rversion : Z; rbytes : list byte }.

(** Modelled from the spec: [serializer.uint16(0)] while loading, a 16-bit
    read at the cursor; [Buffer.readUInt16] raises past the end of the buffer
    and leaves the cursor where it was. *)
Definition uint16_read : M Reader Z :=
  fun r =>
    match rbytes r with
    | b0 :: b1 :: rest =>
        (Ok (u16_decode b0 b1), {| rversion := rversion r; rbytes := rest |})
    | _ => (Threw RangeError, r)
    end.

(** *** [BufferSerializer] in writing mode

    Modelled from the spec: [new BufferSerializer(version, size)], of the
    library; [wout] is the buffer up to the cursor, which is what
    [getBuffer()] and [length] expose, and a write that does not fit raises
    (buffer full). *)
Record Writer : Type := { wversion : Z; wsize : nat; wout : list byte }.

Definition new_writer (version : Z) (size : nat) : Writer :=
  {| wversion := version; wsize := size; wout := [] |}.

Definition with_out (w : Writer) (out : list byte) : Writer :=
  {| wversion := wversion w; wsize := wsize w; wout := out |}.

Definition room (w : Writer) (n : nat) : bool :=
  (length (wout w) + n <=? wsize w)%nat.

(** Modelled from the spec: [serializer.uint8(v)] while writing. *)
Definition uint8_write (v : Z) : M Writer unit :=
  fun w =>
    if (0 <=? v) && (v <=? 255) && room w 1
    then (Ok tt, with_out w (wout w ++ [byte_of v]))
    else (Threw RangeError, w).

(** Modelled from the spec: [serializer.uint16(v)] while writing;
    [Buffer.writeUInt16] checks the value and the bounds before it writes
    anything. *)
Definition uint16_write (v : Z) : M Writer unit :=
  fun w =>
    if in_u16 v && room w 2
    then (Ok tt, with_out w (wout w ++ u16_encode v))
    else (Threw RangeError, w).

(** Modelled from the spec: the bytes of an encoded message, written one
    field after the other; what fits is written, and the write that crosses
    the end of the buffer raises. *)
Definition bytes_write (bs : list byte) : M Writer unit :=
  fun w =>
    if room w (length bs)
    then (Ok tt, with_out w (wout w ++ bs))
    else (Threw RangeError,
          with_out w (wout w ++ take (wsize w - length (wout w)) bs)).

(** Modelled from the spec: [const revert = serializer.mark()] records the
    output cursor, and the closure puts the cursor back there. *)
Definition mark (w : Writer) : Writer -> Writer :=
  let offset := length (wout w) in
  fun w' => with_out w' (take offset (wout w')).

(** ** The oracle

    [oracle.serialize(serializer, null)] decodes one message at the cursor
    and [oracle.serialize(serializer, item)] encodes one; both may raise.
    Decoding returns the message and the number of bytes it took. *)
Context {Item : Type}.
Variable oracle_decode : Z -> list byte -> option (Item * nat).
Variable oracle_encode : Z -> Item -> option (list byte).

Definition oracle_read : M Reader Item :=
  fun r =>
    match oracle_decode (rversion r) (rbytes r) with
    | Some (item, n) =>
        if (n <=? length (rbytes r))%nat
        then (Ok item, {| rversion := rversion r; rbytes := drop n (rbytes r) |})
        else (Threw RangeError, r)
    | None => (Threw OracleError, r)
    end.

Definition oracle_write (item : Item) : M Writer unit :=
  fun w =>
    match oracle_encode (wversion w) item with
    | Some bs => bytes_write bs w
    | None => (Threw OracleError, w)
    end.

(** ** [class UdpStream]

    [Cb] is the type of the [onClose] closures. The [socket] field is the
    environment the methods run in (see [Env] below). *)
Section Stream.

Context {Cb : Type}.

Record UdpStream : Type := {
  items : list (Z * Item);
  localSeq : Z;
  remoteSeq : Z;
  remote : EndPoint;
  version : Z;
  sendHandle : handle;
  retryHandle : handle;
  retryInterval : Z;
  attempts : Z;
  maxAttempts : Z;
  closing : bool;
  onClose : option Cb
}.

Definition MAX_RETRY_INTERVAL : Z := 3000.
Definition MIN_RETRY_INTERVAL : Z := 500.

(** [new UdpStream(socket, remote, version, onClose)] *)
Definition new_UdpStream (remote : EndPoint) (version : Z) (onClose : Cb) : UdpStream :=
  {| items := []; localSeq := 0; remoteSeq := 0;
     remote := remote; version := version;
     sendHandle := HNull; retryHandle := HNull;
     retryInterval := MIN_RETRY_INTERVAL;
     attempts := 0; maxAttempts := 10;
     closing := false; onClose := Some onClose |}.

Definition set_items (v : list (Z * Item)) (s : UdpStream) : UdpStream :=
  {| items := v; localSeq := localSeq s; remoteSeq := remoteSeq s;
     remote := remote s; version := version s; sendHandle := sendHandle s;
     retryHandle := retryHandle s; retryInterval := retryInterval s;
     attempts := attempts s; maxAttempts := maxAttempts s;
     closing := closing s; onClose := onClose s |}.

Definition set_localSeq (v : Z) (s : UdpStream) : UdpStream :=
  {| items := items s; localSeq := v; remoteSeq := remoteSeq s;
     remote := remote s; version := version s; sendHandle := sendHandle s;
     retryHandle := retryHandle s; retryInterval := retryInterval s;
     attempts := attempts s; maxAttempts := maxAttempts s;
     closing := closing s; onClose := onClose s |}.

Definition set_remoteSeq (v : Z) (s : UdpStream) : UdpStream :=
  {| items := items s; localSeq := localSeq s; remoteSeq := v;
     remote := remote s; version := version s; sendHandle := sendHandle s;
     retryHandle := retryHandle s; retryInterval := retryInterval s;
     attempts := attempts s; maxAttempts := maxAttempts s;
     closing := closing s; onClose := onClose s |}.

Definition set_sendHandle (v : handle) (s : UdpStream) : UdpStream :=
  {| items := items s; localSeq := localSeq s; remoteSeq := remoteSeq s;
     remote := remote s; version := version s; sendHandle := v;
     retryHandle := retryHandle s; retryInterval := retryInterval s;
     attempts := attempts s; maxAttempts := maxAttempts s;
     closing := closing s; onClose := onClose s |}.

Definition set_retryHandle (v : handle) (s : UdpStream) : UdpStream :=
  {| items := items s; localSeq := localSeq s; remoteSeq := remoteSeq s;
     remote := remote s; version := version s; sendHandle := sendHandle s;
     retryHandle := v; retryInterval := retryInterval s;
     attempts := attempts s; maxAttempts := maxAttempts s;
     closing := closing s; onClose := onClose s |}.

Definition set_retryInterval (v : Z) (s : UdpStream) : UdpStream :=
  {| items := items s; localSeq := localSeq s; remoteSeq := remoteSeq s;
     remote := remote s; version := version s; sendHandle := sendHandle s;
     retryHandle := retryHandle s; retryInterval := v; attempts := attempts s;
     maxAttempts := maxAttempts s; closing := closing s;
     onClose := onClose s |}.

Definition set_attempts (v : Z) (s : UdpStream) : UdpStream :=
  {| items := items s; localSeq := localSeq s; remoteSeq := remoteSeq s;
     remote := remote s; version := version s; sendHandle := sendHandle s;
     retryHandle := retryHandle s; retryInterval := retryInterval s;
     attempts := v; maxAttempts := maxAttempts s; closing := closing s;
     onClose := onClose s |}.

Definition set_maxAttempts (v : Z) (s : UdpStream) : UdpStream :=
  {| items := items s; localSeq := localSeq s; remoteSeq := remoteSeq s;
     remote := remote s; version := version s; sendHandle := sendHandle s;
     retryHandle := retryHandle s; retryInterval := retryInterval s;
     attempts := attempts s; maxAttempts := v; closing := closing s;
     onClose := onClose s |}.

Definition set_closing (v : bool) (s : UdpStream) : UdpStream :=
  {| items := items s; localSeq := localSeq s; remoteSeq := remoteSeq s;
     remote := remote s; version := version s; sendHandle := sendHandle s;
     retryHandle := retryHandle s; retryInterval := retryInterval s;
     attempts := attempts s; maxAttempts := maxAttempts s; closing := v;
     onClose := onClose s |}.

Definition set_onClose (v : option Cb) (s : UdpStream) : UdpStream :=
  {| items := items s; localSeq := localSeq s; remoteSeq := remoteSeq s;
     remote := remote s; version := version s; sendHandle := sendHandle s;
     retryHandle := retryHandle s; retryInterval := retryInterval s;
     attempts := attempts s; maxAttempts := maxAttempts s;
     closing := closing s; onClose := v |}.

(** *** [serialize(serializer)]

    The method only reads [this]; the stream is threaded through all the
    same, next to the serializer. *)
Definition SW : Type := UdpStream * Writer.

Definition on_writer {A : Type} (m : M Writer A) : M SW A :=
  fun st => let (r, w) := m (snd st) in (r, (fst st, w)).

(** [serializer.uint16(k.seq); this.socket.oracle.serialize(serializer, k.item);] *)
Definition item_body (k : Z * Item) : M SW unit :=
  (on_writer (uint16_write (fst k)) ;; on_writer (oracle_write (snd k)))%js.

(** The [for] loop, with [n] iterations left at most. *)
Fixpoint serialize_loop (n : nat) (i : nat) (remaining : Z) : M SW Z :=
  match n with
  | O => ret remaining
  | S n' =>
      (let* st := get in
       match items (fst st) !! i with
       | None => ret remaining
       | Some k =>
           let revert := mark (snd st) in
           let* written :=
             try_catch
               (item_body k ;; ret true)
               (modify (fun st' => (fst st', revert (snd st'))) ;;
                ret false) in
           if (written : bool) then serialize_loop n' (S i) (remaining - 1)
           else ret remaining
       end)%js
  end.

Definition serialize : M SW unit :=
  (let* st := get in
   on_writer (uint16_write (remoteSeq (fst st))) ;;
   let* remaining :=
     serialize_loop (length (items (fst st))) 0
                    (Z.of_nat (length (items (fst st)))) in
   let* st' := get in
   if closing (fst st') && (remaining =? 0)
   then on_writer (uint16_write 65535)
   else on_writer (uint16_write 0))%js.

(** *** The environment of a stream

    A stream calls out of itself in three places: the [onClose] closure, the
    owning socket's [sendStream(this)], and the item handler given to
    [receive]. [Env] is whatever these act on (the socket and its world). *)
Context {Env : Type}.
Variable run_onClose : Cb -> Env -> outcome unit * Env.
Variable sendStream : UdpStream -> Env -> outcome unit * Env.

(** Calls of the two callbacks a stream is given, in the order made. *)
Inductive event : Type :=
| HandlerCalled (seq : Z) (item : Item)
| OnCloseCalled (k : Cb).

Record Ctx : Type := { self : UdpStream; env : Env; trace : list event }.

Definition on_self (f : UdpStream -> UdpStream) (c : Ctx) : Ctx :=
  {| self := f (self c); env := env c; trace := trace c |}.

Definition log (ev : event) : M Ctx unit :=
  modify (fun c => {| self := self c; env := env c; trace := trace c ++ [ev] |}).

Definition on_env (f : Env -> outcome unit * Env) : M Ctx unit :=
  fun c =>
    let (r, e') := f (env c) in
    (r, {| self := self c; env := e'; trace := trace c |}).

(** *** [end()] *)
Definition end_ : M Ctx unit :=
  (modify (on_self (set_closing true)) ;;
   let* c := get in
   (if truthy (retryHandle (self c))
    then modify (on_self (set_retryHandle HNull)) else ret tt) ;;
   let* c := get in
   (if truthy (sendHandle (self c))
    then modify (on_self (set_sendHandle HNull)) else ret tt) ;;
   let* c := get in
   match onClose (self c) with
   | Some k =>
       modify (on_self (set_onClose None)) ;;
       log (OnCloseCalled k) ;;
       on_env (run_onClose k)
   | None => ret tt
   end)%js.

(** *** [send(item?)] *)

(** [this.localSeq += 1; this.items.push({ seq: this.localSeq, item });] *)
Definition enqueue (it : Item) (s : UdpStream) : UdpStream :=
  let s1 := set_localSeq (localSeq s + 1) s in
  set_items (items s1 ++ [(localSeq s1, it)]) s1.

Definition send (item : option Item) : M Ctx unit :=
  (let* c := get in
   match item with
   | Some it =>
       if negb (closing (self c))
       then modify (on_self (enqueue it))
       else ret tt
   | None => ret tt
   end ;;
   let* c := get in
   if truthy (sendHandle (self c)) then ret tt
   else if attempts (self c) >=? maxAttempts (self c) then end_
   else modify (on_self (set_sendHandle HPending)))%js.

(** The callback given to [setImmediate] in [send]. The timer that
    [clearTimeout] stops there is the one the next line replaces. *)
Definition send_callback : M Ctx unit :=
  (modify (on_self (fun s => set_attempts (attempts s + 1) s)) ;;
   let* c := get in
   on_env (sendStream (self c)) ;;
   modify (on_self (set_sendHandle HNull)) ;;
   let* c := get in
   if negb (length (items (self c)) =? 0)%nat || closing (self c)
   then
     modify (on_self (set_retryHandle HPending)) ;;
     let* c := get in
     if retryInterval (self c) <? MAX_RETRY_INTERVAL
     then modify (on_self (fun s => set_retryInterval (retryInterval s + 500) s))
     else ret tt
   else modify (on_self (set_attempts 0)))%js.

(** The event loop runs a pending immediate; the handle stays in the field
    until the callback clears it. *)
Definition fire_immediate : M Ctx unit :=
  (let* c := get in
   match sendHandle (self c) with
   | HPending => modify (on_self (set_sendHandle HStale)) ;; send_callback
   | _ => ret tt
   end)%js.

(** The event loop runs a pending retry timer: [() => this.send()]. *)
Definition fire_retry : M Ctx unit :=
  (let* c := get in
   match retryHandle (self c) with
   | HPending => modify (on_self (set_retryHandle HStale)) ;; send None
   | _ => ret tt
   end)%js.

(** *** [close()] *)
Definition close : M Ctx unit :=
  (let* c := get in
   if closing (self c) then ret tt
   else
     modify (on_self (set_closing true)) ;;
     modify (on_self (set_maxAttempts 5)) ;;
     send None)%js.

(** *** Item handlers

    A handler is a closure of the socket. What it does to the stream it does
    through the stream's public methods; whatever else it does is an effect on
    the environment; it may raise. *)
Inductive api : Type :=
| ApiSend (item : option Item)
| ApiClose
| ApiEnd.

Inductive action : Type :=
| Call (c : api)
| Effect (f : Env -> Env)
| Raise (e : error).

(** An [async] function never raises into its caller: what is raised inside
    rejects the promise it returns. *)
Inductive handler_kind : Type := Sync | Async.

Definition Handler : Type := Item -> Env -> handler_kind * list action.

Definition run_api (a : api) : M Ctx unit :=
  match a with
  | ApiSend item => send item
  | ApiClose => close
  | ApiEnd => end_
  end.

Definition run_action (a : action) : M Ctx unit :=
  match a with
  | Call c => run_api c
  | Effect f => on_env (fun e => (Ok tt, f e))
  | Raise e => throw e
  end.

Fixpoint run_actions (l : list action) : M Ctx unit :=
  match l with
  | [] => ret tt
  | a :: l' => (run_action a ;; run_actions l')%js
  end.

Definition handler_body (handler : Handler) (item : Item) : M Ctx unit :=
  (let* c := get in
   match handler item (env c) with
   | (Sync, l) => run_actions l
   | (Async, l) => try_catch (run_actions l) (ret tt)
   end)%js.

(** [handler(item)] *)
Definition call_handler (handler : Handler) (seq : Z) (item : Item) : M Ctx unit :=
  (log (HandlerCalled seq item) ;; handler_body handler item)%js.

(** *** [receive(serializer, handler)] *)
Definition RCtx : Type := Reader * Ctx.

Definition on_reader {A : Type} (m : M Reader A) : M RCtx A :=
  fun st => let (r, rd) := m (fst st) in (r, (rd, snd st)).

Definition on_ctx {A : Type} (m : M Ctx A) : M RCtx A :=
  fun st => let (r, c) := m (snd st) in (r, (fst st, c)).

(** [while (this.items.length) { ... this.items.shift(); }] *)
Fixpoint shift_acked (remoteAck : Z) (l : list (Z * Item)) : list (Z * Item) :=
  match l with
  | [] => []
  | k :: rest => if fst k >? remoteAck then l else shift_acked remoteAck rest
  end.

(** [do { ... } while (true)]: every turn reads two bytes at least, so a
    number of turns above the number of bytes left is never used up
    ([receive_loop_fuel]). *)
Fixpoint receive_loop (fuel : nat) (handler : Handler) : M RCtx unit :=
  match fuel with
  | O => throw RangeError
  | S fuel' =>
      (let* seq := on_reader uint16_read in
       if seq =? 0 then ret tt
       else if seq =? 65535 then
         on_ctx (modify (on_self (set_remoteSeq seq))) ;;
         on_ctx close ;;
         on_ctx (modify (on_self (set_maxAttempts 1)))
       else
         let* st := get in
         if seq >? remoteSeq (self (snd st)) then
           (if negb (truthy (sendHandle (self (snd st))))
            then on_ctx (send None) else ret tt) ;;
           on_ctx (modify (on_self (set_remoteSeq seq))) ;;
           let* item := on_reader oracle_read in
           on_ctx (call_handler handler seq item) ;;
           receive_loop fuel' handler
         else receive_loop fuel' handler)%js
  end.

Definition receive (handler : Handler) : M RCtx unit :=
  (let* remoteAck := on_reader uint16_read in
   on_ctx (modify (on_self (fun s => set_items (shift_acked remoteAck (items s)) s))) ;;
   on_ctx (modify (on_self (set_attempts 0))) ;;
   if remoteAck =? 65535 then on_ctx end_
   else
     on_ctx (modify (on_self (set_retryInterval MIN_RETRY_INTERVAL))) ;;
     let* st := get in
     (if truthy (retryHandle (self (snd st)))
      then on_ctx (modify (on_self (set_retryHandle HNull))) else ret tt) ;;
     let* st := get in
     receive_loop (S (length (rbytes (fst st)))) handler)%js.

(** *** Executions of one stream: the calls and callbacks an event loop
    makes, one after the other. An exception ends the call that raised it,
    not the stream. *)
Inductive op : Type :=
| OpSend (item : option Item)
| OpClose
| OpEnd
| OpReceive (frame : Reader) (handler : Handler)
| OpImmediate
| OpRetry.

Definition run_op (o : op) (c : Ctx) : Ctx :=
  match o with
  | OpSend item => snd (send item c)
  | OpClose => snd (close c)
  | OpEnd => snd (end_ c)
  | OpReceive frame handler => snd (snd (receive handler (frame, c)))
  | OpImmediate => snd (fire_immediate c)
  | OpRetry => snd (fire_retry c)
  end.

Definition run_ops (ops : list op) (c : Ctx) : Ctx := fold_left (fun c o => run_op o c) ops c.

(** ** The frame body, as the format describes it *)

(** One queue entry on the wire: [u16 seq] followed by the oracle's encoding;
    [None] when either write raises whatever the room. *)
Definition item_bytes (ver : Z) (k : Z * Item) : option (list byte) :=
  if in_u16 (fst k)
  then
    match oracle_encode ver (snd k) with
    | Some bs => Some (u16_encode (fst k) ++ bs)
    | None => None
    end
  else None.

(** The entries that go into a frame with [space] bytes left: queue order, up
    to the first one that raises. *)
Fixpoint frame_items (ver : Z) (space : nat) (l : list (Z * Item)) : list (Z * Item) :=
  match l with
  | [] => []
  | k :: l' =>
      match item_bytes ver k with
      | Some bs =>
          if (length bs <=? space)%nat
          then k :: frame_items ver (space - length bs) l'
          else []
      | None => []
      end
  end.

Definition items_bytes (ver : Z) (l : list (Z * Item)) : list byte :=
  flat_map (fun k => default [] (item_bytes ver k)) l.

(** The frame body of the format: ack, items, terminator. *)
Definition frame_body (ver ack : Z) (written : list (Z * Item)) (terminator : Z) :
    list byte :=
  u16_encode ack ++ items_bytes ver written ++ u16_encode terminator.

(** * Properties of [serialize] *)

Lemma with_out_id (w : Writer) : with_out w (wout w) = w.
Proof. destruct w; reflexivity. Qed.

Lemma item_body_ok (k : Z * Item) (s : UdpStream) (w : Writer) (bs : list byte) :
  item_bytes (wversion w) k = Some bs ->
  (length bs <= wsize w - length (wout w))%nat ->
  item_body k (s, w) = (Ok tt, (s, with_out w (wout w ++ bs))).
Proof.
  unfold item_body, item_bytes, bind, on_writer, uint16_write, oracle_write,
    bytes_write, room. simpl.
  destruct (in_u16 (fst k)); [|discriminate]. simpl.
  intros Hb Hfit.
  destruct (oracle_encode (wversion w) (snd k)) as [pl|] eqn:He; [|discriminate].
  injection Hb as <-. rewrite length_app, u16_encode_length in Hfit.
  destruct (Nat.leb_spec (length (wout w) + 2) (wsize w)); [|lia]. simpl.
  rewrite He, length_app, u16_encode_length.
  destruct (Nat.leb_spec (length (wout w) + 2 + length pl) (wsize w)); [|lia].
  unfold with_out; simpl. by rewrite <- app_assoc.
Qed.

Lemma item_body_threw (k : Z * Item) (s : UdpStream) (w : Writer) :
  match item_bytes (wversion w) k with
  | Some bs => (wsize w - length (wout w) < length bs)%nat
  | None => True
  end ->
  exists e tail, item_body k (s, w) = (Threw e, (s, with_out w (wout w ++ tail))).
Proof.
  unfold item_body, item_bytes, bind, on_writer, uint16_write, oracle_write,
    bytes_write, room. simpl.
  destruct (in_u16 (fst k)); simpl.
  - destruct (Nat.leb_spec (length (wout w) + 2) (wsize w)); simpl.
    + destruct (oracle_encode (wversion w) (snd k)) as [pl|]; simpl.
      * rewrite !length_app, u16_encode_length. intros Hfit.
        destruct (Nat.leb_spec (length (wout w) + 2 + length pl) (wsize w)); [lia|].
        eexists _, _. unfold with_out; simpl. rewrite <- app_assoc. reflexivity.
      * intros _. eexists _, _. unfold with_out; simpl. reflexivity.
    + intros _. exists RangeError, []. by rewrite app_nil_r, with_out_id.
  - intros _. exists RangeError, []. by rewrite app_nil_r, with_out_id.
Qed.

Lemma item_body_inv (k : Z * Item) (s : UdpStream) (w : Writer) (e : error) :
  fst (item_body k (s, w)) = Threw e ->
  match item_bytes (wversion w) k with
  | Some bs => (wsize w - length (wout w) < length bs)%nat
  | None => True
  end.
Proof.
  destruct (item_bytes (wversion w) k) as [bs|] eqn:Hb; [|done].
  intros Hthrew.
  destruct (Nat.lt_ge_cases (wsize w - length (wout w)) (length bs)) as [|Hfit]; [done|].
  rewrite (item_body_ok k s w bs Hb Hfit) in Hthrew. discriminate.
Qed.

Lemma mark_revert (w : Writer) (tail : list byte) :
  mark w (with_out w (wout w ++ tail)) = w.
Proof.
  unfold mark, with_out; simpl. rewrite take_app_length. by destruct w.
Qed.

(** The loop, from entry [i] on, writes [frame_items] of the rest of the
    queue and counts them off [remaining]. *)
Lemma serialize_loop_spec (rest pre : list (Z * Item)) (s : UdpStream)
    (w : Writer) (remaining : Z) :
  items s = pre ++ rest ->
  let written := frame_items (wversion w) (wsize w - length (wout w)) rest in
  serialize_loop (length rest) (length pre) remaining (s, w)
  = (Ok (remaining - Z.of_nat (length written)),
     (s, with_out w (wout w ++ items_bytes (wversion w) written))).
Proof.
  revert pre w remaining.
  induction rest as [|k rest IH]; intros pre w remaining Hitems; simpl.
  - unfold ret. by rewrite Z.sub_0_r, app_nil_r, with_out_id.
  - unfold bind at 1, get. simpl.
    rewrite Hitems, list_lookup_middle by reflexivity.
    unfold bind at 1, try_catch.
    destruct (item_bytes (wversion w) k) as [bs|] eqn:Hb.
    + destruct (Nat.leb_spec (length bs) (wsize w - length (wout w))) as [Hfit|Hfit].
      * unfold bind at 1. rewrite (item_body_ok k s w bs Hb Hfit).
        unfold ret at 1.
        specialize (IH (pre ++ [k]) (with_out w (wout w ++ bs)) (remaining - 1)).
        rewrite length_app in IH. simpl in IH.
        replace (length pre + 1)%nat with (S (length pre)) in IH by lia.
        rewrite IH by (by rewrite <- app_assoc).
        simpl. rewrite length_app.
        replace (wsize w - (length (wout w) + length bs))%nat
          with (wsize w - length (wout w) - length bs)%nat by lia.
        f_equal; [f_equal; lia|]. f_equal.
        unfold with_out, items_bytes; simpl. rewrite Hb. simpl.
        by rewrite <- app_assoc.
      * destruct (item_body_threw k s w) as (e & tail & Hthrew); [by rewrite Hb|].
        unfold bind at 1. rewrite Hthrew.
        unfold bind, modify, ret; simpl.
        rewrite mark_revert. simpl.
        by rewrite Z.sub_0_r, app_nil_r, with_out_id.
    + destruct (item_body_threw k s w) as (e & tail & Hthrew); [by rewrite Hb|].
      unfold bind at 1. rewrite Hthrew.
      unfold bind, modify, ret; simpl.
      rewrite mark_revert. simpl.
      by rewrite Z.sub_0_r, app_nil_r, with_out_id.
Qed.

Lemma frame_items_length (ver : Z) (space : nat) (l : list (Z * Item)) :
  (length (frame_items ver space l) <= length l)%nat.
Proof.
  revert space. induction l as [|k l IH]; intros space; simpl; [lia|].
  destruct (item_bytes ver k) as [bs|]; simpl; [|lia].
  destruct (length bs <=? space)%nat; simpl; [|lia].
  specialize (IH (space - length bs)%nat). lia.
Qed.

Lemma serialize_unfold (s : UdpStream) (w : Writer) :
  serialize (s, w)
  = if in_u16 (remoteSeq s) && room w 2
    then
      let w1 := with_out w (wout w ++ u16_encode (remoteSeq s)) in
      let written := frame_items (wversion w) (wsize w - length (wout w1)) (items s) in
      let w2 := with_out w (wout w1 ++ items_bytes (wversion w) written) in
      on_writer
        (uint16_write
           (if closing s && (length written =? length (items s))%nat
            then 65535 else 0))
        (s, w2)
    else (Threw RangeError, (s, w)).
Proof.
  unfold serialize.
  unfold bind at 1, get. simpl.
  unfold bind at 1, on_writer at 1, uint16_write at 1. simpl.
  destruct (in_u16 (remoteSeq s) && room w 2) eqn:Hack; [|reflexivity].
  unfold bind at 1.
  pose proof (serialize_loop_spec (items s) [] s
                (with_out w (wout w ++ u16_encode (remoteSeq s)))
                (Z.of_nat (length (items s))) eq_refl) as Hloop.
  simpl in Hloop. rewrite Hloop. clear Hloop.
  unfold bind, get. simpl.
  set (written := frame_items _ _ _).
  pose proof (frame_items_length (wversion w)
                (wsize w - length (wout w ++ u16_encode (remoteSeq s)))
                (items s)) as Hlen.
  fold written in Hlen.
  replace (Z.of_nat (length (items s)) - Z.of_nat (length written) =? 0)
    with (length written =? length (items s))%nat.
  2:{ destruct (Nat.eqb_spec (length written) (length (items s)));
      destruct (Z.eqb_spec (Z.of_nat (length (items s)) - Z.of_nat (length written)) 0);
      try reflexivity; lia. }
  by destruct (closing s && (length written =? length (items s))%nat).
Qed.

(** Entries that all fit are all taken; the first entry that raises ends the
    list, whatever follows it. *)
Lemma frame_items_stop (ver : Z) (pre post : list (Z * Item)) (k : Z * Item)
    (space : nat) :
  frame_items ver space pre = pre ->
  match item_bytes ver k with
  | Some bs => (space - length (items_bytes ver pre) < length bs)%nat
  | None => True
  end ->
  frame_items ver space (pre ++ k :: post) = pre.
Proof.
  revert space. induction pre as [|p pre IH]; intros space Hpre Hk; simpl in *.
  - destruct (item_bytes ver k) as [bs|]; [|done].
    destruct (Nat.leb_spec (length bs) space); [lia|done].
  - unfold items_bytes in Hk. simpl in Hk.
    destruct (item_bytes ver p) as [bs|]; [|discriminate].
    destruct (length bs <=? space)%nat; [|discriminate].
    injection Hpre as Hpre. f_equal. apply IH; [done|].
    simpl in Hk. rewrite length_app in Hk.
    destruct (item_bytes ver k); [|done]. unfold items_bytes. lia.
Qed.

(** C2. With room for the ack, [serialize] writes the ack and the pending
    entries in queue order, each as [u16 seq] followed by its oracle
    encoding, up to the first entry whose encoding raises. When two bytes
    are left after them it ends the frame with the terminator, [0xFFFF]
    exactly when [closing] is set and every pending entry was written, [0]
    otherwise. When fewer than two bytes are left, the write of the
    terminator, which is outside the [try], raises a [RangeError]: there is
    no frame, and the serializer is left with the ack and the entries
    only. *)
Theorem serialize_terminator_overflow (s : UdpStream) (w : Writer) :
  in_u16 (remoteSeq s) = true ->
  room w 2 = true ->
  let space := (wsize w - length (wout w) - 2)%nat in
  let written := frame_items (wversion w) space (items s) in
  let terminator :=
    if closing s && (length written =? length (items s))%nat then 65535 else 0 in
  let left := (space - length (items_bytes (wversion w) written))%nat in
  ((2 <= left)%nat ->
   serialize (s, w)
   = (Ok tt, (s, with_out w (wout w ++ frame_body (wversion w) (remoteSeq s)
                                          written terminator))))
  /\ ((left < 2)%nat ->
      serialize (s, w)
      = (Threw RangeError,
         (s, with_out w (wout w ++ u16_encode (remoteSeq s)
                                ++ items_bytes (wversion w) written)))).
Proof.
  intros Hack Hroom space written terminator left.
  rewrite serialize_unfold, Hack, Hroom. simpl andb. cbv zeta.
  unfold room in Hroom. apply Nat.leb_le in Hroom.
  cbn [wout with_out]. rewrite length_app, u16_encode_length.
  replace (wsize w - (length (wout w) + 2))%nat with space by (subst space; lia).
  fold written. fold terminator.
  assert (Hterm : in_u16 terminator = true)
    by (subst terminator; by destruct (closing s && _)).
  unfold on_writer, uint16_write, room. cbn [fst snd wout wsize with_out wversion].
  rewrite Hterm. simpl andb. rewrite !length_app, u16_encode_length.
  split; intros Hleft.
  - destruct (Nat.leb_spec (length (wout w) + 2
                              + length (items_bytes (wversion w) written) + 2)
                           (wsize w)); [|subst left space; lia].
    unfold frame_body. by rewrite <- !app_assoc.
  - destruct (Nat.leb_spec (length (wout w) + 2
                              + length (items_bytes (wversion w) written) + 2)
                           (wsize w)); [subst left space; lia|].
    by rewrite <- !app_assoc.
Qed.

(** C3. When the encoding of a pending entry [k] raises in [serialize] (the
    entries before it having been written), the cursor is back where it was
    just before [k], nothing of [k] or of the entries after it is in the
    frame, which ends with the terminator [0], and the stream, its pending
    queue included, is as it was. *)
Theorem serialize_raise_reverts (s : UdpStream) (w w1 : Writer)
    (pre post : list (Z * Item)) (k : Z * Item) (e : error) :
  items s = pre ++ k :: post ->
  uint16_write (remoteSeq s) w = (Ok tt, w1) ->
  frame_items (wversion w) (wsize w - length (wout w1)) pre = pre ->
  let before_k := with_out w1 (wout w1 ++ items_bytes (wversion w) pre) in
  fst (item_body k (s, before_k)) = Threw e ->
  serialize (s, w) = on_writer (uint16_write 0) (s, before_k)
  /\ items (fst (snd (serialize (s, w)))) = pre ++ k :: post.
Proof.
  intros Hitems Hack Hpre before_k Hraise.
  assert (Hs : serialize (s, w) = on_writer (uint16_write 0) (s, before_k)).
  { rewrite serialize_unfold.
    unfold uint16_write in Hack.
    destruct (in_u16 (remoteSeq s) && room w 2); [|discriminate].
    injection Hack as <-. cbv zeta.
    apply item_body_inv in Hraise. simpl in Hraise.
    rewrite Hitems.
    rewrite (frame_items_stop (wversion w) pre post k _ Hpre)
      by (destruct (item_bytes (wversion w) k); [|done];
          simpl in *; rewrite length_app in Hraise; lia).
    rewrite length_app. simpl.
    destruct (Nat.eqb_spec (length pre) (length pre + S (length post))); [lia|].
    by rewrite andb_false_r. }
  split; [done|].
  rewrite Hs. unfold on_writer. simpl.
  by destruct (uint16_write 0 before_k).
Qed.

(** * Properties of the stream methods *)

(** ** Relations between the state before and the state after a call *)

Definition preserves {A : Type} (R : Ctx -> Ctx -> Prop) (m : M Ctx A) : Prop :=
  forall c, R c (snd (m c)).

Section Preserves.

Variable R : Ctx -> Ctx -> Prop.
Hypothesis R_refl : forall c, R c c.
Hypothesis R_trans : forall c1 c2 c3, R c1 c2 -> R c2 c3 -> R c1 c3.

Lemma preserves_ret {A : Type} (a : A) : preserves R (ret a).
Proof. intros c. apply R_refl. Qed.

Lemma preserves_throw {A : Type} (e : error) : preserves R (@throw Ctx A e).
Proof. intros c. apply R_refl. Qed.

Lemma preserves_get : preserves R get.
Proof. intros c. apply R_refl. Qed.

Lemma preserves_bind {A B : Type} (m : M Ctx A) (k : A -> M Ctx B) :
  preserves R m -> (forall a, preserves R (k a)) -> preserves R (bind m k).
Proof.
  intros Hm Hk c. unfold bind. specialize (Hm c).
  destruct (m c) as [[a|e] c']; simpl in *; [|done].
  eapply R_trans; [exact Hm|apply Hk].
Qed.

Lemma preserves_try_catch {A : Type} (m h : M Ctx A) :
  preserves R m -> preserves R h -> preserves R (try_catch m h).
Proof.
  intros Hm Hh c. unfold try_catch. specialize (Hm c).
  destruct (m c) as [[a|e] c']; simpl in *; [done|].
  eapply R_trans; [exact Hm|apply Hh].
Qed.

Lemma preserves_modify (f : Ctx -> Ctx) :
  (forall c, R c (f c)) -> preserves R (modify f).
Proof. intros Hf c. apply Hf. Qed.

End Preserves.

(** Sequence numbers handed to the handler, and calls of [onClose]. *)
Definition delivered (t : list event) : list Z :=
  flat_map (fun ev => match ev with HandlerCalled seq _ => [seq] | _ => [] end) t.

Definition closes (t : list event) : nat :=
  length (flat_map (fun ev => match ev with OnCloseCalled k => [k] | _ => [] end) t).

Lemma delivered_app (t1 t2 : list event) :
  delivered (t1 ++ t2) = delivered t1 ++ delivered t2.
Proof. unfold delivered. by rewrite flat_map_app. Qed.

Lemma closes_app (t1 t2 : list event) :
  closes (t1 ++ t2) = (closes t1 + closes t2)%nat.
Proof. unfold closes. by rewrite flat_map_app, length_app. Qed.

(** [quiet]: the handler was not called and [remoteSeq] stayed. *)
Definition quiet (c c' : Ctx) : Prop :=
  remoteSeq (self c') = remoteSeq (self c)
  /\ exists t, trace c' = trace c ++ t /\ delivered t = [].

Lemma quiet_refl (c : Ctx) : quiet c c.
Proof. repeat split. exists []. by rewrite app_nil_r. Qed.

Lemma quiet_trans (c1 c2 c3 : Ctx) : quiet c1 c2 -> quiet c2 c3 -> quiet c1 c3.
Proof.
  intros (Hr & t & Ht & Hd) (Hr' & t' & Ht' & Hd').
  split; [congruence|].
  exists (t ++ t'). rewrite Ht', Ht, delivered_app, Hd, Hd'. by rewrite app_assoc.
Qed.

Lemma quiet_on_self (f : UdpStream -> UdpStream) :
  (forall s, remoteSeq (f s) = remoteSeq s) -> forall c, quiet c (on_self f c).
Proof.
  intros Hf c. split; simpl; [done|]. exists []. by rewrite app_nil_r.
Qed.

Lemma quiet_on_env (f : Env -> outcome unit * Env) : preserves quiet (on_env f).
Proof.
  intros c. unfold on_env. destruct (f (env c)) as [r e']. simpl.
  repeat split. exists []. by rewrite app_nil_r.
Qed.

Lemma quiet_log_close (k : Cb) : preserves quiet (log (OnCloseCalled k)).
Proof.
  intros c. unfold log, modify. simpl. repeat split. by exists [OnCloseCalled k].
Qed.

(** [latch]: every call of [onClose] empties the field, and nothing refills
    it: calls made plus calls still possible stay the same. *)
Definition owed (s : UdpStream) : nat :=
  match onClose s with Some _ => 1 | None => 0 end.

Definition latch (c c' : Ctx) : Prop :=
  (closes (trace c') + owed (self c') = closes (trace c) + owed (self c))%nat.

Lemma latch_refl (c : Ctx) : latch c c.
Proof. reflexivity. Qed.

Lemma latch_trans (c1 c2 c3 : Ctx) : latch c1 c2 -> latch c2 c3 -> latch c1 c3.
Proof. unfold latch. lia. Qed.

Lemma latch_on_self (f : UdpStream -> UdpStream) :
  (forall s, onClose (f s) = onClose s) -> forall c, latch c (on_self f c).
Proof. intros Hf c. unfold latch, owed. simpl. by rewrite Hf. Qed.

Lemma latch_on_env (f : Env -> outcome unit * Env) : preserves latch (on_env f).
Proof. intros c. unfold on_env, latch. by destruct (f (env c)). Qed.

Lemma latch_log_handler (seq : Z) (item : Item) :
  preserves latch (log (HandlerCalled seq item)).
Proof.
  intros c. unfold latch, log, modify. simpl. rewrite closes_app.
  unfold closes at 2. simpl. lia.
Qed.

(** [end()] in one step. *)
Definition ended (s : UdpStream) : UdpStream :=
  set_sendHandle HNull (set_retryHandle HNull (set_closing true s)).

Lemma end_spec (c : Ctx) :
  end_ c
  = match onClose (self c) with
    | Some k =>
        let (r, e') := run_onClose k (env c) in
        (r, {| self := set_onClose None (ended (self c)); env := e';
               trace := trace c ++ [OnCloseCalled k] |})
    | None => (Ok tt, on_self ended c)
    end.
Proof.
  destruct c as [s e t]. destruct s.
  unfold end_, bind, modify, get, on_self, ret, log, on_env, ended. simpl.
  destruct retryHandle0, sendHandle0, onClose0 as [k|]; simpl;
    try destruct (run_onClose k e); reflexivity.
Qed.

Lemma end_latch : preserves latch end_.
Proof.
  intros c. rewrite end_spec. unfold latch, owed.
  destruct (onClose (self c)) as [k|] eqn:Hk; simpl; [|rewrite Hk; lia].
  destruct (run_onClose k (env c)). simpl. rewrite closes_app.
  unfold closes at 2. simpl. lia.
Qed.

(** [steady]: [attempts] stayed. *)
Definition steady (c c' : Ctx) : Prop := attempts (self c') = attempts (self c).

Lemma steady_refl (c : Ctx) : steady c c.
Proof. reflexivity. Qed.

Lemma steady_trans (c1 c2 c3 : Ctx) : steady c1 c2 -> steady c2 c3 -> steady c1 c3.
Proof. unfold steady. congruence. Qed.

Lemma steady_on_self (f : UdpStream -> UdpStream) :
  (forall s, attempts (f s) = attempts s) -> forall c, steady c (on_self f c).
Proof. intros Hf c. apply Hf. Qed.

Lemma steady_on_env (f : Env -> outcome unit * Env) : preserves steady (on_env f).
Proof. intros c. unfold on_env, steady. by destruct (f (env c)). Qed.

Lemma steady_log (ev : event) : preserves steady (log ev).
Proof. intros c. reflexivity. Qed.

Create HintDb pres.

#[local] Hint Resolve steady_refl steady_trans steady_on_env steady_log : pres.

#[local] Hint Resolve quiet_refl quiet_trans latch_refl latch_trans : pres.
#[local] Hint Resolve quiet_on_env quiet_log_close latch_on_env latch_log_handler
  end_latch : pres.
#[local] Hint Resolve preserves_ret preserves_throw preserves_get : pres.

Ltac pres_tac :=
  repeat match goal with
         | |- forall _, preserves _ _ => intros ?
         | |- preserves _ (if ?b then _ else _) => destruct b
         | |- preserves _ (match ?o with _ => _ end) => destruct o
         | |- preserves _ (bind _ _) => apply preserves_bind; [eauto with pres| |]
         | |- preserves _ (try_catch _ _) =>
             apply preserves_try_catch; [eauto with pres| |]
         | |- preserves quiet (modify (on_self _)) =>
             apply preserves_modify, quiet_on_self; intros ?; reflexivity
         | |- preserves latch (modify (on_self _)) =>
             apply preserves_modify, latch_on_self; intros ?; reflexivity
         | |- preserves steady (modify (on_self _)) =>
             apply preserves_modify, steady_on_self; intros ?; reflexivity
         | |- _ => solve [auto with pres]
         end.

Lemma end_quiet : preserves quiet end_.
Proof. unfold end_. pres_tac. Qed.

Lemma end_steady : preserves steady end_.
Proof. unfold end_. pres_tac. Qed.

#[local] Hint Resolve end_quiet end_steady : pres.

Lemma send_quiet (item : option Item) : preserves quiet (send item).
Proof. unfold send. pres_tac. Qed.

Lemma send_latch (item : option Item) : preserves latch (send item).
Proof. unfold send. pres_tac. Qed.

Lemma send_steady (item : option Item) : preserves steady (send item).
Proof. unfold send. pres_tac. Qed.

#[local] Hint Resolve send_quiet send_latch send_steady : pres.

Lemma close_quiet : preserves quiet close.
Proof. unfold close. pres_tac. Qed.

Lemma close_latch : preserves latch close.
Proof. unfold close. pres_tac. Qed.

Lemma close_steady : preserves steady close.
Proof. unfold close. pres_tac. Qed.

#[local] Hint Resolve close_quiet close_latch close_steady : pres.

Lemma fire_retry_quiet : preserves quiet fire_retry.
Proof. unfold fire_retry. pres_tac. Qed.

Lemma fire_retry_latch : preserves latch fire_retry.
Proof. unfold fire_retry. pres_tac. Qed.

Lemma fire_immediate_latch : preserves latch fire_immediate.
Proof. unfold fire_immediate, send_callback. pres_tac. Qed.

Lemma run_api_quiet (a : api) : preserves quiet (run_api a).
Proof. destruct a; simpl; auto with pres. Qed.

Lemma run_api_latch (a : api) : preserves latch (run_api a).
Proof. destruct a; simpl; auto with pres. Qed.

Lemma run_api_steady (a : api) : preserves steady (run_api a).
Proof. destruct a; simpl; auto with pres. Qed.

#[local] Hint Resolve run_api_quiet run_api_latch run_api_steady : pres.

Lemma run_actions_quiet (l : list action) : preserves quiet (run_actions l).
Proof.
  induction l as [|a l IH]; simpl; [pres_tac|].
  apply preserves_bind; [eauto with pres| |intros _; exact IH].
  destruct a; simpl; auto with pres.
Qed.

Lemma run_actions_latch (l : list action) : preserves latch (run_actions l).
Proof.
  induction l as [|a l IH]; simpl; [pres_tac|].
  apply preserves_bind; [eauto with pres| |intros _; exact IH].
  destruct a; simpl; auto with pres.
Qed.

Lemma run_actions_steady (l : list action) : preserves steady (run_actions l).
Proof.
  induction l as [|a l IH]; simpl; [pres_tac|].
  apply preserves_bind; [eauto with pres| |intros _; exact IH].
  destruct a; simpl; auto with pres.
Qed.

#[local] Hint Resolve run_actions_quiet run_actions_latch run_actions_steady : pres.

Lemma handler_body_quiet (h : Handler) (item : Item) :
  preserves quiet (handler_body h item).
Proof. unfold handler_body. pres_tac. Qed.

Lemma handler_body_latch (h : Handler) (item : Item) :
  preserves latch (handler_body h item).
Proof. unfold handler_body. pres_tac. Qed.

Lemma handler_body_steady (h : Handler) (item : Item) :
  preserves steady (handler_body h item).
Proof. unfold handler_body. pres_tac. Qed.

#[local] Hint Resolve handler_body_quiet handler_body_latch handler_body_steady : pres.

Lemma call_handler_latch (h : Handler) (seq : Z) (item : Item) :
  preserves latch (call_handler h seq item).
Proof. unfold call_handler. pres_tac. Qed.

#[local] Hint Resolve call_handler_latch : pres.

(** [chain lo l hi]: [l] is strictly increasing, above [lo], up to [hi]. *)
Fixpoint chain (lo : Z) (l : list Z) (hi : Z) : Prop :=
  match l with
  | [] => lo <= hi
  | x :: l' => lo < x /\ chain x l' hi
  end.

Lemma chain_le (lo hi : Z) (l : list Z) : chain lo l hi -> lo <= hi.
Proof.
  revert lo. induction l as [|x l IH]; intros lo; simpl; [done|].
  intros [Hx Hl]. apply IH in Hl. lia.
Qed.

Lemma chain_lower (lo lo' hi : Z) (l : list Z) :
  lo' <= lo -> chain lo l hi -> chain lo' l hi.
Proof. destruct l; simpl; [lia|]. intros ? [? ?]. split; [lia|done]. Qed.

Lemma chain_app (lo mid hi : Z) (l1 l2 : list Z) :
  chain lo l1 mid -> chain mid l2 hi -> chain lo (l1 ++ l2) hi.
Proof.
  revert lo. induction l1 as [|x l1 IH]; intros lo; simpl.
  - intros Hle Hc. by apply (chain_lower mid).
  - intros [Hx Hl] Hc. split; [done|]. by apply IH.
Qed.

Lemma chain_bounds (lo hi : Z) (l : list Z) :
  chain lo l hi -> Forall (fun x => lo < x <= hi) l.
Proof.
  revert lo. induction l as [|x l IH]; intros lo; simpl; [constructor|].
  intros [Hx Hl]. constructor.
  - apply chain_le in Hl. lia.
  - eapply Forall_impl; [apply IH, Hl|]. simpl. lia.
Qed.

Lemma chain_sorted (lo hi : Z) (l : list Z) :
  chain lo l hi -> StronglySorted Z.lt l.
Proof.
  revert lo. induction l as [|x l IH]; intros lo; simpl; [constructor|].
  intros [Hx Hl]. constructor; [by eapply IH|].
  eapply Forall_impl; [apply (chain_bounds _ _ _ Hl)|]. simpl. lia.
Qed.

(** [mono]: [remoteSeq] does not go down, and what the handler was given
    meanwhile lies strictly above the old [remoteSeq], in strictly increasing
    order, up to the new one. *)
Definition mono (c c' : Ctx) : Prop :=
  remoteSeq (self c) <= 65535 ->
  remoteSeq (self c') <= 65535
  /\ exists t, trace c' = trace c ++ t
               /\ chain (remoteSeq (self c)) (delivered t) (remoteSeq (self c')).

Lemma mono_refl (c : Ctx) : mono c c.
Proof. intros H. split; [done|]. exists []. rewrite app_nil_r. simpl. split; [done|lia]. Qed.

Lemma mono_trans (c1 c2 c3 : Ctx) : mono c1 c2 -> mono c2 c3 -> mono c1 c3.
Proof.
  intros H12 H23 H1.
  destruct (H12 H1) as (H2 & t & Ht & Hc).
  destruct (H23 H2) as (H3 & t' & Ht' & Hc').
  split; [done|]. exists (t ++ t').
  rewrite Ht', Ht, app_assoc, delivered_app. split; [done|].
  by apply (chain_app _ (remoteSeq (self c2))).
Qed.

Lemma quiet_mono (c c' : Ctx) : quiet c c' -> mono c c'.
Proof.
  intros (Hr & t & Ht & Hd) H. rewrite Hr. split; [done|].
  exists t. rewrite Hd. simpl. split; [done|lia].
Qed.

Lemma preserves_impl {A : Type} (R R' : Ctx -> Ctx -> Prop) (m : M Ctx A) :
  (forall c c', R c c' -> R' c c') -> preserves R m -> preserves R' m.
Proof. intros HR Hm c. apply HR, Hm. Qed.

(** The same for [receive], which also carries the serializer. *)
Definition preservesR {A : Type} (R : Ctx -> Ctx -> Prop) (m : M RCtx A) : Prop :=
  forall st, R (snd st) (snd (snd (m st))).

Lemma preservesR_ret {A : Type} (R : Ctx -> Ctx -> Prop) (a : A) :
  (forall c, R c c) -> preservesR R (ret a).
Proof. intros HR st. apply HR. Qed.

Lemma preservesR_throw {A : Type} (R : Ctx -> Ctx -> Prop) (e : error) :
  (forall c, R c c) -> preservesR R (@throw RCtx A e).
Proof. intros HR st. apply HR. Qed.

Lemma preservesR_get (R : Ctx -> Ctx -> Prop) :
  (forall c, R c c) -> preservesR R get.
Proof. intros HR st. apply HR. Qed.

Lemma preservesR_on_reader {A : Type} (R : Ctx -> Ctx -> Prop) (m : M Reader A) :
  (forall c, R c c) -> preservesR R (on_reader m).
Proof. intros HR st. unfold on_reader. destruct (m (fst st)). apply HR. Qed.

Lemma preservesR_on_ctx {A : Type} (R : Ctx -> Ctx -> Prop) (m : M Ctx A) :
  preserves R m -> preservesR R (on_ctx m).
Proof.
  intros Hm st. unfold on_ctx. specialize (Hm (snd st)).
  by destruct (m (snd st)).
Qed.

Lemma preservesR_bind {A B : Type} (R : Ctx -> Ctx -> Prop)
    (m : M RCtx A) (k : A -> M RCtx B) :
  (forall c1 c2 c3, R c1 c2 -> R c2 c3 -> R c1 c3) ->
  preservesR R m -> (forall a, preservesR R (k a)) -> preservesR R (bind m k).
Proof.
  intros HR Hm Hk st. unfold bind. specialize (Hm st).
  destruct (m st) as [[a|e] st']; simpl in *; [|done].
  eapply HR; [exact Hm|apply Hk].
Qed.

#[local] Hint Resolve mono_refl mono_trans : pres.

Ltac presR_tac :=
  repeat match goal with
         | |- forall _, preservesR _ _ => intros ?
         | |- preservesR _ (if ?b then _ else _) => destruct b
         | |- preservesR _ (bind _ _) => apply preservesR_bind; [eauto with pres| |]
         | |- preservesR _ (on_ctx _) => apply preservesR_on_ctx
         | |- preservesR _ (on_reader _) => apply preservesR_on_reader; eauto with pres
         | |- preservesR _ (ret _) => apply preservesR_ret; eauto with pres
         | |- preservesR _ get => apply preservesR_get; eauto with pres
         | |- preservesR _ (throw _) => apply preservesR_throw; eauto with pres
         | |- preserves _ _ => progress pres_tac
         end.

Lemma receive_loop_latch (fuel : nat) (h : Handler) :
  preservesR latch (receive_loop fuel h).
Proof.
  induction fuel as [|fuel IH]; simpl; presR_tac; exact IH.
Qed.

(** The handler's calls and the loop itself leave [attempts] alone. *)
Lemma receive_loop_steady (fuel : nat) (h : Handler) :
  preservesR steady (receive_loop fuel h).
Proof.
  induction fuel as [|fuel IH]; simpl; [presR_tac|].
  unfold call_handler. presR_tac; exact IH.
Qed.

Lemma receive_latch (h : Handler) : preservesR latch (receive h).
Proof.
  unfold receive. pose proof (receive_loop_latch) as Hloop. presR_tac; apply Hloop.
Qed.

Lemma uint16_read_ok (r r' : Reader) (v : Z) :
  uint16_read r = (Ok v, r') ->
  0 <= v <= 65535
  /\ rversion r' = rversion r
  /\ (length (rbytes r) = 2 + length (rbytes r'))%nat.
Proof.
  unfold uint16_read. destruct (rbytes r) as [|b0 [|b1 rest]]; try discriminate.
  intros [= <- <-]. split; [apply u16_decode_range|]. simpl. done.
Qed.

Lemma mono_sentinel (c : Ctx) : mono c (on_self (set_remoteSeq 65535) c).
Proof.
  intros H. simpl. split; [lia|]. exists []. rewrite app_nil_r. simpl. done.
Qed.

Lemma quiet_preserves_mono {A : Type} (m : M Ctx A) :
  preserves quiet m -> preserves mono m.
Proof. apply preserves_impl, quiet_mono. Qed.

Lemma receive_loop_mono (fuel : nat) (h : Handler) :
  preservesR mono (receive_loop fuel h).
Proof.
  induction fuel as [|fuel IH]; simpl; [presR_tac|].
  intros [r c]. unfold bind at 1, on_reader at 1. simpl.
  destruct (uint16_read r) as [[seq|e] r'] eqn:Hread; simpl; [|apply mono_refl].
  apply uint16_read_ok in Hread as (Hseq & _).
  destruct (Z.eqb_spec seq 0); [apply mono_refl|].
  destruct (Z.eqb_spec seq 65535) as [->|Hne].
  - assert (Hs : preservesR mono
        (on_ctx (modify (on_self (set_remoteSeq 65535))) ;;
         on_ctx close ;;
         on_ctx (modify (on_self (set_maxAttempts 1))))%js).
    { presR_tac.
      - apply preserves_modify, mono_sentinel.
      - apply quiet_preserves_mono, close_quiet.
      - apply quiet_preserves_mono. pres_tac. }
    apply (Hs (r', c)).
  - unfold bind at 1, get at 1. simpl.
    destruct (Z.gtb_spec seq (remoteSeq (self c))) as [Hgt|Hle]; [|apply (IH (r', c))].
    unfold bind at 1.
    assert (Hq : preservesR quiet
        (if negb (truthy (sendHandle (self c))) then on_ctx (send None) else ret tt)).
    { presR_tac. }
    specialize (Hq (r', c)). simpl in Hq.
    destruct ((if negb (truthy (sendHandle (self c))) then on_ctx (send None) else ret tt) (r', c))
      as [[[]|e] [r1 c1]]; simpl in *; [|by apply quiet_mono].
    unfold bind at 1, on_ctx at 1, modify at 1. simpl.
    unfold bind at 1, on_reader at 1. simpl.
    destruct Hq as (Hrs & t & Ht & Hd).
    destruct (oracle_read r1) as [[item|e] r2]; simpl.
    2:{ intros Hb. simpl. split; [lia|]. exists t. rewrite Hd. simpl. split; [done|lia]. }
    unfold bind at 1, on_ctx at 1, call_handler, bind at 1, log at 1, modify at 1.
    simpl.
    set (c3 := {| self := set_remoteSeq seq (self c1); env := env c1;
                  trace := trace c1 ++ [HandlerCalled seq item] |}).
    assert (H3 : mono c c3).
    { intros Hb. simpl. split; [lia|]. exists (t ++ [HandlerCalled seq item]).
      rewrite Ht, app_assoc, delivered_app, Hd. simpl. split; [done|lia]. }
    pose proof (handler_body_quiet h item c3) as H4.
    apply quiet_mono in H4.
    destruct (handler_body h item c3) as [[[]|e] c4]; simpl in *.
    + eapply mono_trans; [exact H3|]. eapply mono_trans; [exact H4|].
      apply (IH (r2, c4)).
    + eapply mono_trans; [exact H3|exact H4].
Qed.

Lemma receive_mono (h : Handler) : preservesR mono (receive h).
Proof.
  unfold receive. pose proof receive_loop_mono as Hloop. pose proof end_quiet.
  presR_tac; try apply Hloop; apply quiet_preserves_mono; pres_tac.
Qed.

Lemma fire_immediate_quiet : preserves quiet fire_immediate.
Proof. unfold fire_immediate, send_callback. pres_tac. Qed.

Lemma run_op_mono (o : op) (c : Ctx) : mono c (run_op o c).
Proof.
  destruct o; simpl.
  - apply quiet_mono, send_quiet.
  - apply quiet_mono, close_quiet.
  - apply quiet_mono, end_quiet.
  - apply (receive_mono handler (frame, c)).
  - apply quiet_mono, fire_immediate_quiet.
  - apply quiet_mono, fire_retry_quiet.
Qed.

Lemma run_op_latch (o : op) (c : Ctx) : latch c (run_op o c).
Proof.
  destruct o; simpl.
  - apply send_latch.
  - apply close_latch.
  - apply end_latch.
  - apply (receive_latch handler (frame, c)).
  - apply fire_immediate_latch.
  - apply fire_retry_latch.
Qed.

Lemma run_ops_app (ops1 ops2 : list op) (c : Ctx) :
  run_ops (ops1 ++ ops2) c = run_ops ops2 (run_ops ops1 c).
Proof. unfold run_ops. apply fold_left_app. Qed.

Lemma run_ops_mono (ops : list op) (c : Ctx) : mono c (run_ops ops c).
Proof.
  revert c. induction ops as [|o ops IH]; intros c; simpl; [apply mono_refl|].
  eapply mono_trans; [apply (run_op_mono o)|apply IH].
Qed.

Lemma run_ops_latch (ops : list op) (c : Ctx) : latch c (run_ops ops c).
Proof.
  revert c. induction ops as [|o ops IH]; intros c; simpl; [apply latch_refl|].
  eapply latch_trans; [apply (run_op_latch o)|apply IH].
Qed.

(** ** The loop of [receive] ends by itself *)

Lemma bind_ext {S A B : Type} (m : M S A) (k1 k2 : A -> M S B) (s : S) :
  (forall a s', m s = (Ok a, s') -> k1 a s' = k2 a s') ->
  bind m k1 s = bind m k2 s.
Proof.
  intros H. unfold bind. destruct (m s) as [[a|e] s']; [|done]. by apply H.
Qed.

Lemma on_ctx_fst {A : Type} (m : M Ctx A) (st st' : RCtx) (r : outcome A) :
  on_ctx m st = (r, st') -> fst st' = fst st.
Proof. unfold on_ctx. destruct (m (snd st)). by intros [= _ <-]. Qed.

Lemma oracle_read_length (r r' : Reader) (item : Item) :
  oracle_read r = (Ok item, r') -> (length (rbytes r') <= length (rbytes r))%nat.
Proof.
  unfold oracle_read.
  destruct (oracle_decode (rversion r) (rbytes r)) as [[it n]|]; [|discriminate].
  destruct (n <=? length (rbytes r))%nat; [|discriminate].
  intros [= _ <-]. simpl. rewrite length_drop. lia.
Qed.

Lemma receive_loop_fuel (fuel1 fuel2 : nat) (h : Handler) (r : Reader) (c : Ctx) :
  (length (rbytes r) < fuel1)%nat -> (length (rbytes r) < fuel2)%nat ->
  receive_loop fuel1 h (r, c) = receive_loop fuel2 h (r, c).
Proof.
  revert fuel2 r c. induction fuel1 as [|fuel1 IH]; intros fuel2 r c H1 H2; [lia|].
  destruct fuel2 as [|fuel2]; [lia|]. simpl.
  apply bind_ext. intros seq [r' c'] Hread.
  unfold on_reader in Hread. simpl in Hread.
  destruct (uint16_read r) as [res r1] eqn:Hr. injection Hread as -> -> <-.
  apply uint16_read_ok in Hr as (_ & _ & Hlen).
  destruct (seq =? 0); [done|]. destruct (seq =? 65535); [done|].
  apply bind_ext. intros st [r2 c2] [= <- <- <-]. simpl.
  destruct (seq >? remoteSeq (self c)); [|apply IH; lia].
  apply bind_ext. intros [] st1 Hs1.
  assert (fst st1 = r') as Hf1.
  { destruct (negb (truthy (sendHandle (self c)))).
    - by apply on_ctx_fst in Hs1.
    - by injection Hs1 as <-. }
  apply bind_ext. intros [] st2 Hs2. apply on_ctx_fst in Hs2.
  apply bind_ext. intros item st3 Hs3.
  unfold on_reader in Hs3.
  destruct (oracle_read (fst st2)) as [res r3] eqn:Hor. injection Hs3 as -> <-.
  apply oracle_read_length in Hor.
  apply bind_ext. intros [] [r4 c4] Hs4. apply on_ctx_fst in Hs4. simpl in Hs4.
  subst r4. apply IH; rewrite Hs2, Hf1 in Hor; lia.
Qed.

(** * The claims about one stream *)

(** A stream just constructed, in environment [e]. *)
Definition constructed (remote0 : EndPoint) (version0 : Z) (k : Cb) (e : Env) : Ctx :=
  {| self := new_UdpStream remote0 version0 k; env := e; trace := [] |}.

Lemma sorted_lt_NoDup (l : list Z) : StronglySorted Z.lt l -> NoDup l.
Proof.
  induction 1 as [|x l Hs IH Hx]; constructor; [|done].
  intros Hin. rewrite Forall_forall in Hx. apply Hx in Hin. lia.
Qed.

(** What [receive] does keep in order. Over any execution of a stream the
    sequence numbers handed to the item handler are strictly increasing,
    hence each is handed over once at most, [remoteSeq] never goes down, and
    what is handed over between two points of the execution lies strictly
    above the [remoteSeq] of the first and at or below that of the second. In
    one turn of the loop, a sequence number other than the two reserved ones
    is dropped without any change of state when it is at or below
    [remoteSeq], the loop going on at the very next byte, and otherwise
    becomes the new [remoteSeq] and is handed, with the item decoded after it,
    to the handler. *)
Theorem receive_order :
  (forall (remote0 : EndPoint) (version0 : Z) (k : Cb) (e : Env) (ops1 ops2 : list op),
      let c1 := run_ops ops1 (constructed remote0 version0 k e) in
      let c2 := run_ops ops2 c1 in
      remoteSeq (self c1) <= remoteSeq (self c2)
      /\ StronglySorted Z.lt (delivered (trace c2))
      /\ NoDup (delivered (trace c2))
      /\ exists t, trace c2 = trace c1 ++ t
                   /\ Forall (fun x => remoteSeq (self c1) < x <= remoteSeq (self c2))
                             (delivered t))
  /\ (forall (fuel : nat) (h : Handler) (r r' : Reader) (c : Ctx) (seq : Z),
         uint16_read r = (Ok seq, r') -> seq <> 0 -> seq <> 65535 ->
         (seq <= remoteSeq (self c) ->
          receive_loop (S fuel) h (r, c) = receive_loop fuel h (r', c))
         /\ (remoteSeq (self c) < seq ->
             forall (c1 : Ctx) (item : Item) (r'' : Reader),
               (if truthy (sendHandle (self c)) then (Ok tt, c) else send None c)
               = (Ok tt, c1) ->
               oracle_read r' = (Ok item, r'') ->
               receive_loop (S fuel) h (r, c)
               = (on_ctx (call_handler h seq item) ;; receive_loop fuel h)%js
                   (r'', on_self (set_remoteSeq seq) c1))).
Proof.
  split.
  - intros remote0 version0 k e ops1 ops2 c1 c2.
    destruct (run_ops_mono ops1 (constructed remote0 version0 k e)) as (Hb1 & t1 & Ht1 & Hc1);
      [simpl; lia|].
    fold c1 in Hb1, Ht1, Hc1. simpl in Ht1, Hc1.
    destruct (run_ops_mono ops2 c1 Hb1) as (Hb2 & t2 & Ht2 & Hc2).
    fold c2 in Hb2, Ht2, Hc2.
    assert (Hs : StronglySorted Z.lt (delivered (trace c2))).
    { rewrite Ht2, Ht1, delivered_app.
      eapply chain_sorted, chain_app; [exact Hc1|exact Hc2]. }
    split; [by eapply chain_le|]. split; [done|].
    split; [by apply sorted_lt_NoDup|].
    exists t2. split; [done|]. by apply chain_bounds.
  - intros fuel h r r' c seq Hread H0 Hff. split.
    + intros Hle. simpl. unfold bind at 1, on_reader at 1. simpl. rewrite Hread.
      destruct (Z.eqb_spec seq 0); [done|].
      destruct (Z.eqb_spec seq 65535); [done|].
      unfold bind at 1, get. simpl.
      destruct (Z.gtb_spec seq (remoteSeq (self c))); [lia|done].
    + intros Hgt c1 item r'' Hsend Hitem.
      simpl. unfold bind at 1, on_reader at 1. simpl. rewrite Hread.
      destruct (Z.eqb_spec seq 0); [done|].
      destruct (Z.eqb_spec seq 65535); [done|].
      unfold bind at 1, get. simpl.
      destruct (Z.gtb_spec seq (remoteSeq (self c))); [|lia].
      unfold bind at 1.
      assert ((if negb (truthy (sendHandle (self c)))
               then on_ctx (send None) else ret tt) (r', c) = (Ok tt, (r', c1))) as ->.
      { destruct (truthy (sendHandle (self c))); simpl.
        - by injection Hsend as <-.
        - unfold on_ctx. simpl. by rewrite Hsend. }
      unfold bind at 1, on_ctx at 1, modify. simpl.
      unfold bind at 1, on_reader at 1. simpl. by rewrite Hitem.
Qed.

(** [shift_acked] drops a prefix of entries at or below the ack and stops at
    the first entry above it. *)
Lemma shift_acked_spec (ack : Z) (l : list (Z * Item)) :
  exists acked,
    l = acked ++ shift_acked ack l
    /\ Forall (fun k => fst k <= ack) acked
    /\ match shift_acked ack l with
       | [] => True
       | k :: _ => ack < fst k
       end.
Proof.
  induction l as [|k l (acked & Hl & Ha & Hk)]; simpl.
  - exists []. by repeat split.
  - destruct (Z.gtb_spec (fst k) ack) as [Hgt|Hle].
    + exists []. by repeat split.
    + exists (k :: acked). split; [simpl; by f_equal|]. split; [|done].
      by constructor.
Qed.

(** C4. [receive] first reads a [u16] ack; the pending queue loses exactly
    its leading entries with [seq <= ack] (the queue is those entries followed
    by what stays, and what stays starts with an entry above the ack); when
    the ack is [0xFFFF] the call is [end()] and nothing else: no byte after
    the ack is read and the handler is not called; otherwise the payload loop
    runs on the rest of the frame. *)
Theorem receive_ack (h : Handler) (r r' : Reader) (c : Ctx) (ack : Z) :
  uint16_read r = (Ok ack, r') ->
  let kept := shift_acked ack (items (self c)) in
  let c' := on_self (set_attempts 0) (on_self (set_items kept) c) in
  (exists acked,
      items (self c) = acked ++ kept
      /\ Forall (fun k => fst k <= ack) acked
      /\ match kept with [] => True | k :: _ => ack < fst k end)
  /\ (ack = 65535 ->
      receive h (r, c) = (let (res, c'') := end_ c' in (res, (r', c'')))
      /\ closing (self (snd (snd (receive h (r, c))))) = true
      /\ delivered (trace (snd (snd (receive h (r, c))))) = delivered (trace c))
  /\ (ack <> 65535 ->
      receive h (r, c)
      = receive_loop (S (length (rbytes r'))) h
          (r', on_self (set_retryHandle HNull)
                 (on_self (set_retryInterval MIN_RETRY_INTERVAL) c'))).
Proof.
  intros Hread kept c'. split; [apply shift_acked_spec|].
  assert (Hstart : receive h (r, c)
                   = (if ack =? 65535 then on_ctx end_
                      else
                        (on_ctx (modify (on_self (set_retryInterval MIN_RETRY_INTERVAL))) ;;
                         let* st := get in
                         (if truthy (retryHandle (self (snd st)))
                          then on_ctx (modify (on_self (set_retryHandle HNull)))
                          else ret tt) ;;
                         let* st := get in
                         receive_loop (S (length (rbytes (fst st)))) h)%js) (r', c')).
  { unfold receive. unfold bind at 1, on_reader at 1. simpl. by rewrite Hread. }
  split.
  - intros ->. rewrite Hstart. simpl. unfold on_ctx. simpl.
    split; [done|].
    rewrite end_spec.
    destruct (onClose (self c')) as [k|]; simpl in *.
    + destruct (run_onClose k (env c)) as [res e']; simpl in *.
      split; [done|]. rewrite delivered_app. unfold delivered at 2. simpl.
      by rewrite app_nil_r.
    + done.
  - intros Hne. rewrite Hstart.
    destruct (Z.eqb_spec ack 65535); [done|].
    unfold bind at 1, on_ctx at 1, modify at 1. simpl.
    unfold bind at 1, get at 1. simpl.
    unfold bind at 1.
    destruct c as [s e t]. destruct s as [? ? ? ? ? ? []]; reflexivity.
Qed.

(** [send] and [close] in one step. *)
Lemma send_spec (item : option Item) (c : Ctx) :
  send item c
  = let c1 :=
      match item with
      | Some it => if negb (closing (self c)) then on_self (enqueue it) c else c
      | None => c
      end in
    if truthy (sendHandle (self c1)) then (Ok tt, c1)
    else if attempts (self c1) >=? maxAttempts (self c1) then end_ c1
    else (Ok tt, on_self (set_sendHandle HPending) c1).
Proof.
  unfold send, bind, get, modify, ret. simpl.
  destruct item as [it|]; [destruct (closing (self c))|]; simpl;
    (destruct (truthy _); [reflexivity|]); destruct (_ >=? _); reflexivity.
Qed.

Lemma close_spec (c : Ctx) :
  close c
  = if closing (self c) then (Ok tt, c)
    else send None (on_self (set_maxAttempts 5) (on_self (set_closing true) c)).
Proof.
  unfold close, bind, get, modify, ret. simpl.
  destruct (closing (self c)); reflexivity.
Qed.

Lemma end_fields (c : Ctx) :
  let s' := self (snd (end_ c)) in
  closing s' = true /\ onClose s' = None
  /\ remoteSeq s' = remoteSeq (self c) /\ maxAttempts s' = maxAttempts (self c)
  /\ items s' = items (self c) /\ localSeq s' = localSeq (self c).
Proof.
  rewrite end_spec. destruct (onClose (self c)) as [k|] eqn:Hk; simpl.
  - by destruct (run_onClose k (env c)).
  - by rewrite Hk.
Qed.

(** C5. A payload [seq] of [0xFFFF] sets [remoteSeq] to [0xFFFF] and marks
    the stream closing, ends the loop with the cursor just after it, so that
    nothing more of the frame is read or handed over, and sets [maxAttempts]
    to [1]; the last assignment is only skipped when [close()] raises, which
    needs [attempts] at [5] or more, whereas [receive] resets it to [0] before
    the loop ([receive_ack]) and no turn of the loop changes it. *)
Theorem receive_close_sentinel (fuel : nat) (h : Handler) (r r' : Reader) (c : Ctx) :
  uint16_read r = (Ok 65535, r') ->
  let res := receive_loop (S fuel) h (r, c) in
  let c' := snd (snd res) in
  fst (snd res) = r'
  /\ remoteSeq (self c') = 65535
  /\ closing (self c') = true
  /\ delivered (trace c') = delivered (trace c)
  /\ (fst res = Ok tt -> maxAttempts (self c') = 1)
  /\ (attempts (self c) < 5 -> fst res = Ok tt)
  /\ (forall (turns : nat) (h0 : Handler) (st : RCtx),
         attempts (self (snd (snd (receive_loop turns h0 st))))
         = attempts (self (snd st))).
Proof.
  intros Hread res c'.
  cut (fst (snd res) = r'
       /\ remoteSeq (self c') = 65535
       /\ closing (self c') = true
       /\ delivered (trace c') = delivered (trace c)
       /\ (fst res = Ok tt -> maxAttempts (self c') = 1)
       /\ (attempts (self c) < 5 -> fst res = Ok tt)).
  { intros (H1 & H2 & H3 & H4 & H5 & H6). repeat (split; [assumption|]).
    intros turns h0 st. apply (receive_loop_steady turns h0 st). }
  set (c0 := on_self (set_remoteSeq 65535) c).
  assert (Heq : res
                = match close c0 with
                  | (Ok _, c1) => (Ok tt, (r', on_self (set_maxAttempts 1) c1))
                  | (Threw err, c1) => (Threw err, (r', c1))
                  end).
  { subst res. simpl. unfold bind at 1, on_reader at 1. simpl. rewrite Hread. simpl.
    unfold bind, on_ctx, modify. simpl. fold c0.
    by destruct (close c0) as [[[]|err] c1]. }
  subst c'. rewrite Heq. clear Heq res.
  pose proof (close_quiet c0) as (Hrs & t & Ht & Hd).
  assert (Hcl : closing (self (snd (close c0))) = true
                /\ (attempts (self c) < 5 -> fst (close c0) = Ok tt)).
  { rewrite close_spec. destruct (closing (self c0)) eqn:Hc0; [done|].
    rewrite send_spec. simpl.
    destruct (truthy (sendHandle (self c))); simpl; [done|].
    destruct (Z.geb_spec (attempts (self c)) 5) as [Hge|Hlt]; simpl; [|done].
    split; [|lia].
    apply (end_fields (on_self (set_maxAttempts 5) (on_self (set_closing true) c0))). }
  destruct Hcl as [Hcl Hok].
  destruct (close c0) as [[[]|err] c1]; simpl in *;
    rewrite Ht, delivered_app, Hd, app_nil_r; repeat split; done.
Qed.

(** C6 (as the code has it). On a closing stream [send(item)] neither
    appends the item nor increments [localSeq], and goes on as [send()] does:
    nothing happens when a send is already scheduled; otherwise the stream is
    ended ([end()]) when [attempts] has reached [maxAttempts], and a send is
    scheduled when it has not. *)
Theorem send_while_closing (item : Item) (c : Ctx) :
  closing (self c) = true ->
  send (Some item) c = send None c
  /\ items (self (snd (send (Some item) c))) = items (self c)
  /\ localSeq (self (snd (send (Some item) c))) = localSeq (self c)
  /\ (truthy (sendHandle (self c)) = true -> send (Some item) c = (Ok tt, c))
  /\ (truthy (sendHandle (self c)) = false ->
      maxAttempts (self c) <= attempts (self c) ->
      send (Some item) c = end_ c)
  /\ (truthy (sendHandle (self c)) = false ->
      attempts (self c) < maxAttempts (self c) ->
      send (Some item) c = (Ok tt, on_self (set_sendHandle HPending) c)).
Proof.
  intros Hclosing. rewrite !send_spec, Hclosing. simpl.
  destruct (truthy (sendHandle (self c))) eqn:Hh; simpl.
  { repeat split; try done. }
  destruct (Z.geb_spec (attempts (self c)) (maxAttempts (self c))) as [Hge|Hlt].
  - pose proof (end_fields c) as (_ & _ & _ & _ & Hi & Hl).
    repeat split; try done. intros _ Hlt. lia.
  - repeat split; try done. intros _ Hge. lia.
Qed.

(** What makes a call reach [end()]: [end()] itself, a frame whose ack is
    [0xFFFF], and [send] (called directly, by the retry timer or by [close])
    finding no send scheduled and [attempts] at [maxAttempts]. *)
Definition ends (o : op) (c : Ctx) : Prop :=
  match o with
  | OpEnd => True
  | OpReceive frame _ => fst (uint16_read frame) = Ok 65535
  | OpSend _ =>
      truthy (sendHandle (self c)) = false
      /\ maxAttempts (self c) <= attempts (self c)
  | OpRetry =>
      retryHandle (self c) = HPending
      /\ truthy (sendHandle (self c)) = false
      /\ maxAttempts (self c) <= attempts (self c)
  | OpClose =>
      closing (self c) = false
      /\ truthy (sendHandle (self c)) = false
      /\ 5 <= attempts (self c)
  | OpImmediate => False
  end.

Lemma receive_unfold (h : Handler) (r r' : Reader) (c : Ctx) (ack : Z) :
  uint16_read r = (Ok ack, r') ->
  receive h (r, c)
  = (if ack =? 65535 then on_ctx end_
     else
       (on_ctx (modify (on_self (set_retryInterval MIN_RETRY_INTERVAL))) ;;
        let* st := get in
        (if truthy (retryHandle (self (snd st)))
         then on_ctx (modify (on_self (set_retryHandle HNull)))
         else ret tt) ;;
        let* st := get in
        receive_loop (S (length (rbytes (fst st)))) h)%js)
      (r', on_self (set_attempts 0)
             (on_self (set_items (shift_acked ack (items (self c)))) c)).
Proof.
  intros Hread. unfold receive. unfold bind at 1, on_reader at 1. simpl.
  by rewrite Hread.
Qed.

Lemma ends_consumes (o : op) (c : Ctx) :
  ends o c -> onClose (self (run_op o c)) = None.
Proof.
  destruct o as [item| | |frame h| |]; simpl.
  - intros [Hh Hge]. rewrite send_spec. cbv zeta.
    set (c1 := match item with Some _ => _ | None => _ end).
    assert (sendHandle (self c1) = sendHandle (self c)
            /\ attempts (self c1) = attempts (self c)
            /\ maxAttempts (self c1) = maxAttempts (self c)) as (-> & -> & ->).
    { subst c1. destruct item; [destruct (closing (self c))|]; done. }
    rewrite Hh.
    destruct (Z.geb_spec (attempts (self c)) (maxAttempts (self c))); [|lia].
    apply end_fields.
  - intros (Hc & Hh & Hge). rewrite close_spec, Hc, send_spec. simpl. rewrite Hh.
    destruct (Z.geb_spec (attempts (self c)) 5); [|lia].
    apply end_fields.
  - intros _. apply end_fields.
  - intros Hack. destruct (uint16_read frame) as [res r'] eqn:Hread.
    simpl in Hack. subst res.
    rewrite (receive_unfold h frame r' c 65535 Hread). simpl.
    unfold on_ctx. simpl.
    match goal with |- context [end_ ?x] =>
      pose proof (end_fields x) as (_ & Hn & _); destruct (end_ x) end.
    done.
  - done.
  - intros (Hr & Hh & Hge). unfold fire_retry, bind at 1, get. simpl. rewrite Hr.
    unfold bind at 1, modify. simpl. rewrite send_spec. simpl. rewrite Hh.
    destruct (Z.geb_spec (attempts (self c)) (maxAttempts (self c))); [|lia].
    apply end_fields.
Qed.

(** X20. What the code keeps of the life cycle: over any execution of a
    stream [onClose] is called once at most, and it has been called exactly
    once as soon as one call has reached [end()], whatever is called before
    or after. *)
Theorem on_close_at_most_once (remote0 : EndPoint) (version0 : Z) (k : Cb) (e : Env) :
  (forall ops : list op,
      (closes (trace (run_ops ops (constructed remote0 version0 k e))) <= 1)%nat)
  /\ (forall (pre post : list op) (o : op),
         ends o (run_ops pre (constructed remote0 version0 k e)) ->
         closes (trace (run_ops (pre ++ o :: post) (constructed remote0 version0 k e)))
         = 1%nat).
Proof.
  assert (Hmost : forall ops : list op,
             (closes (trace (run_ops ops (constructed remote0 version0 k e))) <= 1)%nat).
  { intros ops. pose proof (run_ops_latch ops (constructed remote0 version0 k e)) as Hl.
    unfold latch, owed in Hl. simpl in Hl. lia. }
  split; [exact Hmost|].
  intros pre post o Hends.
  specialize (Hmost (pre ++ o :: post)).
  rewrite run_ops_app in *. simpl in *.
  set (c1 := run_ops pre (constructed remote0 version0 k e)) in *.
  pose proof (run_ops_latch pre (constructed remote0 version0 k e)) as Hl1.
  pose proof (run_op_latch o c1) as Hl2.
  fold c1 in Hl1. unfold latch, owed in Hl1, Hl2. simpl in Hl1.
  rewrite (ends_consumes o c1 Hends) in Hl2.
  pose proof (run_ops_mono pre (constructed remote0 version0 k e)) as Hm1.
  destruct Hm1 as (Hb1 & _); [simpl; lia|]. fold c1 in Hb1.
  destruct (run_op_mono o c1 Hb1) as (Hb2 & _).
  destruct (run_ops_mono post (run_op o c1) Hb2) as (_ & t & Ht & _).
  rewrite Ht, closes_app in *. lia.
Qed.

(** * More about one stream *)

(** ** What every state of an execution satisfies *)

(** The pending queue is strictly increasing, above 0 and up to [localSeq];
    the back-off is one of 500, 1000, ..., 3000; [attempts] is within 0..10,
    and below 10 while a send is scheduled; [maxAttempts] is 10, 5 or 1;
    [remoteSeq] is a 16-bit value; a stream without [onClose] is closing. *)
Record wf (s : UdpStream) : Prop := {
  wf_items : chain 0 (map fst (items s)) (localSeq s);
  wf_interval : exists n, retryInterval s = 500 * n /\ 1 <= n <= 6;
  wf_attempts : 0 <= attempts s <= 10;
  wf_pending : sendHandle s = HPending -> attempts s < 10;
  wf_max : maxAttempts s = 10 \/ maxAttempts s = 5 \/ maxAttempts s = 1;
  wf_remoteSeq : 0 <= remoteSeq s <= 65535;
  wf_closed : onClose s = None -> closing s = true
}.

Definition keeps (P : UdpStream -> Prop) (c c' : Ctx) : Prop :=
  P (self c) -> P (self c').

Lemma keeps_refl (P : UdpStream -> Prop) (c : Ctx) : keeps P c c.
Proof. by intros H. Qed.

Lemma keeps_trans (P : UdpStream -> Prop) (c1 c2 c3 : Ctx) :
  keeps P c1 c2 -> keeps P c2 c3 -> keeps P c1 c3.
Proof. unfold keeps. auto. Qed.

Lemma keeps_on_env (P : UdpStream -> Prop) (f : Env -> outcome unit * Env) :
  preserves (keeps P) (on_env f).
Proof. intros c. unfold on_env, keeps. by destruct (f (env c)). Qed.

Lemma keeps_log (P : UdpStream -> Prop) (ev : event) : preserves (keeps P) (log ev).
Proof. by intros c H. Qed.

Lemma keeps_on_self (P : UdpStream -> Prop) (f : UdpStream -> UdpStream) :
  (forall s, P s -> P (f s)) -> preserves (keeps P) (modify (on_self f)).
Proof. intros Hf c H. by apply Hf. Qed.

#[local] Hint Resolve keeps_refl keeps_trans keeps_on_env keeps_log : pres.

Ltac wf_fields :=
  let H := fresh in
  intros ? H; destruct H; constructor; simpl in *; try done; try lia; eauto.

Lemma chain_suffix (lo hi : Z) (l1 l2 : list Z) :
  chain lo (l1 ++ l2) hi -> chain lo l2 hi.
Proof.
  revert lo. induction l1 as [|x l1 IH]; intros lo; simpl; [done|].
  intros [Hx Hl]. apply (chain_lower x); [lia|]. by apply IH.
Qed.

Lemma wf_enqueue (it : Item) (s : UdpStream) : wf s -> wf (enqueue it s).
Proof.
  intros [Hi ? ? ? ? ? ?]; constructor; simpl in *; try done.
  rewrite map_app. simpl. eapply chain_app; [exact Hi|]. simpl. lia.
Qed.

Lemma wf_ended (s : UdpStream) : wf s -> wf (ended s).
Proof. revert s. unfold ended. wf_fields. Qed.

Lemma end_wf : preserves (keeps wf) end_.
Proof.
  intros c Hwf. rewrite end_spec.
  destruct (onClose (self c)) as [k|]; simpl.
  - destruct (run_onClose k (env c)). simpl.
    destruct Hwf as [? ? ? ? ? ? ?]. constructor; simpl in *; try done; lia.
  - by apply wf_ended.
Qed.

#[local] Hint Resolve end_wf : pres.

Lemma send_wf (item : option Item) : preserves (keeps wf) (send item).
Proof.
  intros c Hwf. rewrite send_spec. cbv zeta.
  set (c1 := match item with Some _ => _ | None => _ end).
  assert (H1 : wf (self c1)).
  { subst c1. destruct item as [it|]; [|done].
    destruct (closing (self c)); simpl; [done|]. by apply wf_enqueue. }
  clearbody c1. clear Hwf.
  destruct (truthy (sendHandle (self c1))); [done|].
  destruct (Z.geb_spec (attempts (self c1)) (maxAttempts (self c1))) as [Hge|Hlt].
  - by apply end_wf.
  - simpl. destruct H1 as [? ? ? ? Hmax ? ?]. constructor; simpl; try done. lia.
Qed.

#[local] Hint Resolve send_wf : pres.

Lemma close_wf : preserves (keeps wf) close.
Proof.
  intros c Hwf. rewrite close_spec. destruct (closing (self c)); [done|].
  apply send_wf. simpl. revert Hwf. generalize (self c). wf_fields.
Qed.

#[local] Hint Resolve close_wf : pres.

Lemma fire_retry_wf : preserves (keeps wf) fire_retry.
Proof.
  intros c Hwf. unfold fire_retry, bind at 1, get.
  destruct (retryHandle (self c)); try done.
  unfold bind, modify. apply send_wf. simpl.
  revert Hwf. generalize (self c). wf_fields.
Qed.

(** The callback of [setImmediate], when the handle is pending, in one step. *)
Definition after_send (s : UdpStream) : UdpStream :=
  let s1 := set_sendHandle HNull s in
  if negb (length (items s1) =? 0)%nat || closing s1
  then
    let s2 := set_retryHandle HPending s1 in
    if retryInterval s2 <? MAX_RETRY_INTERVAL
    then set_retryInterval (retryInterval s2 + 500) s2
    else s2
  else set_attempts 0 s1.

Lemma fire_immediate_spec (c : Ctx) :
  fire_immediate c
  = match sendHandle (self c) with
    | HPending =>
        let s1 := set_attempts (attempts (self c) + 1)
                    (set_sendHandle HStale (self c)) in
        match sendStream s1 (env c) with
        | (Ok _, e') => (Ok tt, {| self := after_send s1; env := e'; trace := trace c |})
        | (Threw err, e') => (Threw err, {| self := s1; env := e'; trace := trace c |})
        end
    | _ => (Ok tt, c)
    end.
Proof.
  unfold fire_immediate, bind at 1, get.
  destruct (sendHandle (self c)) eqn:Hh; try reflexivity.
  unfold send_callback, bind, modify, get, on_env, ret, after_send. simpl.
  destruct (sendStream _ (env c)) as [[[]|err] e']; simpl; [|reflexivity].
  destruct (negb (length (items (self c)) =? 0)%nat || closing (self c)); simpl;
    [|reflexivity].
  destruct (retryInterval (self c) <? MAX_RETRY_INTERVAL); reflexivity.
Qed.

Lemma fire_immediate_wf : preserves (keeps wf) fire_immediate.
Proof.
  intros c Hwf. rewrite fire_immediate_spec.
  destruct (sendHandle (self c)) eqn:Hh; try done.
  cbv zeta.
  assert (H1 : wf (set_attempts (attempts (self c) + 1)
                     (set_sendHandle HStale (self c)))).
  { destruct Hwf as [? ? ? Hp ? ? ?]. specialize (Hp Hh).
    constructor; simpl; try done. lia. }
  destruct (sendStream _ (env c)) as [[[]|err] e']; simpl; [|done].
  revert H1. generalize (set_attempts (attempts (self c) + 1)
                           (set_sendHandle HStale (self c))).
  intros s [? (n & Hn & Hrange) ? ? ? ? ?]. unfold after_send. simpl.
  destruct (negb (length (items s) =? 0)%nat || closing s); simpl.
  - unfold MAX_RETRY_INTERVAL.
    destruct (Z.ltb_spec (retryInterval s) 3000); constructor; simpl; try done;
      try lia.
    + exists (n + 1). lia.
    + by exists n.
  - constructor; simpl; try done; try lia. by exists n.
Qed.

Lemma run_api_wf (a : api) : preserves (keeps wf) (run_api a).
Proof. destruct a; simpl; auto with pres. Qed.

#[local] Hint Resolve run_api_wf : pres.

Lemma run_actions_wf (l : list action) : preserves (keeps wf) (run_actions l).
Proof.
  induction l as [|a l IH]; simpl; [pres_tac|].
  apply preserves_bind; [eauto with pres| |intros _; exact IH].
  destruct a; simpl; auto with pres.
Qed.

#[local] Hint Resolve run_actions_wf : pres.

Lemma call_handler_wf (h : Handler) (seq : Z) (item : Item) :
  preserves (keeps wf) (call_handler h seq item).
Proof. unfold call_handler, handler_body. pres_tac. Qed.

#[local] Hint Resolve call_handler_wf : pres.

Lemma wf_set_remoteSeq (v : Z) :
  0 <= v <= 65535 -> preserves (keeps wf) (modify (on_self (set_remoteSeq v))).
Proof. intros Hv. apply keeps_on_self. wf_fields. Qed.

Lemma wf_set_maxAttempts_1 :
  preserves (keeps wf) (modify (on_self (set_maxAttempts 1))).
Proof. apply keeps_on_self. wf_fields. Qed.

Lemma receive_loop_wf (fuel : nat) (h : Handler) :
  preservesR (keeps wf) (receive_loop fuel h).
Proof.
  induction fuel as [|fuel IH]; simpl; [presR_tac|].
  intros [r c]. unfold bind at 1, on_reader at 1. simpl.
  destruct (uint16_read r) as [[seq|e] r'] eqn:Hread; simpl; [|apply keeps_refl].
  apply uint16_read_ok in Hread as (Hseq & _).
  pose proof (wf_set_remoteSeq seq Hseq) as Hset.
  pose proof wf_set_maxAttempts_1 as Hmax.
  match goal with |- keeps wf c (snd (snd (?m (r', c)))) =>
    assert (Hm : preservesR (keeps wf) m) by (presR_tac; try exact IH; assumption);
    apply (Hm (r', c))
  end.
Qed.

Lemma receive_wf (h : Handler) : preservesR (keeps wf) (receive h).
Proof.
  pose proof receive_loop_wf as Hloop.
  assert (Hshift : forall ack, preserves (keeps wf)
            (modify (on_self (fun s => set_items (shift_acked ack (items s)) s)))).
  { intros ack. apply keeps_on_self. intros s [Hi ? ? ? ? ? ?].
    constructor; simpl; try done.
    destruct (shift_acked_spec ack (items s)) as (acked & Heq & _).
    rewrite Heq, map_app in Hi. by apply chain_suffix in Hi. }
  assert (H0 : preserves (keeps wf) (modify (on_self (set_attempts 0)))).
  { apply keeps_on_self. wf_fields. }
  assert (Hint : preserves (keeps wf)
            (modify (on_self (set_retryInterval MIN_RETRY_INTERVAL)))).
  { apply keeps_on_self. intros s [? ? ? ? ? ? ?]. constructor; simpl; try done.
    exists 1. unfold MIN_RETRY_INTERVAL. lia. }
  assert (Hclear : preserves (keeps wf) (modify (on_self (set_retryHandle HNull)))).
  { apply keeps_on_self. wf_fields. }
  unfold receive. presR_tac; try apply Hloop; try apply Hshift; assumption.
Qed.

Lemma run_op_wf (o : op) (c : Ctx) : wf (self c) -> wf (self (run_op o c)).
Proof.
  destruct o; simpl.
  - apply send_wf.
  - apply close_wf.
  - apply end_wf.
  - apply (receive_wf handler (frame, c)).
  - apply fire_immediate_wf.
  - apply fire_retry_wf.
Qed.

Lemma run_ops_wf (ops : list op) (c : Ctx) : wf (self c) -> wf (self (run_ops ops c)).
Proof.
  revert c. induction ops as [|o ops IH]; intros c Hwf; simpl; [done|].
  by apply IH, run_op_wf.
Qed.

Lemma constructed_wf (remote0 : EndPoint) (version0 : Z) (k : Cb) (e : Env) :
  wf (self (constructed remote0 version0 k e)).
Proof.
  constructor; simpl; try done; try lia.
  exists 1. unfold MIN_RETRY_INTERVAL. lia.
Qed.

(** X1. Over any execution of a stream the pending queue is strictly
    increasing in its sequence numbers, and every one of them lies in
    1..[localSeq]. *)
Theorem pending_queue_ordered (remote0 : EndPoint) (version0 : Z) (k : Cb) (e : Env)
    (ops : list op) :
  let s := self (run_ops ops (constructed remote0 version0 k e)) in
  StronglySorted Z.lt (map fst (items s))
  /\ Forall (fun x => 0 < x <= localSeq s) (map fst (items s)).
Proof.
  intros s.
  destruct (run_ops_wf ops _ (constructed_wf remote0 version0 k e)) as [Hi _ _ _ _ _ _].
  fold s in Hi. split; [by eapply chain_sorted|by apply chain_bounds].
Qed.

(** X2. Over any execution of a stream the retry interval is one of 500,
    1000, ..., 3000: it never leaves
    [MIN_RETRY_INTERVAL]..[MAX_RETRY_INTERVAL]. *)
Theorem retry_interval_bounds (remote0 : EndPoint) (version0 : Z) (k : Cb) (e : Env)
    (ops : list op) :
  let s := self (run_ops ops (constructed remote0 version0 k e)) in
  MIN_RETRY_INTERVAL <= retryInterval s <= MAX_RETRY_INTERVAL
  /\ retryInterval s mod 500 = 0.
Proof.
  intros s.
  destruct (run_ops_wf ops _ (constructed_wf remote0 version0 k e))
    as [_ (n & Hn & Hrange) _ _ _ _ _].
  fold s in Hn. rewrite Hn. unfold MIN_RETRY_INTERVAL, MAX_RETRY_INTERVAL.
  split; [lia|]. rewrite Z.mul_comm. apply Z_mod_mult.
Qed.

(** X3. Over any execution of a stream [attempts] stays within 0..10 and is
    below 10 whenever a send is scheduled, [maxAttempts] is 10, 5 or 1,
    [remoteSeq] is a 16-bit value, and a stream whose [onClose] has been
    taken is closing. *)
Theorem attempts_bounded (remote0 : EndPoint) (version0 : Z) (k : Cb) (e : Env)
    (ops : list op) :
  let s := self (run_ops ops (constructed remote0 version0 k e)) in
  0 <= attempts s <= 10
  /\ (if sendHandle s is HPending then attempts s < 10 else True)
  /\ (maxAttempts s = 10 \/ maxAttempts s = 5 \/ maxAttempts s = 1)
  /\ in_u16 (remoteSeq s) = true
  /\ (if onClose s is None then closing s = true else True).
Proof.
  intros s.
  destruct (run_ops_wf ops _ (constructed_wf remote0 version0 k e))
    as [_ _ Ha Hp Hm Hr Hc].
  fold s in Ha, Hp, Hm, Hr, Hc.
  split; [done|]. split; [by destruct (sendHandle s); auto|].
  split; [done|]. split; [unfold in_u16; lia|].
  by destruct (onClose s); auto.
Qed.

(** ** Once closing, always closing *)

(** [drains]: from a closing stream on, the stream stays closing, accepts no
    item, and its queue only loses entries at the front. *)
Definition drains (c c' : Ctx) : Prop :=
  closing (self c) = true ->
  closing (self c') = true
  /\ localSeq (self c') = localSeq (self c)
  /\ exists acked, items (self c) = acked ++ items (self c').

Lemma drains_refl (c : Ctx) : drains c c.
Proof. intros H. split; [done|]. split; [done|]. by exists []. Qed.

Lemma drains_trans (c1 c2 c3 : Ctx) : drains c1 c2 -> drains c2 c3 -> drains c1 c3.
Proof.
  intros H12 H23 H1. destruct (H12 H1) as (H2 & Hl & a & Ha).
  destruct (H23 H2) as (H3 & Hl' & a' & Ha').
  split; [done|]. split; [congruence|]. exists (a ++ a').
  by rewrite Ha, Ha', app_assoc.
Qed.

Lemma drains_on_self (f : UdpStream -> UdpStream) :
  (forall s, closing s = true ->
             closing (f s) = true /\ localSeq (f s) = localSeq s
             /\ items (f s) = items s) ->
  preserves drains (modify (on_self f)).
Proof.
  intros Hf c H. simpl. destruct (Hf _ H) as (? & ? & Hi).
  split; [done|]. split; [done|]. exists []. by rewrite Hi.
Qed.

Lemma drains_on_env (f : Env -> outcome unit * Env) : preserves drains (on_env f).
Proof.
  intros c. unfold on_env. destruct (f (env c)). intros H. simpl.
  split; [done|]. split; [done|]. by exists [].
Qed.

Lemma drains_log (ev : event) : preserves drains (log ev).
Proof. intros c H. simpl. split; [done|]. split; [done|]. by exists []. Qed.

#[local] Hint Resolve drains_refl drains_trans drains_on_env drains_log : pres.
#[local] Hint Extern 1 (preserves drains (modify (on_self _))) =>
  apply drains_on_self; intros ? ?; simpl; auto : pres.

Lemma end_drains : preserves drains end_.
Proof. unfold end_. pres_tac. Qed.

#[local] Hint Resolve end_drains : pres.

Lemma send_drains (item : option Item) : preserves drains (send item).
Proof.
  intros c Hc. rewrite send_spec. cbv zeta.
  assert (Heq : match item with
                | Some it => if negb (closing (self c)) then on_self (enqueue it) c else c
                | None => c
                end = c) by (destruct item; [rewrite Hc|]; done).
  rewrite Heq.
  destruct (truthy (sendHandle (self c))); [by apply drains_refl|].
  destruct (attempts (self c) >=? maxAttempts (self c)); [by apply end_drains|].
  simpl. split; [done|]. split; [done|]. by exists [].
Qed.

#[local] Hint Resolve send_drains : pres.

Lemma close_drains : preserves drains close.
Proof. intros c Hc. rewrite close_spec, Hc. by apply drains_refl. Qed.

#[local] Hint Resolve close_drains : pres.

Lemma fire_retry_drains : preserves drains fire_retry.
Proof. unfold fire_retry. pres_tac. Qed.

Lemma fire_immediate_drains : preserves drains fire_immediate.
Proof.
  intros c Hc. rewrite fire_immediate_spec.
  destruct (sendHandle (self c)); try by apply drains_refl.
  cbv zeta. destruct (sendStream _ (env c)) as [[[]|err] e']; simpl.
  - unfold after_send. simpl. rewrite Hc, orb_true_r.
    destruct (retryInterval (self c) <? MAX_RETRY_INTERVAL); simpl;
      (split; [done|]; split; [done|]; by exists []).
  - split; [done|]. split; [done|]. by exists [].
Qed.

Lemma run_api_drains (a : api) : preserves drains (run_api a).
Proof. destruct a; simpl; auto with pres. Qed.

#[local] Hint Resolve run_api_drains : pres.

Lemma run_actions_drains (l : list action) : preserves drains (run_actions l).
Proof.
  induction l as [|a l IH]; simpl; [pres_tac|].
  apply preserves_bind; [eauto with pres| |intros _; exact IH].
  destruct a; simpl; auto with pres.
Qed.

#[local] Hint Resolve run_actions_drains : pres.

Lemma call_handler_drains (h : Handler) (seq : Z) (item : Item) :
  preserves drains (call_handler h seq item).
Proof. unfold call_handler, handler_body. pres_tac. Qed.

#[local] Hint Resolve call_handler_drains : pres.

Lemma receive_loop_drains (fuel : nat) (h : Handler) :
  preservesR drains (receive_loop fuel h).
Proof. induction fuel as [|fuel IH]; simpl; presR_tac; exact IH. Qed.

Lemma receive_drains (h : Handler) : preservesR drains (receive h).
Proof.
  pose proof receive_loop_drains as Hloop.
  assert (Hshift : forall ack, preserves drains
            (modify (on_self (fun s => set_items (shift_acked ack (items s)) s)))).
  { intros ack c H. simpl. split; [done|]. split; [done|].
    destruct (shift_acked_spec ack (items (self c))) as (acked & Heq & _).
    by exists acked. }
  unfold receive. presR_tac; try apply Hloop; apply Hshift.
Qed.

Lemma run_ops_drains (ops : list op) (c : Ctx) : drains c (run_ops ops c).
Proof.
  revert c. induction ops as [|o ops IH]; intros c; simpl; [apply drains_refl|].
  eapply drains_trans; [|apply IH].
  destruct o; simpl.
  - apply send_drains.
  - apply close_drains.
  - apply end_drains.
  - apply (receive_drains handler (frame, c)).
  - apply fire_immediate_drains.
  - apply fire_retry_drains.
Qed.

(** X4. Closing is final: from a closing stream on, whatever is called, the
    stream stays closing, [localSeq] stays, no item enters the queue, and the
    queue only loses entries at its front. *)
Theorem closing_only_drains (ops : list op) (c : Ctx) :
  closing (self c) = true ->
  let c' := run_ops ops c in
  closing (self c') = true
  /\ localSeq (self c') = localSeq (self c)
  /\ exists acked, items (self c) = acked ++ items (self c').
Proof. intros H. by apply run_ops_drains. Qed.

(** ** A send that raises *)

Lemma fire_retry_spec (c : Ctx) :
  fire_retry c
  = match retryHandle (self c) with
    | HPending => send None (on_self (set_retryHandle HStale) c)
    | _ => (Ok tt, c)
    end.
Proof.
  unfold fire_retry, bind at 1, get. by destruct (retryHandle (self c)).
Qed.

(** The calls made on a stream other than [end()] and [receive]. *)
Definition local_call (o : op) : bool :=
  match o with
  | OpSend _ | OpClose | OpImmediate | OpRetry => true
  | OpEnd | OpReceive _ _ => false
  end.

Lemma stale_stays (o : op) (c : Ctx) :
  sendHandle (self c) = HStale -> local_call o = true ->
  sendHandle (self (run_op o c)) = HStale
  /\ env (run_op o c) = env c
  /\ trace (run_op o c) = trace c
  /\ attempts (self (run_op o c)) = attempts (self c).
Proof.
  intros Hh Ho. destruct o; try discriminate; simpl.
  - rewrite send_spec. cbv zeta.
    destruct item as [it|]; [destruct (closing (self c))|]; simpl; rewrite Hh; done.
  - rewrite close_spec. destruct (closing (self c)); [done|].
    rewrite send_spec. simpl. rewrite Hh. done.
  - rewrite fire_immediate_spec, Hh. done.
  - rewrite fire_retry_spec. destruct (retryHandle (self c)); try done.
    rewrite send_spec. simpl. rewrite Hh. done.
Qed.

(** X5. When [sendStream] raises inside the callback of [setImmediate], the
    callback stops before it clears [sendHandle]. From then on [send],
    [close], the retry timer and the event loop find a send scheduled that
    will never run: whatever they are called with, nothing is sent, [onClose]
    is not called, and [attempts] stays. *)
Theorem failed_send_wedges (c : Ctx) (err : error) (e' : Env) (ops : list op) :
  sendHandle (self c) = HPending ->
  sendStream (set_attempts (attempts (self c) + 1) (set_sendHandle HStale (self c)))
             (env c) = (Threw err, e') ->
  forallb local_call ops = true ->
  let c' := run_ops (OpImmediate :: ops) c in
  sendHandle (self c') = HStale
  /\ env c' = e'
  /\ trace c' = trace c
  /\ attempts (self c') = attempts (self c) + 1.
Proof.
  intros Hp Hthrew Hops. simpl.
  rewrite fire_immediate_spec, Hp. cbv zeta. rewrite Hthrew. simpl.
  set (c1 := {| self := _; env := e'; trace := trace c |}).
  assert (H1 : sendHandle (self c1) = HStale /\ env c1 = e' /\ trace c1 = trace c
               /\ attempts (self c1) = attempts (self c) + 1) by done.
  clearbody c1. revert c1 H1.
  induction ops as [|o ops IH]; intros c1 H1; simpl; [done|].
  simpl in Hops. apply andb_true_iff in Hops as [Ho Hops].
  apply IH; [done|].
  destruct H1 as (Hh & He & Ht & Ha).
  destruct (stale_stays o c1 Hh Ho) as (Hh' & He' & Ht' & Ha').
  repeat split; congruence.
Qed.

(** ** Items sent in a row *)

Lemma sends_spec (its : list Item) (c : Ctx) :
  closing (self c) = false ->
  attempts (self c) < maxAttempts (self c) ->
  let c' := run_ops (map (fun it => OpSend (Some it)) its) c in
  items (self c')
  = items (self c) ++ imap (fun i it => (localSeq (self c) + 1 + Z.of_nat i, it)) its
  /\ localSeq (self c') = localSeq (self c) + Z.of_nat (length its)
  /\ sendHandle (self c')
     = match its with
       | [] => sendHandle (self c)
       | _ => if truthy (sendHandle (self c)) then sendHandle (self c) else HPending
       end
  /\ closing (self c') = false
  /\ attempts (self c') = attempts (self c)
  /\ env c' = env c
  /\ trace c' = trace c.
Proof.
  revert c. induction its as [|it its IH]; intros c Hc Ha; simpl.
  - rewrite app_nil_r, Z.add_0_r. done.
  - set (c1 := snd (send (Some it) c)).
    assert (H1 : items (self c1) = items (self c) ++ [(localSeq (self c) + 1, it)]
                 /\ localSeq (self c1) = localSeq (self c) + 1
                 /\ sendHandle (self c1)
                    = (if truthy (sendHandle (self c)) then sendHandle (self c)
                       else HPending)
                 /\ closing (self c1) = false
                 /\ attempts (self c1) = attempts (self c)
                 /\ maxAttempts (self c1) = maxAttempts (self c)
                 /\ env c1 = env c /\ trace c1 = trace c).
    { subst c1. rewrite send_spec. cbv zeta. rewrite Hc. simpl.
      destruct (truthy (sendHandle (self c))); [done|].
      destruct (Z.geb_spec (attempts (self c)) (maxAttempts (self c))); [lia|done]. }
    clearbody c1. destruct H1 as (Hi & Hl & Hh & Hc1 & Ha1 & Hm1 & He & Ht).
    destruct (IH c1 Hc1 ltac:(lia)) as (Hi' & Hl' & Hh' & Hc' & Ha' & He' & Ht').
    cbv zeta in *.
    split.
    { rewrite Hi', Hi, Hl, <- app_assoc. simpl. f_equal. f_equal; [f_equal; lia|].
      apply imap_ext. intros i x _. simpl. f_equal. lia. }
    split; [lia|]. split.
    { rewrite Hh'. destruct its; [done|]. rewrite Hh.
      by destruct (sendHandle (self c)). }
    repeat split; congruence.
Qed.

(** X6. Items sent one after the other on a stream that is not closing and
    has attempts left are queued in the order sent, behind what is pending,
    under the next [localSeq] numbers, and at most one send is scheduled for
    all of them; nothing is transmitted and no callback is called
    meanwhile. *)
Theorem sends_are_numbered (its : list Item) (c : Ctx) :
  closing (self c) = false ->
  attempts (self c) < maxAttempts (self c) ->
  its <> [] ->
  let c' := run_ops (map (fun it => OpSend (Some it)) its) c in
  items (self c')
  = items (self c) ++ imap (fun i it => (localSeq (self c) + 1 + Z.of_nat i, it)) its
  /\ localSeq (self c') = localSeq (self c) + Z.of_nat (length its)
  /\ sendHandle (self c')
     = (if truthy (sendHandle (self c)) then sendHandle (self c) else HPending)
  /\ env c' = env c
  /\ trace c' = trace c.
Proof.
  intros Hc Ha Hne.
  destruct (sends_spec its c Hc Ha) as (Hi & Hl & Hh & _ & _ & He & Ht).
  destruct its; [done|]. done.
Qed.

(** ** Sends that stay unanswered *)

(** A send comes due and, later, the retry timer set by it. *)
Definition retry_round : list op := [OpImmediate; OpRetry].

Definition retry_rounds (n : nat) : list op := concat (replicate n retry_round).

Lemma retry_rounds_S (n : nat) : retry_rounds (S n) = retry_rounds n ++ retry_round.
Proof.
  unfold retry_rounds, retry_round. induction n as [|n IH]; [reflexivity|].
  simpl in *. by rewrite <- IH.
Qed.

(** What [sendStream] reads of a stream. *)
Definition same_frame (s s' : UdpStream) : Prop :=
  items s' = items s /\ remoteSeq s' = remoteSeq s /\ closing s' = closing s
  /\ version s' = version s /\ remote s' = remote s.

Lemma retry_round_alive (c : Ctx) :
  sendHandle (self c) = HPending ->
  (items (self c) <> [] \/ closing (self c) = true) ->
  fst (sendStream (set_attempts (attempts (self c) + 1)
                     (set_sendHandle HStale (self c))) (env c)) = Ok tt ->
  attempts (self c) + 1 < maxAttempts (self c) ->
  let c1 := run_ops retry_round c in
  sendHandle (self c1) = HPending
  /\ attempts (self c1) = attempts (self c) + 1
  /\ retryInterval (self c1)
     = (if retryInterval (self c) <? MAX_RETRY_INTERVAL
        then retryInterval (self c) + 500 else retryInterval (self c))
  /\ maxAttempts (self c1) = maxAttempts (self c)
  /\ onClose (self c1) = onClose (self c)
  /\ same_frame (self c) (self c1)
  /\ trace c1 = trace c
  /\ env c1 = snd (sendStream (set_attempts (attempts (self c) + 1)
                                (set_sendHandle HStale (self c))) (env c)).
Proof.
  intros Hp Hretry Hok Hlt. unfold same_frame. simpl.
  rewrite fire_immediate_spec, Hp. cbv zeta.
  destruct (sendStream _ (env c)) as [[[]|err] e']; [|discriminate]. simpl.
  assert (Hb : negb (length (items (self c)) =? 0)%nat || closing (self c) = true).
  { destruct Hretry as [Hne|Hc]; [|by rewrite Hc, orb_true_r].
    destruct (items (self c)); [done|reflexivity]. }
  unfold after_send. simpl. rewrite Hb.
  rewrite fire_retry_spec.
  destruct (retryInterval (self c) <? MAX_RETRY_INTERVAL); simpl;
    rewrite send_spec; simpl;
    (destruct (Z.geb_spec (attempts (self c) + 1) (maxAttempts (self c))); [lia|]);
    simpl; done.
Qed.

Lemma retry_round_ends (c : Ctx) (k : Cb) :
  sendHandle (self c) = HPending ->
  (items (self c) <> [] \/ closing (self c) = true) ->
  fst (sendStream (set_attempts (attempts (self c) + 1)
                     (set_sendHandle HStale (self c))) (env c)) = Ok tt ->
  onClose (self c) = Some k ->
  maxAttempts (self c) <= attempts (self c) + 1 ->
  let c1 := run_ops retry_round c in
  onClose (self c1) = None
  /\ closing (self c1) = true
  /\ sendHandle (self c1) = HNull
  /\ retryHandle (self c1) = HNull
  /\ attempts (self c1) = attempts (self c) + 1
  /\ items (self c1) = items (self c)
  /\ trace c1 = trace c ++ [OnCloseCalled k].
Proof.
  intros Hp Hretry Hok Hk Hge. simpl.
  rewrite fire_immediate_spec, Hp. cbv zeta.
  destruct (sendStream _ (env c)) as [[[]|err] e']; [|discriminate]. simpl.
  assert (Hb : negb (length (items (self c)) =? 0)%nat || closing (self c) = true).
  { destruct Hretry as [Hne|Hc]; [|by rewrite Hc, orb_true_r].
    destruct (items (self c)); [done|reflexivity]. }
  unfold after_send. simpl. rewrite Hb.
  rewrite fire_retry_spec.
  destruct (retryInterval (self c) <? MAX_RETRY_INTERVAL); simpl;
    rewrite send_spec; simpl;
    (destruct (Z.geb_spec (attempts (self c) + 1) (maxAttempts (self c))); [|lia]);
    rewrite end_spec; simpl; rewrite Hk;
    match goal with |- context [run_onClose k ?e] => destruct (run_onClose k e) end;
    simpl; done.
Qed.

Lemma retry_rounds_alive (running : Env -> Prop) (j : nat) (c : Ctx) (i : Z) :
  (forall s' e, same_frame (self c) s' -> running e ->
                fst (sendStream s' e) = Ok tt /\ running (snd (sendStream s' e))) ->
  running (env c) ->
  sendHandle (self c) = HPending ->
  (items (self c) <> [] \/ closing (self c) = true) ->
  retryInterval (self c) = 500 * i -> 1 <= i <= 6 ->
  attempts (self c) + Z.of_nat j < maxAttempts (self c) ->
  let cj := run_ops (retry_rounds j) c in
  sendHandle (self cj) = HPending
  /\ attempts (self cj) = attempts (self c) + Z.of_nat j
  /\ retryInterval (self cj) = 500 * Z.min 6 (i + Z.of_nat j)
  /\ maxAttempts (self cj) = maxAttempts (self c)
  /\ onClose (self cj) = onClose (self c)
  /\ same_frame (self c) (self cj)
  /\ trace cj = trace c
  /\ running (env cj).
Proof.
  intros Hsend Hrun Hp Hretry Hri Hi.
  induction j as [|j IH]; intros Hlt.
  - simpl. rewrite Z.add_0_r. unfold same_frame.
    repeat split; try done. rewrite Hri. f_equal. lia.
  - destruct IH as (Hp' & Ha' & Hri' & Hm' & Hk' & Hf' & Ht' & Hrun'); [lia|].
    rewrite retry_rounds_S, run_ops_app. cbv zeta.
    set (cj := run_ops (retry_rounds j) c) in *.
    destruct Hf' as (Fi & Fr & Fc & Fv & Fe).
    assert (Hsame : same_frame (self c)
                      (set_attempts (attempts (self cj) + 1)
                         (set_sendHandle HStale (self cj))))
      by (unfold same_frame; simpl; done).
    destruct (Hsend _ (env cj) Hsame Hrun') as [Hok Hrun2].
    destruct (retry_round_alive cj Hp')
      as (Hp2 & Ha2 & Hri2 & Hm2 & Hk2 & Hf2 & Ht2 & He2).
    { by rewrite Fi, Fc. }
    { exact Hok. }
    { lia. }
    cbv zeta in *. destruct Hf2 as (Gi & Gr & Gc & Gv & Ge).
    split; [done|]. split; [lia|]. split.
    { rewrite Hri2, Hri'. unfold MAX_RETRY_INTERVAL.
      destruct (Z.ltb_spec (500 * Z.min 6 (i + Z.of_nat j)) 3000); lia. }
    split; [congruence|]. split; [congruence|].
    split; [unfold same_frame; repeat split; congruence|].
    split; [congruence|]. by rewrite He2.
Qed.

(** X7. A stream with something to retransmit (a pending item, or closing),
    a send scheduled and [n + 1] attempts left, whose sends all go out (in
    an environment that is [running], which a send that goes out keeps) and
    are never answered: every send is followed by a retry, the retry
    interval growing by 500 up to 3000, and the retry after the last attempt
    ends the stream, calling [onClose] then and only then. *)
Theorem gives_up_after_max_attempts (running : Env -> Prop) (c : Ctx) (k : Cb)
    (n : nat) (i : Z) :
  (forall s' e, same_frame (self c) s' -> running e ->
                fst (sendStream s' e) = Ok tt /\ running (snd (sendStream s' e))) ->
  running (env c) ->
  sendHandle (self c) = HPending ->
  (items (self c) <> [] \/ closing (self c) = true) ->
  onClose (self c) = Some k ->
  retryInterval (self c) = 500 * i -> 1 <= i <= 6 ->
  attempts (self c) + Z.of_nat (S n) = maxAttempts (self c) ->
  (forall j, (j <= n)%nat ->
     let cj := run_ops (retry_rounds j) c in
     sendHandle (self cj) = HPending
     /\ onClose (self cj) = Some k
     /\ attempts (self cj) = attempts (self c) + Z.of_nat j
     /\ retryInterval (self cj) = 500 * Z.min 6 (i + Z.of_nat j)
     /\ items (self cj) = items (self c)
     /\ trace cj = trace c)
  /\ let c' := run_ops (retry_rounds (S n)) c in
     onClose (self c') = None
     /\ closing (self c') = true
     /\ sendHandle (self c') = HNull
     /\ retryHandle (self c') = HNull
     /\ attempts (self c') = maxAttempts (self c)
     /\ items (self c') = items (self c)
     /\ trace c' = trace c ++ [OnCloseCalled k].
Proof.
  intros Hsend Hrun Hp Hretry Hk Hri Hi Hn.
  assert (Halive : forall j, (j <= n)%nat ->
            let cj := run_ops (retry_rounds j) c in
            sendHandle (self cj) = HPending
            /\ attempts (self cj) = attempts (self c) + Z.of_nat j
            /\ retryInterval (self cj) = 500 * Z.min 6 (i + Z.of_nat j)
            /\ maxAttempts (self cj) = maxAttempts (self c)
            /\ onClose (self cj) = onClose (self c)
            /\ same_frame (self c) (self cj)
            /\ trace cj = trace c
            /\ running (env cj)).
  { intros j Hj. apply retry_rounds_alive; try done. lia. }
  split.
  - intros j Hj. destruct (Halive j Hj) as (? & ? & ? & ? & Hk' & (? & _) & ? & _).
    cbv zeta. rewrite Hk' , Hk. done.
  - destruct (Halive n (le_n n)) as (Hp' & Ha' & _ & Hm' & Hk' & Hf' & Ht' & Hrun').
    rewrite retry_rounds_S, run_ops_app. cbv zeta in *.
    set (cn := run_ops (retry_rounds n) c) in *.
    destruct Hf' as (Fi & Fr & Fc & Fv & Fe).
    destruct (retry_round_ends cn k Hp') as (? & ? & ? & ? & Ha2 & Hi2 & Ht2).
    { by rewrite Fi, Fc. }
    { apply Hsend; [unfold same_frame; simpl; done|exact Hrun']. }
    { congruence. }
    { lia. }
    cbv zeta in *. repeat split; try done; try congruence. lia.
Qed.

(** ** A frame goes from one stream to another *)

Lemma byte_val_of (z : Z) : 0 <= z <= 255 -> byte_val (byte_of z) = z.
Proof.
  intros Hz. unfold byte_val, byte_of.
  destruct (Byte.of_N (Z.to_N z)) as [b|] eqn:Hb; simpl.
  - apply Byte.to_of_N in Hb. lia.
  - apply Byte.of_N_None_iff in Hb. lia.
Qed.

Lemma uint16_read_encode (ver v : Z) (rest : list byte) :
  in_u16 v = true ->
  uint16_read {| rversion := ver; rbytes := u16_encode v ++ rest |}
  = (Ok v, {| rversion := ver; rbytes := rest |}).
Proof.
  unfold in_u16. intros Hv. apply andb_true_iff in Hv as [H0 H1].
  apply Z.leb_le in H0, H1.
  assert (Hq : 0 <= v / 256 <= 255).
  { split; [apply Z.div_pos; lia|]. apply Z.lt_succ_r, Z.div_lt_upper_bound; lia. }
  assert (Hr : 0 <= v mod 256 <= 255).
  { pose proof (Z.mod_pos_bound v 256). lia. }
  pose proof (Z.div_mod v 256 ltac:(lia)) as Hdm.
  unfold uint16_read, u16_encode, u16_decode.
  destruct big_endian; simpl; rewrite !byte_val_of by done;
    do 2 f_equal; lia.
Qed.

Lemma oracle_read_encode (ver : Z) (it : Item) (bs rest : list byte) :
  oracle_decode ver (bs ++ rest) = Some (it, length bs) ->
  oracle_read {| rversion := ver; rbytes := bs ++ rest |}
  = (Ok it, {| rversion := ver; rbytes := rest |}).
Proof.
  intros Hd. unfold oracle_read. simpl. rewrite Hd, length_app.
  destruct (Nat.leb_spec (length bs) (length bs + length rest)); [|lia].
  by rewrite drop_app_length.
Qed.

(** What the item handler was given. *)
Definition handed (t : list event) : list (Z * Item) :=
  flat_map (fun ev => match ev with HandlerCalled seq it => [(seq, it)] | _ => [] end) t.

Lemma handed_app (t1 t2 : list event) : handed (t1 ++ t2) = handed t1 ++ handed t2.
Proof. unfold handed. by rewrite flat_map_app. Qed.

Lemma handed_quiet (t : list event) : delivered t = [] -> handed t = [].
Proof. induction t as [|[seq it|k] t IH]; simpl; [done|discriminate|exact IH]. Qed.

Definition live (s : UdpStream) : Prop := 0 < maxAttempts s.

Lemma end_live : preserves (keeps live) end_.
Proof.
  intros c H. unfold live. destruct (end_fields c) as (_ & _ & _ & Hm & _).
  cbv zeta in Hm. by rewrite Hm.
Qed.

#[local] Hint Resolve end_live : pres.

Lemma send_live (item : option Item) : preserves (keeps live) (send item).
Proof.
  intros c H. rewrite send_spec. cbv zeta.
  set (c1 := match item with Some _ => _ | None => _ end).
  assert (H1 : live (self c1)).
  { subst c1. destruct item as [it|]; [|done]. by destruct (closing (self c)). }
  clearbody c1.
  destruct (truthy (sendHandle (self c1))); [done|].
  destruct (attempts (self c1) >=? maxAttempts (self c1)); [by apply end_live|done].
Qed.

#[local] Hint Resolve send_live : pres.

Lemma close_live : preserves (keeps live) close.
Proof.
  intros c H. rewrite close_spec. destruct (closing (self c)); [done|].
  apply send_live. simpl. unfold live. simpl. lia.
Qed.

#[local] Hint Resolve close_live : pres.

Lemma run_api_live (a : api) : preserves (keeps live) (run_api a).
Proof. destruct a; simpl; auto with pres. Qed.

#[local] Hint Resolve run_api_live : pres.

Lemma run_actions_live (l : list action) : preserves (keeps live) (run_actions l).
Proof.
  induction l as [|a l IH]; simpl; [pres_tac|].
  apply preserves_bind; [eauto with pres| |intros _; exact IH].
  destruct a; simpl; auto with pres.
Qed.

#[local] Hint Resolve run_actions_live : pres.

Lemma handler_body_live (h : Handler) (item : Item) :
  preserves (keeps live) (handler_body h item).
Proof. unfold handler_body. pres_tac. Qed.

Lemma chain_prefix (lo hi : Z) (l1 l2 : list Z) :
  chain lo (l1 ++ l2) hi -> chain lo l1 hi.
Proof.
  revert lo. induction l1 as [|x l1 IH]; intros lo; simpl.
  - apply chain_le.
  - intros [Hx Hl]. split; [done|]. by apply IH.
Qed.

Lemma frame_items_prefix (ver : Z) (space : nat) (l : list (Z * Item)) :
  exists rest, l = frame_items ver space l ++ rest.
Proof.
  revert space. induction l as [|k l IH]; intros space; simpl; [by exists []|].
  destruct (item_bytes ver k) as [bs|]; [|by eexists].
  destruct (length bs <=? space)%nat; [|by eexists].
  destruct (IH (space - length bs)%nat) as (rest & Hrest).
  exists rest. simpl. by f_equal.
Qed.

Lemma frame_items_encodable (ver : Z) (space : nat) (l : list (Z * Item)) :
  Forall (fun k => is_Some (item_bytes ver k)) (frame_items ver space l).
Proof.
  revert space. induction l as [|k l IH]; intros space; simpl; [constructor|].
  destruct (item_bytes ver k) as [bs|] eqn:Hb; [|constructor].
  destruct (length bs <=? space)%nat; [|constructor].
  constructor; [by rewrite Hb|apply IH].
Qed.

(** A reader of version [vr] reads back what a writer of version [vw] wrote,
    whatever follows. *)
Definition oracle_round_trip (vw vr : Z) : Prop :=
  forall (it : Item) (bs rest : list byte),
    oracle_encode vw it = Some bs ->
    oracle_decode vr (bs ++ rest) = Some (it, length bs).

(** One turn of the loop on a sequence number not seen before. *)
Lemma receive_loop_new (fuel : nat) (h : Handler) (r r' r'' : Reader) (c c1 : Ctx)
    (seq : Z) (item : Item) :
  uint16_read r = (Ok seq, r') -> seq <> 0 -> seq <> 65535 ->
  remoteSeq (self c) < seq ->
  (if truthy (sendHandle (self c)) then (Ok tt, c) else send None c) = (Ok tt, c1) ->
  oracle_read r' = (Ok item, r'') ->
  receive_loop (S fuel) h (r, c)
  = (on_ctx (call_handler h seq item) ;; receive_loop fuel h)%js
      (r'', on_self (set_remoteSeq seq) c1).
Proof.
  intros Hread H0 Hff Hgt Hsend Hitem.
  simpl. unfold bind at 1, on_reader at 1. simpl. rewrite Hread.
  destruct (Z.eqb_spec seq 0); [done|].
  destruct (Z.eqb_spec seq 65535); [done|].
  unfold bind at 1, get. simpl.
  destruct (Z.gtb_spec seq (remoteSeq (self c))); [|lia].
  unfold bind at 1.
  assert ((if negb (truthy (sendHandle (self c)))
           then on_ctx (send None) else ret tt) (r', c) = (Ok tt, (r', c1))) as ->.
  { destruct (truthy (sendHandle (self c))); simpl.
    - by injection Hsend as <-.
    - unfold on_ctx. simpl. by rewrite Hsend. }
  unfold bind at 1, on_ctx at 1, modify. simpl.
  unfold bind at 1, on_reader at 1. simpl. by rewrite Hitem.
Qed.

(** The handler's own calls do not raise into [receive]. *)
Definition calm (h : Handler) : Prop :=
  forall (it : Item) (c : Ctx), fst (handler_body h it c) = Ok tt.

Lemma receive_loop_items (h : Handler) (vw vr term : Z) (tail : list byte) :
  oracle_round_trip vw vr -> calm h ->
  term = 0 \/ term = 65535 ->
  forall (l : list (Z * Item)) (fuel : nat) (c : Ctx),
    Forall (fun k => is_Some (item_bytes vw k)) l ->
    chain (remoteSeq (self c)) (map fst l) 65534 ->
    0 <= remoteSeq (self c) ->
    attempts (self c) = 0 -> live (self c) ->
    (length (items_bytes vw l ++ u16_encode term ++ tail) < fuel)%nat ->
    exists c',
      receive_loop fuel h
        ({| rversion := vr;
            rbytes := items_bytes vw l ++ u16_encode term ++ tail |}, c)
      = (Ok tt, ({| rversion := vr; rbytes := tail |}, c'))
      /\ handed (trace c') = handed (trace c) ++ l
      /\ remoteSeq (self c')
         = (if term =? 0 then default (remoteSeq (self c)) (last (map fst l))
            else 65535).
Proof.
  intros Horacle Hcalm Hterm.
  induction l as [|k l IH]; intros fuel c Henc Hchain H0 Ha Hlive Hfuel.
  - destruct fuel as [|fuel]; [lia|]. simpl.
    unfold bind at 1, on_reader at 1. simpl.
    rewrite uint16_read_encode by (destruct Hterm; by subst).
    destruct Hterm as [-> | ->]; simpl.
    + exists c. by rewrite app_nil_r.
    + unfold bind, on_ctx, modify. simpl. rewrite close_spec. simpl.
      destruct (closing (self c)); simpl.
      * eexists. split; [reflexivity|]. simpl. by rewrite app_nil_r.
      * rewrite send_spec. simpl.
        destruct (truthy (sendHandle (self c))); simpl.
        -- eexists. split; [reflexivity|]. simpl. by rewrite app_nil_r.
        -- rewrite Ha. simpl.
           eexists. split; [reflexivity|]. simpl. by rewrite app_nil_r.
  - destruct fuel as [|fuel]; [lia|].
    destruct k as [seq it]. simpl in Hchain. destruct Hchain as [Hlt Hchain].
    pose proof (chain_le _ _ _ Hchain) as Hle.
    apply Forall_cons in Henc as [[bs Hbs] Henc].
    unfold item_bytes in Hbs. simpl in Hbs.
    destruct (in_u16 seq) eqn:Hseq; [|discriminate].
    destruct (oracle_encode vw it) as [pl|] eqn:Hpl; [|discriminate].
    injection Hbs as <-.
    assert (Hbytes : items_bytes vw ((seq, it) :: l) ++ u16_encode term ++ tail
                     = u16_encode seq
                         ++ pl ++ items_bytes vw l ++ u16_encode term ++ tail).
    { unfold items_bytes at 1. simpl. unfold item_bytes at 1. simpl.
      rewrite Hseq, Hpl. simpl. fold (items_bytes vw l).
      by rewrite <- !app_assoc. }
    rewrite Hbytes in Hfuel |- *.
    set (rest := items_bytes vw l ++ u16_encode term ++ tail) in *.
    pose proof (uint16_read_encode vr seq (pl ++ rest) Hseq) as Hread.
    pose proof (oracle_read_encode vr it pl rest (Horacle it pl rest Hpl)) as Hitem.
    set (c1 := if truthy (sendHandle (self c)) then c
               else on_self (set_sendHandle HPending) c).
    assert (Hc1 : (if truthy (sendHandle (self c)) then (Ok tt, c) else send None c)
                  = (Ok tt, c1)).
    { subst c1. destruct (truthy (sendHandle (self c))) eqn:Hh; [done|].
      rewrite send_spec. simpl. rewrite Hh, Ha.
      destruct (Z.geb_spec 0 (maxAttempts (self c))); [unfold live in Hlive; lia|done]. }
    rewrite (receive_loop_new fuel h _ _ _ c c1 seq it Hread
               ltac:(lia) ltac:(lia) Hlt Hc1 Hitem).
    assert (H1 : trace c1 = trace c /\ attempts (self c1) = 0 /\ live (self c1)).
    { subst c1. by destruct (truthy (sendHandle (self c))). }
    clearbody c1. clear Hc1. destruct H1 as (Ht1 & Ha1 & Hl1).
    unfold bind at 1, on_ctx at 1, call_handler, bind at 1, log, modify. simpl.
    set (c2 := {| self := set_remoteSeq seq (self c1); env := env c1;
                  trace := trace c1 ++ [HandlerCalled seq it] |}).
    pose proof (Hcalm it c2) as Hok.
    pose proof (handler_body_quiet h it c2) as (Hr3 & t & Ht3 & Hd).
    pose proof (handler_body_steady h it c2) as Ha3.
    pose proof (handler_body_live h it c2) as Hl3.
    unfold steady in Ha3. unfold keeps in Hl3.
    destruct (handler_body h it c2) as [res c3]. simpl in *. subst res.
    destruct (IH fuel c3) as (c' & Hloop & Hhanded & Hrs); try done.
    { by rewrite Hr3. }
    { rewrite Hr3. lia. }
    { congruence. }
    { by apply Hl3. }
    { rewrite !length_app, u16_encode_length in Hfuel. fold rest. lia. }
    exists c'. split; [exact Hloop|]. split.
    + rewrite Hhanded, Ht3, handed_app, (handed_quiet t Hd), app_nil_r.
      subst c2. simpl. rewrite handed_app, Ht1. simpl. by rewrite <- app_assoc.
    + rewrite Hrs, Hr3. destruct (term =? 0); [|done].
      rewrite last_cons. by destruct (last (map fst l)).
Qed.

(** X8. A frame written by [serialize] and given to [receive] on a stream
    that has seen none of its items: when the oracle reads back, under the
    version of the receiver, what it wrote under the version of the sender,
    the ack is not the close sentinel, the
    sequence numbers are below [0xFFFF] and the handler does not raise,
    [receive] returns, reads the frame to its end, and hands the handler the
    items that went into the frame, with their sequence numbers, in queue
    order, each once; [remoteSeq] ends at the last of them, or at [0xFFFF]
    when the frame ends with the close sentinel. *)
Theorem frame_round_trip (h : Handler) (s : UdpStream) (vw vr : Z) (size : nat)
    (w' : Writer) (c : Ctx) :
  oracle_round_trip vw vr ->
  calm h ->
  serialize (s, new_writer vw size) = (Ok tt, (s, w')) ->
  remoteSeq s <> 65535 ->
  chain (remoteSeq (self c)) (map fst (items s)) 65534 ->
  0 <= remoteSeq (self c) ->
  0 < maxAttempts (self c) ->
  let written := frame_items vw (size - 2) (items s) in
  let res := receive h ({| rversion := vr; rbytes := wout w' |}, c) in
  let c' := snd (snd res) in
  fst res = Ok tt
  /\ rbytes (fst (snd res)) = []
  /\ handed (trace c') = handed (trace c) ++ written
  /\ remoteSeq (self c')
     = (if closing s && (length written =? length (items s))%nat then 65535
        else default (remoteSeq (self c)) (last (map fst written))).
Proof.
  intros Horacle Hcalm Hser Hack Hchain H0 Hmax written res c'.
  rewrite serialize_unfold in Hser.
  destruct (in_u16 (remoteSeq s) && room (new_writer vw size) 2) eqn:Hroom;
    [|discriminate].
  apply andb_true_iff in Hroom as [Hrs _].
  cbv zeta in Hser. simpl in Hser.
  replace (size - length (u16_encode (remoteSeq s)))%nat with (size - 2)%nat in Hser
    by (by rewrite u16_encode_length).
  fold written in Hser.
  set (term := if closing s && (length written =? length (items s))%nat
               then 65535 else 0) in *.
  assert (Hterm : term = 0 \/ term = 65535)
    by (subst term; destruct (closing s && _); auto).
  unfold on_writer, uint16_write in Hser. simpl in Hser.
  destruct (in_u16 term && room _ 2); [|discriminate].
  injection Hser as <-. simpl in res.
  assert (Hbytes : (u16_encode (remoteSeq s) ++ items_bytes vw written)
                     ++ u16_encode term
                   = u16_encode (remoteSeq s)
                       ++ items_bytes vw written ++ u16_encode term ++ [])
    by (by rewrite app_nil_r, <- app_assoc).
  subst res c'. rewrite Hbytes. clear Hbytes.
  rewrite (receive_unfold h _ _ c (remoteSeq s)
             (uint16_read_encode vr (remoteSeq s) _ Hrs)).
  destruct (Z.eqb_spec (remoteSeq s) 65535); [done|].
  set (c0 := on_self (set_attempts 0) _).
  set (c1 := if truthy (retryHandle (self c0))
             then on_self (set_retryHandle HNull)
                    (on_self (set_retryInterval MIN_RETRY_INTERVAL) c0)
             else on_self (set_retryInterval MIN_RETRY_INTERVAL) c0).
  assert (H1 : remoteSeq (self c1) = remoteSeq (self c) /\ attempts (self c1) = 0
               /\ maxAttempts (self c1) = maxAttempts (self c)
               /\ trace c1 = trace c).
  { subst c1 c0. simpl. by destruct (truthy (retryHandle (self c))). }
  destruct (frame_items_prefix vw (size - 2) (items s)) as (rest & Hrest).
  fold written in Hrest.
  destruct H1 as (Hr1 & Ha1 & Hm1 & Ht1).
  destruct (receive_loop_items h vw vr term [] Horacle Hcalm Hterm written
              (S (length (items_bytes vw written ++ u16_encode term ++ [])))
              c1) as (c' & Hloop & Hhanded & Hrs').
  { apply frame_items_encodable. }
  { rewrite Hr1. rewrite Hrest, map_app in Hchain. by apply chain_prefix in Hchain. }
  { by rewrite Hr1. }
  { done. }
  { unfold live. by rewrite Hm1. }
  { lia. }
  match goal with
  | |- fst ?X = _ /\ _ =>
      assert (Hgoal : X = (Ok tt, ({| rversion := vr; rbytes := [] |}, c')))
  end.
  { rewrite <- Hloop. subst c1 c0. unfold bind, on_ctx, modify, get, ret. simpl.
    destruct (truthy (retryHandle (self c))); reflexivity. }
  rewrite Hgoal. simpl. split; [done|]. split; [done|].
  split; [by rewrite Hhanded, Ht1|].
  rewrite Hrs', Hr1. subst term.
  by destruct (closing s && (length written =? length (items s))%nat).
Qed.

(** [receive] up to its loop, for an ack other than the close sentinel. *)
Definition prepared (ack : Z) (c : Ctx) : Ctx :=
  let c0 := on_self (set_retryInterval MIN_RETRY_INTERVAL)
              (on_self (set_attempts 0)
                 (on_self (set_items (shift_acked ack (items (self c)))) c)) in
  if truthy (retryHandle (self c0)) then on_self (set_retryHandle HNull) c0 else c0.

Lemma receive_to_loop (h : Handler) (r r' : Reader) (c : Ctx) (ack : Z) :
  uint16_read r = (Ok ack, r') -> ack <> 65535 ->
  receive h (r, c) = receive_loop (S (length (rbytes r'))) h (r', prepared ack c).
Proof.
  intros Hread Hack. rewrite (receive_unfold h r r' c ack Hread).
  destruct (Z.eqb_spec ack 65535); [done|].
  unfold prepared, bind, on_ctx, modify, get, ret. cbn [fst snd].
  cbn [self on_self retryHandle set_retryInterval set_attempts set_items].
  by destruct (truthy (retryHandle (self c))).
Qed.

Lemma receive_loop_end (fuel : nat) (h : Handler) (r r' : Reader) (c : Ctx) :
  uint16_read r = (Ok 0, r') -> receive_loop (S fuel) h (r, c) = (Ok tt, (r', c)).
Proof.
  intros Hread. simpl. unfold bind at 1, on_reader at 1. simpl. by rewrite Hread.
Qed.

(** A frame with one item not seen before and the end mark, in one step. *)
Lemma item_frame_received (h : Handler) (ver ack seq : Z) (item : Item)
    (bs : list byte) (c : Ctx) :
  in_u16 ack = true -> ack <> 65535 ->
  remoteSeq (self c) < seq -> 0 < seq < 65535 ->
  0 < maxAttempts (self c) ->
  oracle_decode ver (bs ++ u16_encode 0) = Some (item, length bs) ->
  let c1 := if truthy (sendHandle (self (prepared ack c))) then prepared ack c
            else on_self (set_sendHandle HPending) (prepared ack c) in
  receive h ({| rversion := ver;
                rbytes := u16_encode ack ++ (u16_encode seq ++ bs) ++ u16_encode 0 |}, c)
  = match call_handler h seq item (on_self (set_remoteSeq seq) c1) with
    | (Ok _, c3) => (Ok tt, ({| rversion := ver; rbytes := [] |}, c3))
    | (Threw e, c3) => (Threw e, ({| rversion := ver; rbytes := u16_encode 0 |}, c3))
    end.
Proof.
  intros Hack Hack' Hnew Hseq Hmax Hdec c1.
  assert (Hsend : (if truthy (sendHandle (self (prepared ack c)))
                   then (Ok tt, prepared ack c)
                   else send None (prepared ack c)) = (Ok tt, c1)).
  { subst c1. destruct (truthy (sendHandle (self (prepared ack c)))) eqn:Hh; [done|].
    rewrite send_spec. cbv zeta. rewrite Hh.
    assert (Ha : attempts (self (prepared ack c)) = 0
                 /\ maxAttempts (self (prepared ack c)) = maxAttempts (self c)).
    { unfold prepared. simpl. by destruct (truthy (retryHandle (self c))). }
    destruct Ha as [-> ->].
    destruct (Z.geb_spec 0 (maxAttempts (self c))); [lia|done]. }
  assert (Hrs : remoteSeq (self (prepared ack c)) = remoteSeq (self c)).
  { unfold prepared. simpl. by destruct (truthy (retryHandle (self c))). }
  clearbody c1.
  rewrite (receive_to_loop h _ _ c ack (uint16_read_encode ver ack _ Hack) Hack').
  cbn [rbytes]. set (fuel := length ((u16_encode seq ++ bs) ++ u16_encode 0)).
  rewrite <- app_assoc.
  rewrite (receive_loop_new fuel h _
             {| rversion := ver; rbytes := bs ++ u16_encode 0 |}
             {| rversion := ver; rbytes := u16_encode 0 |} _ c1 seq item
             (uint16_read_encode ver seq _
                ltac:(unfold in_u16; apply andb_true_iff; split; apply Z.leb_le; lia))
             ltac:(lia) ltac:(lia) ltac:(rewrite Hrs; exact Hnew) Hsend
             (oracle_read_encode ver item bs _ Hdec)).
  unfold bind at 1, on_ctx at 1. cbn [fst snd].
  destruct (call_handler h seq item (on_self (set_remoteSeq seq) c1))
    as [[[]|e] c3]; [|reflexivity].
  assert (Hfuel : exists fuel', fuel = S fuel').
  { subst fuel. rewrite length_app, u16_encode_length.
    exists (length (u16_encode seq ++ bs) + 1)%nat. lia. }
  destruct Hfuel as (fuel' & ->).
  rewrite <- (app_nil_r (u16_encode 0)).
  by rewrite (receive_loop_end fuel' h _ _ c3 (uint16_read_encode ver 0 [] eq_refl)).
Qed.

(** What runs on a stream whose peer is silent and whose application has
    called [close()] and waits: the callbacks of the two timers, and
    [close()] again. *)
Definition unattended (o : op) : bool :=
  match o with
  | OpImmediate | OpRetry | OpClose => true
  | OpSend _ | OpEnd | OpReceive _ _ => false
  end.

(** C7. A stream on which [close()] has been called, whose close frame has
    gone out (no send is scheduled; the retry timer may be armed) and whose
    [onClose] has not been called, receives a frame that carries no item and
    whose ack is not [0xFFFF], such as the acknowledgement of an earlier data
    frame. [receive] cancels the retry timer and schedules nothing: the
    stream stays closing with no timer armed and [onClose] not called, and
    from then on the timer callbacks and further calls of [close()] change
    nothing, so [onClose] is not called however long the application
    waits. *)
Theorem closing_stream_stalls (h : Handler) (r r' r'' : Reader) (c : Ctx) (k : Cb)
    (ack : Z) :
  closing (self c) = true ->
  onClose (self c) = Some k ->
  sendHandle (self c) = HNull ->
  uint16_read r = (Ok ack, r') ->
  ack <> 65535 ->
  uint16_read r' = (Ok 0, r'') ->
  let c' := run_op (OpReceive r h) c in
  fst (receive h (r, c)) = Ok tt
  /\ closing (self c') = true
  /\ onClose (self c') = Some k
  /\ sendHandle (self c') = HNull
  /\ retryHandle (self c') = HNull
  /\ trace c' = trace c
  /\ env c' = env c
  /\ forall ops : list op,
       forallb unattended ops = true ->
       run_ops ops c' = c' /\ closes (trace (run_ops ops c')) = closes (trace c).
Proof.
  intros Hclosing Hk Hnull Hread Hack Hend c'. subst c'. cbn [run_op].
  rewrite (receive_to_loop h r r' c ack Hread Hack).
  rewrite (receive_loop_end _ h r' r'' _ Hend). cbn [fst snd].
  assert (Hp : closing (self (prepared ack c)) = true
               /\ onClose (self (prepared ack c)) = Some k
               /\ sendHandle (self (prepared ack c)) = HNull
               /\ retryHandle (self (prepared ack c)) = HNull
               /\ trace (prepared ack c) = trace c
               /\ env (prepared ack c) = env c).
  { unfold prepared. simpl.
    destruct (retryHandle (self c)) eqn:E; simpl; rewrite ?E; done. }
  destruct Hp as (Hc & Hk' & Hsh & Hrh & Ht & He).
  split; [done|]. repeat (split; [done|]).
  intros ops Hops.
  assert (Hidle : run_ops ops (prepared ack c) = prepared ack c).
  { induction ops as [|o ops IH]; [done|].
    simpl in Hops. apply andb_true_iff in Hops as [Ho Hops].
    assert (Hstep : run_op o (prepared ack c) = prepared ack c).
    { destruct o; try discriminate; simpl.
      - by rewrite close_spec, Hc.
      - by rewrite fire_immediate_spec, Hsh.
      - by rewrite fire_retry_spec, Hrh. }
    simpl. rewrite Hstep. by apply IH. }
  by rewrite Hidle, Ht.
Qed.

(** X15. A frame that carries no item and whose ack is not the close
    sentinel: [receive] drops the acknowledged entries, resets [attempts]
    and the retry interval, and cancels the retry timer; it schedules
    nothing and calls nothing. With no send scheduled before, none is
    scheduled after, whatever is still pending: the callbacks of the two
    timers, run any number of times, change nothing. *)
Theorem ack_only_frame_cancels_retry (h : Handler) (r r' r'' : Reader) (c : Ctx)
    (ack : Z) :
  uint16_read r = (Ok ack, r') ->
  ack <> 65535 ->
  uint16_read r' = (Ok 0, r'') ->
  let res := receive h (r, c) in
  let c' := snd (snd res) in
  fst res = Ok tt
  /\ fst (snd res) = r''
  /\ items (self c') = shift_acked ack (items (self c))
  /\ attempts (self c') = 0
  /\ retryInterval (self c') = MIN_RETRY_INTERVAL
  /\ retryHandle (self c') = HNull
  /\ sendHandle (self c') = sendHandle (self c)
  /\ env c' = env c
  /\ trace c' = trace c
  /\ (sendHandle (self c) = HNull -> forall n, run_ops (retry_rounds n) c' = c').
Proof.
  intros Hread Hack Hend res c'. subst c' res.
  rewrite (receive_to_loop h r r' c ack Hread Hack).
  rewrite (receive_loop_end _ h r' r'' _ Hend). cbn [fst snd].
  assert (Hp : items (self (prepared ack c)) = shift_acked ack (items (self c))
               /\ attempts (self (prepared ack c)) = 0
               /\ retryInterval (self (prepared ack c)) = MIN_RETRY_INTERVAL
               /\ retryHandle (self (prepared ack c)) = HNull
               /\ sendHandle (self (prepared ack c)) = sendHandle (self c)
               /\ env (prepared ack c) = env c
               /\ trace (prepared ack c) = trace c).
  { unfold prepared. simpl.
    destruct (retryHandle (self c)) eqn:E; simpl; rewrite ?E; done. }
  destruct Hp as (Hi & Ha & Hri & Hrh & Hsh & He & Ht).
  repeat (split; [done|]).
  intros Hnull n. induction n as [|n IH]; [done|].
  rewrite retry_rounds_S, run_ops_app, IH. simpl.
  rewrite fire_immediate_spec, Hsh, Hnull. simpl.
  by rewrite fire_retry_spec, Hrh.
Qed.

End Stream.

(** * [class UdpSocket]

    The socket and the world it lives in: the stream objects it has created,
    by reference, and a record of what it did to the outside. The user's
    callbacks are opaque: a general handler, the close handler and the open
    handler are names, recorded when called; a stream handler and a connect
    handler are given the stream, and are the calls they make on it (for a
    connect handler, before its first [await]). *)
Section Socket.

Context {UserData : Type}.

(** [oracle.identify(obj)] *)
Variable identify : Item -> Z.

Definition GENERAL : Z := 0.
Definition STREAM : Z := 1.

Definition getEndPointId (endpoint : EndPoint) : string :=
  address endpoint +:+ ":" +:+ pretty (port endpoint).

(** The two [onClose] closures: the one made in [connect] and the one made in
    [handleMessage], with the variables they capture. *)
Inductive SockCb : Type :=
| ClientClose (stream : nat)
| ServerClose (remoteId : string) (stream : nat).

Inductive report : Type :=
| NoStreamHandler (id : Z)
| NoConnectionHandler (remoteId : string) (id : Z).

Inductive output : Type :=
| HandlerRun (name : nat) (obj : Item)
| StreamHandlerRun (id : Z) (item : Item) (userData : option UserData) (stream : option nat)
| ConnectHandlerRun (id : Z) (msg : Item) (stream : nat)
| OpenHandlerRun (name : nat) (userData : UserData) (stream : nat)
| CloseHandlerRun (name : nat) (userData : option UserData) (stream : nat)
| ErrorLogged (err : report)
| DatagramSent (to : EndPoint) (data : list byte)
| TransportClosed.

Local Abbreviation SStream := (@UdpStream SockCb).

(** [streams] is [undefined] until [listen]. [openHandler] exists in the
    later variant of the file only (with [onOpen]); [src/UdpSocket.ts] has no
    such field. *)
Record UdpSocket : Type := {
  sversion : Z;
  handlers : gmap Z nat;
  streamHandlers : gmap Z (Item -> list api);
  connectHandlers : gmap Z (Item -> list api);
  openHandler : option nat;
  closeHandler : option nat;
  stream : option nat;
  streams : option (gmap string (nat * UserData));
  sclosing : bool;
  heap : gmap nat SStream;
  next_ref : nat;
  out : list output
}.

Definition set_handlers (v : gmap Z nat) (w : UdpSocket) : UdpSocket :=
  {| sversion := sversion w; handlers := v; streamHandlers := streamHandlers w;
     connectHandlers := connectHandlers w; openHandler := openHandler w;
     closeHandler := closeHandler w; stream := stream w; streams := streams w;
     sclosing := sclosing w; heap := heap w; next_ref := next_ref w;
     out := out w |}.

Definition set_streamHandlers (v : gmap Z (Item -> list api)) (w : UdpSocket) : UdpSocket :=
  {| sversion := sversion w; handlers := handlers w; streamHandlers := v;
     connectHandlers := connectHandlers w; openHandler := openHandler w;
     closeHandler := closeHandler w; stream := stream w; streams := streams w;
     sclosing := sclosing w; heap := heap w; next_ref := next_ref w;
     out := out w |}.

Definition set_connectHandlers (v : gmap Z (Item -> list api)) (w : UdpSocket) : UdpSocket :=
  {| sversion := sversion w; handlers := handlers w;
     streamHandlers := streamHandlers w; connectHandlers := v;
     openHandler := openHandler w; closeHandler := closeHandler w;
     stream := stream w; streams := streams w; sclosing := sclosing w;
     heap := heap w; next_ref := next_ref w; out := out w |}.

Definition set_openHandler (v : option nat) (w : UdpSocket) : UdpSocket :=
  {| sversion := sversion w; handlers := handlers w;
     streamHandlers := streamHandlers w; connectHandlers := connectHandlers w;
     openHandler := v; closeHandler := closeHandler w; stream := stream w;
     streams := streams w; sclosing := sclosing w; heap := heap w;
     next_ref := next_ref w; out := out w |}.

Definition set_closeHandler (v : option nat) (w : UdpSocket) : UdpSocket :=
  {| sversion := sversion w; handlers := handlers w;
     streamHandlers := streamHandlers w; connectHandlers := connectHandlers w;
     openHandler := openHandler w; closeHandler := v; stream := stream w;
     streams := streams w; sclosing := sclosing w; heap := heap w;
     next_ref := next_ref w; out := out w |}.

Definition set_stream (v : option nat) (w : UdpSocket) : UdpSocket :=
  {| sversion := sversion w; handlers := handlers w;
     streamHandlers := streamHandlers w; connectHandlers := connectHandlers w;
     openHandler := openHandler w; closeHandler := closeHandler w; stream := v;
     streams := streams w; sclosing := sclosing w; heap := heap w;
     next_ref := next_ref w; out := out w |}.

Definition set_streams (v : option (gmap string (nat * UserData))) (w : UdpSocket) : UdpSocket :=
  {| sversion := sversion w; handlers := handlers w;
     streamHandlers := streamHandlers w; connectHandlers := connectHandlers w;
     openHandler := openHandler w; closeHandler := closeHandler w;
     stream := stream w; streams := v; sclosing := sclosing w; heap := heap w;
     next_ref := next_ref w; out := out w |}.

Definition set_sclosing (v : bool) (w : UdpSocket) : UdpSocket :=
  {| sversion := sversion w; handlers := handlers w;
     streamHandlers := streamHandlers w; connectHandlers := connectHandlers w;
     openHandler := openHandler w; closeHandler := closeHandler w;
     stream := stream w; streams := streams w; sclosing := v; heap := heap w;
     next_ref := next_ref w; out := out w |}.

Definition set_heap (v : gmap nat SStream) (w : UdpSocket) : UdpSocket :=
  {| sversion := sversion w; handlers := handlers w;
     streamHandlers := streamHandlers w; connectHandlers := connectHandlers w;
     openHandler := openHandler w; closeHandler := closeHandler w;
     stream := stream w; streams := streams w; sclosing := sclosing w;
     heap := v; next_ref := next_ref w; out := out w |}.

Definition set_next_ref (v : nat) (w : UdpSocket) : UdpSocket :=
  {| sversion := sversion w; handlers := handlers w;
     streamHandlers := streamHandlers w; connectHandlers := connectHandlers w;
     openHandler := openHandler w; closeHandler := closeHandler w;
     stream := stream w; streams := streams w; sclosing := sclosing w;
     heap := heap w; next_ref := v; out := out w |}.

Definition set_out (v : list output) (w : UdpSocket) : UdpSocket :=
  {| sversion := sversion w; handlers := handlers w;
     streamHandlers := streamHandlers w; connectHandlers := connectHandlers w;
     openHandler := openHandler w; closeHandler := closeHandler w;
     stream := stream w; streams := streams w; sclosing := sclosing w;
     heap := heap w; next_ref := next_ref w; out := v |}.

(** [new UdpSocket(oracle, version)] *)
Definition new_UdpSocket (version : Z) : UdpSocket :=
  {| sversion := version; handlers := ∅; streamHandlers := ∅;
     connectHandlers := ∅; openHandler := None; closeHandler := None;
     stream := None; streams := None; sclosing := false;
     heap := ∅; next_ref := 0; out := [] |}.

Definition emit (o : output) (w : UdpSocket) : UdpSocket := set_out (out w ++ [o]) w.

(** [listen(port)] *)
Definition listen (w : UdpSocket) : UdpSocket := set_streams (Some ∅) w.

(** [on(clazz, handler)], [onStream(clazz, handler)], [onConnect(clazz, handler)]
    with [id = oracle.id(clazz)] *)
Definition on (id : Z) (name : nat) (w : UdpSocket) : UdpSocket :=
  set_handlers (<[id := name]> (handlers w)) w.

Definition onStream (id : Z) (handler : Item -> list api) (w : UdpSocket) : UdpSocket :=
  set_streamHandlers (<[id := handler]> (streamHandlers w)) w.

Definition onConnect (id : Z) (handler : Item -> list api) (w : UdpSocket) : UdpSocket :=
  set_connectHandlers (<[id := handler]> (connectHandlers w)) w.

(** [onClose(handler)], and [onOpen(handler)] of the variant *)
Definition socket_onClose (name : nat) : M UdpSocket unit :=
  (let* w := get in
   match closeHandler w with
   | Some _ => throw PlainError
   | None => modify (set_closeHandler (Some name))
   end)%js.

Definition onOpen (name : nat) : M UdpSocket unit :=
  (let* w := get in
   match openHandler w with
   | Some _ => throw PlainError
   | None => modify (set_openHandler (Some name))
   end)%js.

(** [raiseError(err)] *)
Definition raiseError (err : report) (w : UdpSocket) : UdpSocket :=
  emit (ErrorLogged err) w.

(** [end()] of the socket *)
Definition socket_end (w : UdpSocket) : UdpSocket := emit TransportClosed w.

(** [!this.stream && (!this.streams || this.streams.size === 0)] *)
Definition no_stream_left (w : UdpSocket) : bool :=
  match stream w with
  | Some _ => false
  | None =>
      match streams w with
      | None => true
      | Some m => bool_decide (size m = 0%nat)
      end
  end.

(** [handleClose(userData, stream)] *)
Definition handleClose (userData : option UserData) (o : nat) (w : UdpSocket) : UdpSocket :=
  let w1 :=
    match closeHandler w with
    | Some name => emit (CloseHandlerRun name userData o) w
    | None => w
    end in
  if sclosing w1 then (if no_stream_left w1 then socket_end w1 else w1) else w1.

(** The [onClose] closures, called. *)
Definition run_closure (k : SockCb) (w : UdpSocket) : outcome unit * UdpSocket :=
  match k with
  | ClientClose o =>
      (Ok tt, handleClose None o (set_sclosing true (set_stream None w)))
  | ServerClose remoteId o =>
      match streams w with
      | None => (Threw TypeError, w)
      | Some m =>
          match m !! remoteId with
          | None => (Threw TypeError, w)
          | Some (o', userData) =>
              if Nat.eqb o' o
              then (Ok tt, handleClose (Some userData) o'
                             (set_streams (Some (delete remoteId m)) w))
              else (Ok tt, w)
          end
      end
  end.

(** Whether [end()] has closed the transport. *)
Definition transport_closed (w : UdpSocket) : bool :=
  existsb (fun ev => match ev with TransportClosed => true | _ => false end) (out w).

(** Modelled from the spec: [this.socket.send(buffer, 0, length, port,
    address)] of Node's [dgram], which raises on a socket that has been
    closed and hands the datagram to the network otherwise (what happens to
    it there is reported out of band). *)
Definition transport_send (to : EndPoint) (data : list byte) : M UdpSocket unit :=
  fun w =>
    if transport_closed w then (Threw NotRunning, w)
    else (Ok tt, emit (DatagramSent to data) w).

(** [sendStream(stream)] *)
Definition sendStream (s : SStream) (w : UdpSocket) : outcome unit * UdpSocket :=
  let serializer := new_writer (version s) 1000 in
  match (on_writer (uint8_write STREAM) ;; serialize)%js (s, serializer) with
  | (Ok _, (_, serializer')) => transport_send (remote s) (wout serializer') w
  | (Threw e, _) => (Threw e, w)
  end.

Local Abbreviation SCtx := (@Ctx SockCb UdpSocket).

(** A method of the stream object [o], run in the socket's world. The
    closures a stream calls never look into a stream object. *)
Definition on_stream {A : Type} (o : nat) (m : M SCtx A) : M UdpSocket A :=
  fun w =>
    match heap w !! o with
    | None => (Threw TypeError, w)
    | Some s =>
        let (r, c) := m {| self := s; env := w; trace := [] |} in
        (r, set_heap (<[o := self c]> (heap (env c))) (env c))
    end.

(** [new BufferSerializer(stream.version, buffer, 1); stream.receive(serializer, handler)] *)
Definition stream_receive (o : nat) (payload : list byte) (handler : Handler) :
    M UdpSocket unit :=
  fun w =>
    match heap w !! o with
    | None => (Threw TypeError, w)
    | Some s =>
        let serializer := {| rversion := version s; rbytes := payload |} in
        on_stream o
          (fun c => let (r, st) := receive run_closure handler (serializer, c) in
                    (r, snd st)) w
    end.

(** The three item handlers of [handleMessage]. *)
Definition client_handler : Handler :=
  fun item w =>
    let id := identify item in
    match streamHandlers w !! id with
    | None => (Sync, [Effect (raiseError (NoStreamHandler id))])
    | Some streamHandler =>
        (Sync, Effect (emit (StreamHandlerRun id item None (stream w)))
               :: map Call (streamHandler item))
    end.

Definition server_handler (userData : UserData) (o : nat) : Handler :=
  fun item w =>
    let id := identify item in
    match streamHandlers w !! id with
    | None => (Sync, [Effect (raiseError (NoStreamHandler id))])
    | Some streamHandler =>
        (Sync, Effect (emit (StreamHandlerRun id item (Some userData) (Some o)))
               :: map Call (streamHandler item))
    end.

(** The [async] handler of a new stream, up to its [await]. *)
Definition connect_handler (remoteId : string) (o : nat) : Handler :=
  fun msg w =>
    let id := identify msg in
    match connectHandlers w !! id with
    | None =>
        (Async, [Call ApiClose; Effect (raiseError (NoConnectionHandler remoteId id))])
    | Some connectHandler =>
        (Async, Effect (emit (ConnectHandlerRun id msg o))
                :: map Call (connectHandler msg))
    end.

(** After the [await]: the promise of the connect handler has resolved to
    [userData] ([None]: a falsy value). *)
Definition connect_resolved (remoteId : string) (o : nat) (userData : option UserData) :
    M UdpSocket unit :=
  match userData with
  | Some ud =>
      (let* w := get in
       match streams w with
       | None => throw TypeError
       | Some m =>
           if bool_decide (is_Some (m !! remoteId))
           then on_stream o (end_ run_closure)
           else modify (set_streams (Some (<[remoteId := (o, ud)]> m)))
       end)%js
  | None => on_stream o (end_ run_closure)
  end.

(** The same place in the variant of the file that has [onOpen]. *)
Definition connect_resolved_onOpen (remoteId : string) (o : nat)
    (userData : option UserData) : M UdpSocket unit :=
  match userData with
  | Some ud =>
      (let* w := get in
       match streams w with
       | None => throw TypeError
       | Some m =>
           if bool_decide (is_Some (m !! remoteId))
           then on_stream o (end_ run_closure)
           else
             modify (set_streams (Some (<[remoteId := (o, ud)]> m))) ;;
             match openHandler w with
             | Some name => modify (emit (OpenHandlerRun name ud o))
             | None => ret tt
             end
       end)%js
  | None => on_stream o (end_ run_closure)
  end.

(** [connect(endpoint, version, message)] *)
Definition connect (endpoint : EndPoint) (version : Z) (message : Item) :
    M UdpSocket nat :=
  (let* w := get in
   let o := next_ref w in
   modify (fun w => set_next_ref (S o)
                      (set_heap (<[o := new_UdpStream endpoint version (ClientClose o)]>
                                   (heap w)) w)) ;;
   modify (set_stream (Some o)) ;;
   on_stream o (send run_closure (Some message)) ;;
   ret o)%js.

(** [handleMessage(data, rinfo)] *)
Definition handleMessage (data : list byte) (rinfo : EndPoint) : M UdpSocket unit :=
  match data with
  | [] => ret tt
  | type :: payload =>
      if byte_val type =? GENERAL then
        fun w =>
          let serializer := {| rversion := sversion w; rbytes := payload |} in
          match oracle_read serializer with
          | (Ok obj, _) =>
              let id := identify obj in
              match handlers w !! id with
              | Some handler => (Ok tt, emit (HandlerRun handler obj) w)
              | None => (Threw TypeError, w)
              end
          | (Threw e, _) => (Threw e, w)
          end
      else if byte_val type =? STREAM then
        (let* w := get in
         match stream w with
         | Some o => stream_receive o payload client_handler
         | None =>
             let remoteId := getEndPointId rinfo in
             match streams w with
             | None => throw TypeError
             | Some m =>
                 match m !! remoteId with
                 | None =>
                     let o := next_ref w in
                     modify (fun w =>
                               set_next_ref (S o)
                                 (set_heap (<[o := new_UdpStream rinfo 0
                                                      (ServerClose remoteId o)]>
                                              (heap w)) w)) ;;
                     stream_receive o payload (connect_handler remoteId o)
                 | Some (o, userData) =>
                     stream_receive o payload (server_handler userData o)
                 end
             end
         end)%js
      else ret tt
  end.

(** * The claims about the socket *)

(** C8. A [GENERAL] datagram that decodes to a message whose type has no
    general handler: [handleMessage] calls [undefined] and raises a
    [TypeError]; no error is reported through [raiseError], no handler runs,
    the state is as it was. *)
Theorem general_without_handler (w : UdpSocket) (type : byte) (payload : list byte)
    (rinfo : EndPoint) (obj : Item) (rest : Reader) :
  byte_val type = GENERAL ->
  oracle_read {| rversion := sversion w; rbytes := payload |} = (Ok obj, rest) ->
  handlers w !! identify obj = None ->
  handleMessage (type :: payload) rinfo w = (Threw TypeError, w).
Proof.
  intros Htype Hobj Hnone. unfold handleMessage.
  rewrite Htype. simpl. by rewrite Hobj, Hnone.
Qed.

Lemma handleClose_streams (userData : option UserData) (o : nat) (w : UdpSocket) :
  streams (handleClose userData o w) = streams w
  /\ heap (handleClose userData o w) = heap w.
Proof.
  unfold handleClose. destruct (closeHandler w); simpl;
    destruct (sclosing w); simpl; try done;
    match goal with |- context [no_stream_left ?x] => destruct (no_stream_left x) end;
    done.
Qed.

Definition is_open (ev : output) : bool :=
  match ev with OpenHandlerRun _ _ _ => true | _ => false end.

Lemma handleClose_out (userData : option UserData) (o : nat) (w : UdpSocket) :
  filter is_open (out (handleClose userData o w)) = filter is_open (out w).
Proof.
  unfold handleClose. destruct (closeHandler w); simpl;
    destruct (sclosing w); simpl;
    try match goal with |- context [no_stream_left ?x] => destruct (no_stream_left x) end;
    simpl; rewrite ?filter_app; simpl; by rewrite ?app_nil_r.
Qed.

(** A closure leaves the registrations as they are or removes one, touches no
    stream object and calls no open handler. *)
Lemma run_closure_spec (k : SockCb) (w : UdpSocket) (m : gmap string (nat * UserData)) :
  streams w = Some m ->
  let w' := snd (run_closure k w) in
  (exists m', streams w' = Some m' /\ m' ⊆ m)
  /\ heap w' = heap w
  /\ filter is_open (out w') = filter is_open (out w).
Proof.
  intros Hm. destruct k as [o|remoteId o]; simpl.
  - destruct (handleClose_streams None o (set_sclosing true (set_stream None w))) as [-> ->].
    rewrite handleClose_out. simpl. split; [|done]. by exists m.
  - rewrite Hm. destruct (m !! remoteId) as [[o' ud]|] eqn:Hl; simpl.
    + destruct (Nat.eqb o' o); simpl.
      * destruct (handleClose_streams (Some ud) o' (set_streams (Some (delete remoteId m)) w))
          as [-> ->].
        rewrite handleClose_out. simpl. split; [|done].
        exists (delete remoteId m). split; [done|]. apply delete_subseteq.
      * split; [|done]. by exists m.
    + split; [|done]. by exists m.
Qed.

(** [stream.end()] on the stream object [o], seen from the socket. *)
Lemma on_stream_end (o : nat) (w : UdpSocket) (m : gmap string (nat * UserData)) (s : SStream) :
  streams w = Some m ->
  heap w !! o = Some s ->
  let w' := snd (on_stream o (end_ run_closure) w) in
  (exists m', streams w' = Some m' /\ m' ⊆ m)
  /\ filter is_open (out w') = filter is_open (out w)
  /\ (exists s', heap w' !! o = Some s'
                 /\ closing s' = true /\ onClose s' = None
                 /\ sendHandle s' = HNull /\ retryHandle s' = HNull)
  /\ (forall o', o' <> o -> heap w' !! o' = heap w !! o').
Proof.
  intros Hm Hs. unfold on_stream. rewrite Hs. rewrite end_spec. simpl.
  destruct (onClose s) as [k|] eqn:Hk.
  - pose proof (run_closure_spec k w m Hm) as (Hsub & Hheap & Hout).
    destruct (run_closure k w) as [res w1]. simpl in *.
    split; [done|]. split; [done|]. rewrite Hheap. split.
    + eexists. rewrite lookup_insert_eq. done.
    + intros o' Hne. by rewrite lookup_insert_ne.
  - simpl. split; [by exists m|]. split; [done|]. split.
    + eexists. rewrite lookup_insert_eq. split; [done|]. simpl. by rewrite Hk.
    + intros o' Hne. by rewrite lookup_insert_ne.
Qed.

(** C9. When the promise of the connect handler of the provisional stream
    [o] resolves, the stream is registered under its remote (and, in the
    variant with [onOpen], the open handler called) only when the value is
    user data and the remote has no registration; in every other case the
    call is [stream.end()]: the stream is closing, its handles and [onClose]
    are cleared, nothing is registered and no open handler runs. Either way a
    registration that exists is kept or removed, never replaced by another
    stream. *)
Theorem connect_resolution (remoteId : string) (o : nat) (userData : option UserData)
    (w : UdpSocket) (m : gmap string (nat * UserData)) (s : SStream) :
  streams w = Some m ->
  heap w !! o = Some s ->
  (forall ud, userData = Some ud -> m !! remoteId = None ->
      let registered := set_streams (Some (<[remoteId := (o, ud)]> m)) w in
      connect_resolved remoteId o userData w = (Ok tt, registered)
      /\ connect_resolved_onOpen remoteId o userData w
         = (Ok tt, match openHandler w with
                   | Some name => emit (OpenHandlerRun name ud o) registered
                   | None => registered
                   end))
  /\ (userData = None \/ is_Some (m !! remoteId) ->
      let ended := on_stream o (end_ run_closure) w in
      connect_resolved remoteId o userData w = ended
      /\ connect_resolved_onOpen remoteId o userData w = ended
      /\ (exists s', heap (snd ended) !! o = Some s'
                     /\ closing s' = true /\ onClose s' = None
                     /\ sendHandle s' = HNull /\ retryHandle s' = HNull)
      /\ (exists m', streams (snd ended) = Some m' /\ m' ⊆ m)
      /\ filter is_open (out (snd ended)) = filter is_open (out w))
  /\ (forall resolve,
         resolve = connect_resolved \/ resolve = connect_resolved_onOpen ->
         exists m', streams (snd (resolve remoteId o userData w)) = Some m'
                    /\ forall rid e, m !! rid = Some e ->
                                     m' !! rid = Some e \/ m' !! rid = None).
Proof.
  intros Hm Hs.
  assert (Haccept : forall ud, userData = Some ud -> m !! remoteId = None ->
      let registered := set_streams (Some (<[remoteId := (o, ud)]> m)) w in
      connect_resolved remoteId o userData w = (Ok tt, registered)
      /\ connect_resolved_onOpen remoteId o userData w
         = (Ok tt, match openHandler w with
                   | Some name => emit (OpenHandlerRun name ud o) registered
                   | None => registered
                   end)).
  { intros ud -> Hfree registered.
    unfold connect_resolved, connect_resolved_onOpen, bind, get, modify, ret.
    rewrite Hm. rewrite bool_decide_eq_false_2 by (rewrite Hfree; by intros [? ?]).
    split; [done|]. by destruct (openHandler w). }
  assert (Hreject : userData = None \/ is_Some (m !! remoteId) ->
      connect_resolved remoteId o userData w = on_stream o (end_ run_closure) w
      /\ connect_resolved_onOpen remoteId o userData w = on_stream o (end_ run_closure) w).
  { intros Hcase. unfold connect_resolved, connect_resolved_onOpen, bind, get.
    destruct userData as [ud|]; [|done].
    destruct Hcase as [|Htaken]; [done|].
    rewrite Hm. by rewrite bool_decide_eq_true_2. }
  pose proof (on_stream_end o w m s Hm Hs) as (Hsub & Hout & Hended & _).
  split; [exact Haccept|]. split.
  - intros Hcase ended. destruct (Hreject Hcase) as [-> ->]. done.
  - intros resolve Hresolve.
    destruct userData as [ud|].
    + destruct (m !! remoteId) as [e0|] eqn:Hl.
      * destruct (Hreject (or_intror (ex_intro _ e0 eq_refl))) as [H1 H2].
        destruct Hsub as (m' & Hm' & Hle).
        exists m'. split; [by destruct Hresolve as [-> | ->]; rewrite ?H1, ?H2|].
        intros rid e He. destruct (m' !! rid) as [e'|] eqn:He'; [|by right].
        left. f_equal. pose proof (lookup_weaken _ _ _ _ He' Hle). congruence.
      * destruct (Haccept ud eq_refl eq_refl) as [H1 H2].
        exists (<[remoteId := (o, ud)]> m).
        split.
        { destruct Hresolve as [-> | ->]; rewrite ?H1, ?H2; [done|].
          by destruct (openHandler w). }
        intros rid e He. left. rewrite lookup_insert_ne; [done|]. congruence.
    + destruct (Hreject (or_introl eq_refl)) as [H1 H2].
      destruct Hsub as (m' & Hm' & Hle).
      exists m'. split; [by destruct Hresolve as [-> | ->]; rewrite ?H1, ?H2|].
      intros rid e He. destruct (m' !! rid) as [e'|] eqn:He'; [|by right].
      left. f_equal. pose proof (lookup_weaken _ _ _ _ He' Hle). congruence.
Qed.

(** * More about the socket *)

(** ** What goes out *)

Lemma transport_closed_emit (o : output) (w : UdpSocket) :
  transport_closed (emit o w)
  = transport_closed w || match o with TransportClosed => true | _ => false end.
Proof.
  unfold transport_closed, emit. cbn [out set_out].
  rewrite existsb_app. simpl. by rewrite orb_false_r.
Qed.

(** [sendStream] in one step: the tag, the ack, the entries that fit in what
    is left of the 1000 bytes, the terminator. *)
Lemma sendStream_unfold (s : SStream) (w : UdpSocket) :
  sendStream s w
  = if in_u16 (remoteSeq s)
    then
      let written := frame_items (version s) 997 (items s) in
      let body := [byte_of STREAM] ++ u16_encode (remoteSeq s)
                    ++ items_bytes (version s) written in
      let terminator :=
        if closing s && (length written =? length (items s))%nat then 65535 else 0 in
      if (length body + 2 <=? 1000)%nat
      then transport_send (remote s) (body ++ u16_encode terminator) w
      else (Threw RangeError, w)
    else (Threw RangeError, w).
Proof.
  assert (H8 : uint8_write STREAM (new_writer (version s) 1000)
               = (Ok tt, with_out (new_writer (version s) 1000) [byte_of STREAM]))
    by reflexivity.
  unfold sendStream. unfold bind at 1, on_writer at 1. cbn [fst snd].
  rewrite H8, serialize_unfold.
  replace (room (with_out (new_writer (version s) 1000) [byte_of STREAM]) 2)
    with true by reflexivity.
  rewrite andb_true_r. destruct (in_u16 (remoteSeq s)); [|reflexivity].
  cbv zeta. cbn [wversion wsize wout with_out new_writer].
  replace (1000 - length ([byte_of STREAM] ++ u16_encode (remoteSeq s)))%nat
    with 997%nat by (rewrite length_app, u16_encode_length; reflexivity).
  set (written := frame_items (version s) 997 (items s)).
  set (terminator := if closing s && _ then 65535 else 0).
  assert (Hterm : in_u16 terminator = true)
    by (subst terminator; by destruct (closing s && _)).
  unfold on_writer, uint16_write, room. cbn [fst snd wversion wsize wout with_out].
  rewrite Hterm. simpl andb. rewrite <- !app_assoc.
  destruct (_ <=? _)%nat; reflexivity.
Qed.


(** X9. [sendStream] does one of three things. On a transport that has not
    been closed, with a frame that fits, it returns, having sent one datagram
    to the stream's remote and changed nothing else: the tag 1, the ack, the
    pending entries that fit (in queue order, up to the first that does not)
    and the terminator, never more than 1000 bytes. When the ack is not a
    [u16] or the terminator does not fit after the entries it raises a
    [RangeError], whatever the state of the transport. On a transport that
    has been closed, with a frame that fits, the [send] of the transport
    raises. In both cases of raising nothing is sent and nothing changes. *)
Theorem sendStream_datagram (s : SStream) (w : UdpSocket) :
  let written := frame_items (version s) 997 (items s) in
  let terminator :=
    if closing s && (length written =? length (items s))%nat then 65535 else 0 in
  let data := [byte_of STREAM] ++ u16_encode (remoteSeq s)
                ++ items_bytes (version s) written ++ u16_encode terminator in
  let fits := in_u16 (remoteSeq s) && (length data <=? 1000)%nat in
  sendStream s w
  = if fits
    then if transport_closed w then (Threw NotRunning, w)
         else (Ok tt, emit (DatagramSent (remote s) data) w)
    else (Threw RangeError, w).
Proof.
  cbv zeta. rewrite sendStream_unfold. destruct (in_u16 (remoteSeq s)); [|done].
  cbv zeta. rewrite !length_app, !u16_encode_length. simpl andb.
  rewrite <- !app_assoc.
  unfold transport_send.
  repeat match goal with |- context [(?a <=? ?b)%nat] =>
           destruct (Nat.leb_spec a b) end;
    simpl length in *; try lia; reflexivity.
Qed.

(** [send(to, msg)] of the socket *)
Definition socket_send (to : EndPoint) (msg : Item) (w : UdpSocket) :
    outcome unit * UdpSocket :=
  let serializer := new_writer (sversion w) 1000 in
  match (uint8_write GENERAL ;; oracle_write msg)%js serializer with
  | (Ok _, serializer') => transport_send to (wout serializer') w
  | (Threw e, _) => (Threw e, w)
  end.

(** X10. A message sent with [send(to, msg)] goes out as one datagram of at
    most 1000 bytes; given to [handleMessage] of a socket whose oracle reads
    it back and that has a handler for the type of the message, it runs that
    handler, on that message, and nothing else happens there. *)
Theorem general_round_trip (w1 w1' w2 : UdpSocket) (to rinfo : EndPoint) (msg : Item)
    (name : nat) :
  oracle_round_trip (sversion w1) (sversion w2) ->
  socket_send to msg w1 = (Ok tt, w1') ->
  handlers w2 !! identify msg = Some name ->
  exists data,
    w1' = emit (DatagramSent to data) w1
    /\ (length data <= 1000)%nat
    /\ handleMessage data rinfo w2 = (Ok tt, emit (HandlerRun name msg) w2).
Proof.
  intros Horacle Hsend Hname. unfold socket_send in Hsend.
  assert (H8 : uint8_write GENERAL (new_writer (sversion w1) 1000)
               = (Ok tt, with_out (new_writer (sversion w1) 1000) [byte_of GENERAL]))
    by reflexivity.
  unfold bind in Hsend. rewrite H8 in Hsend.
  unfold oracle_write, bytes_write, room in Hsend.
  cbn [wversion wsize wout with_out new_writer] in Hsend.
  destruct (oracle_encode (sversion w1) msg) as [bs|] eqn:Hbs; [|discriminate].
  destruct (Nat.leb_spec (length [byte_of GENERAL] + length bs) 1000) as [Hfit|];
    [|discriminate].
  unfold transport_send in Hsend.
  destruct (transport_closed w1); [discriminate|].
  injection Hsend as <-. cbn [wout].
  exists ([byte_of GENERAL] ++ bs). split; [done|]. split.
  { rewrite length_app. exact Hfit. }
  change ([byte_of GENERAL] ++ bs) with (byte_of GENERAL :: bs).
  unfold handleMessage. rewrite byte_val_of by (unfold GENERAL; lia).
  rewrite Z.eqb_refl.
  rewrite <- (app_nil_r bs) at 1.
  rewrite (oracle_read_encode (sversion w2) msg bs [] (Horacle msg bs [] Hbs)).
  by rewrite Hname.
Qed.

(** ** What a datagram cannot do *)

(** [stable w w']: from [w] to [w'] the version and the handlers registered
    stay, the log of what happened only grows, streams are kept, dropped or
    created but none is registered under a remote, the client stream stays or
    is dropped, and a closing socket stays closing. *)
Definition stable (w w' : UdpSocket) : Prop :=
  sversion w' = sversion w
  /\ handlers w' = handlers w
  /\ streamHandlers w' = streamHandlers w
  /\ connectHandlers w' = connectHandlers w
  /\ openHandler w' = openHandler w
  /\ closeHandler w' = closeHandler w
  /\ (exists tl, out w' = out w ++ tl)
  /\ (next_ref w <= next_ref w')%nat
  /\ match streams w, streams w' with
     | Some m, Some m' => m' ⊆ m
     | None, None => True
     | _, _ => False
     end
  /\ (stream w' = stream w \/ stream w' = None)
  /\ (sclosing w = true -> sclosing w' = true).

Lemma stable_refl (w : UdpSocket) : stable w w.
Proof.
  repeat split; try done; [by exists []; rewrite app_nil_r| |by left].
  by destruct (streams w).
Qed.

Lemma stable_trans (w1 w2 w3 : UdpSocket) : stable w1 w2 -> stable w2 w3 -> stable w1 w3.
Proof.
  intros (A1 & A2 & A3 & A4 & A5 & A6 & (t1 & A7) & A8 & A9 & A10 & A11)
         (B1 & B2 & B3 & B4 & B5 & B6 & (t2 & B7) & B8 & B9 & B10 & B11).
  repeat split; try congruence; try lia.
  - exists (t1 ++ t2). by rewrite B7, A7, app_assoc.
  - destruct (streams w1), (streams w2), (streams w3); try done. by etrans.
  - destruct B10 as [B10|B10]; [rewrite B10; exact A10|by right].
  - auto.
Qed.

Lemma stable_emit (o : output) (w : UdpSocket) : stable w (emit o w).
Proof.
  repeat split; try done; simpl; [by eexists| |by left]. by destruct (streams w).
Qed.

Lemma stable_handleClose (userData : option UserData) (o : nat) (w : UdpSocket) :
  stable w (handleClose userData o w).
Proof.
  unfold handleClose.
  set (w1 := match closeHandler w with Some _ => _ | None => w end).
  assert (H1 : stable w w1)
    by (subst w1; destruct (closeHandler w); [apply stable_emit|apply stable_refl]).
  clearbody w1. destruct (sclosing w1); [|done].
  destruct (no_stream_left w1); [|done].
  eapply stable_trans; [exact H1|apply stable_emit].
Qed.

Lemma stable_run_closure (k : SockCb) (w : UdpSocket) : stable w (snd (run_closure k w)).
Proof.
  destruct k as [o|remoteId o]; simpl.
  - eapply stable_trans; [|apply stable_handleClose].
    repeat split; try done; simpl; [by exists []; rewrite app_nil_r| |by right].
    by destruct (streams w).
  - destruct (streams w) as [m|] eqn:Hm; simpl; [|apply stable_refl].
    destruct (m !! remoteId) as [[o' ud]|]; simpl; [|apply stable_refl].
    destruct (Nat.eqb o' o); simpl; [|apply stable_refl].
    eapply stable_trans; [|apply stable_handleClose].
    repeat split; try done; simpl; [by exists []; rewrite app_nil_r| |by left].
    rewrite Hm. apply delete_subseteq.
Qed.

Lemma stable_sendStream (s : SStream) (w : UdpSocket) : stable w (snd (sendStream s w)).
Proof.
  rewrite sendStream_unfold. destruct (in_u16 (remoteSeq s)); [|apply stable_refl].
  cbv zeta. destruct (_ <=? _)%nat; [|apply stable_refl].
  unfold transport_send. destruct (transport_closed w); [apply stable_refl|apply stable_emit].
Qed.

Definition stableC (c c' : SCtx) : Prop := stable (env c) (env c').

Lemma stableC_refl (c : SCtx) : stableC c c.
Proof. apply stable_refl. Qed.

Lemma stableC_trans (c1 c2 c3 : SCtx) : stableC c1 c2 -> stableC c2 c3 -> stableC c1 c3.
Proof. apply stable_trans. Qed.

Lemma stableC_on_env (f : UdpSocket -> outcome unit * UdpSocket) :
  (forall w, stable w (snd (f w))) -> preserves stableC (on_env f).
Proof.
  intros Hf c. unfold on_env, stableC. specialize (Hf (env c)).
  by destruct (f (env c)).
Qed.

Ltac stable_tac :=
  repeat match goal with
         | |- forall _, preserves _ _ => intros ?
         | |- preserves _ (if ?b then _ else _) => destruct b
         | |- preserves _ (match ?o with _ => _ end) => destruct o
         | |- preserves _ (bind _ _) =>
             apply preserves_bind; [exact stableC_trans| |]
         | |- preserves _ (try_catch _ _) =>
             apply preserves_try_catch; [exact stableC_trans| |]
         | |- preserves _ (ret _) => apply preserves_ret; exact stableC_refl
         | |- preserves _ get => apply preserves_get; exact stableC_refl
         | |- preserves _ (throw _) => apply preserves_throw; exact stableC_refl
         | |- preserves _ (modify (on_self _)) =>
             apply preserves_modify; intros ?; apply stable_refl
         | |- preserves _ (log _) =>
             apply preserves_modify; intros ?; apply stable_refl
         | |- preserves _ (on_env (run_closure _)) =>
             apply stableC_on_env, stable_run_closure
         | |- preserves _ (on_env (sendStream _)) =>
             apply stableC_on_env, stable_sendStream
         | |- _ => assumption
         end.

Lemma end_stable : preserves stableC (end_ run_closure).
Proof. unfold end_. stable_tac. Qed.

Lemma send_stable (item : option Item) : preserves stableC (send run_closure item).
Proof. pose proof end_stable. unfold send. stable_tac. Qed.

Lemma close_stable : preserves stableC (close run_closure).
Proof. pose proof (send_stable None). unfold close. stable_tac. Qed.

Lemma fire_retry_stable : preserves stableC (fire_retry run_closure).
Proof. pose proof (send_stable None). unfold fire_retry. stable_tac. Qed.

Lemma fire_immediate_stable : preserves stableC (fire_immediate sendStream).
Proof. unfold fire_immediate, send_callback. stable_tac. Qed.

Lemma run_api_stable (a : api) : preserves stableC (run_api run_closure a).
Proof.
  destruct a; simpl; [apply send_stable|apply close_stable|apply end_stable].
Qed.

(** Handlers whose effects are [stable]. *)
Definition tame (h : @Handler UdpSocket) : Prop :=
  forall (item : Item) (w : UdpSocket),
    Forall (fun a => match a with
                     | Effect f => forall w', stable w' (f w')
                     | _ => True
                     end) (snd (h item w)).

Lemma run_actions_stable (l : list action) :
  Forall (fun a => match a with
                   | Effect f => forall w', stable w' (f w')
                   | _ => True
                   end) l ->
  preserves stableC (run_actions run_closure l).
Proof.
  induction 1 as [|a l Ha _ IH]; simpl; [stable_tac|].
  apply preserves_bind; [exact stableC_trans| |intros _; exact IH].
  destruct a as [a|f|e]; simpl.
  - apply run_api_stable.
  - apply stableC_on_env. intros w. apply Ha.
  - stable_tac.
Qed.

Lemma call_handler_stable (h : Handler) (seq : Z) (item : Item) :
  tame h -> preserves stableC (call_handler run_closure h seq item).
Proof.
  intros Hh. unfold call_handler, handler_body.
  apply preserves_bind; [exact stableC_trans|stable_tac|intros _].
  apply preserves_bind; [exact stableC_trans|stable_tac|intros c].
  pose proof (Hh item (env c)) as Hl.
  destruct (h item (env c)) as [[|] l]; simpl in Hl.
  - by apply run_actions_stable.
  - apply preserves_try_catch; [exact stableC_trans| |stable_tac].
    by apply run_actions_stable.
Qed.

Ltac stableR_tac :=
  repeat match goal with
         | |- forall _, preservesR _ _ => intros ?
         | |- preservesR _ (if ?b then _ else _) => destruct b
         | |- preservesR _ (bind _ _) =>
             apply preservesR_bind; [exact stableC_trans| |]
         | |- preservesR _ (on_ctx _) => apply preservesR_on_ctx
         | |- preservesR _ (on_reader _) =>
             apply preservesR_on_reader; exact stableC_refl
         | |- preservesR _ (ret _) => apply preservesR_ret; exact stableC_refl
         | |- preservesR _ get => apply preservesR_get; exact stableC_refl
         | |- preservesR _ (throw _) => apply preservesR_throw; exact stableC_refl
         | |- preserves _ _ => progress stable_tac
         end.

Lemma receive_loop_stable (fuel : nat) (h : Handler) :
  tame h -> preservesR stableC (receive_loop run_closure fuel h).
Proof.
  intros Hh. pose proof (send_stable None). pose proof close_stable.
  pose proof (fun seq item => call_handler_stable h seq item Hh) as Hcall.
  induction fuel as [|fuel IH]; simpl; stableR_tac; try apply Hcall; exact IH.
Qed.

Lemma receive_stable (h : Handler) :
  tame h -> preservesR stableC (receive run_closure h).
Proof.
  intros Hh. pose proof end_stable.
  pose proof (fun fuel => receive_loop_stable fuel h Hh) as Hloop.
  unfold receive. stableR_tac; apply Hloop.
Qed.

Lemma stable_set_heap (v : gmap nat SStream) (w : UdpSocket) : stable w (set_heap v w).
Proof.
  repeat split; try done; simpl; [by exists []; rewrite app_nil_r| |by left].
  by destruct (streams w).
Qed.

Lemma on_stream_stable {A : Type} (o : nat) (m : M SCtx A) (w : UdpSocket) :
  preserves stableC m -> stable w (snd (on_stream o m w)).
Proof.
  intros Hm. unfold on_stream. destruct (heap w !! o) as [s|]; [|apply stable_refl].
  specialize (Hm {| self := s; env := w; trace := [] |}). unfold stableC in Hm.
  destruct (m _) as [r c]. simpl in *.
  eapply stable_trans; [exact Hm|apply stable_set_heap].
Qed.

Lemma stream_receive_stable (o : nat) (payload : list byte) (h : Handler) (w : UdpSocket) :
  tame h -> stable w (snd (stream_receive o payload h w)).
Proof.
  intros Hh. unfold stream_receive.
  destruct (heap w !! o) as [s|]; [|apply stable_refl].
  apply on_stream_stable. intros c.
  pose proof (receive_stable h Hh ({| rversion := version s; rbytes := payload |}, c))
    as Hr.
  simpl in Hr. by destruct (receive run_closure h _) as [r st].
Qed.

Lemma Forall_calls (P : @action UdpSocket -> Prop) (l : list api) :
  (forall a, P (Call a)) -> Forall P (map Call l).
Proof.
  intros HP. induction l as [|a l IH]; simpl; constructor; [apply HP|exact IH].
Qed.

Lemma client_handler_tame : tame client_handler.
Proof.
  intros item w. unfold client_handler.
  destruct (streamHandlers w !! identify item); simpl.
  - constructor; [intros w'; apply stable_emit|by apply Forall_calls].
  - constructor; [intros w'; apply stable_emit|constructor].
Qed.

Lemma server_handler_tame (userData : UserData) (o : nat) :
  tame (server_handler userData o).
Proof.
  intros item w. unfold server_handler.
  destruct (streamHandlers w !! identify item); simpl.
  - constructor; [intros w'; apply stable_emit|by apply Forall_calls].
  - constructor; [intros w'; apply stable_emit|constructor].
Qed.

Lemma connect_handler_tame (remoteId : string) (o : nat) :
  tame (connect_handler remoteId o).
Proof.
  intros item w. unfold connect_handler.
  destruct (connectHandlers w !! identify item); simpl.
  - constructor; [intros w'; apply stable_emit|by apply Forall_calls].
  - constructor; [done|]. constructor; [intros w'; apply stable_emit|constructor].
Qed.

Lemma stable_allocate (s : SStream) (w : UdpSocket) :
  stable w (set_next_ref (S (next_ref w)) (set_heap (<[next_ref w := s]> (heap w)) w)).
Proof.
  repeat split; try done; simpl; [by exists []; rewrite app_nil_r|lia| |by left].
  by destruct (streams w).
Qed.

(** X11. Whatever the datagram and wherever it comes from, after
    [handleMessage] (returned or raised) the socket has the version and the
    handlers it had, its log has only grown, no remote has been registered
    or registered anew (a registration is kept as it was or removed), the
    client stream is the one it was or is gone, and a closing socket is
    still closing: see [stable]. *)
Theorem datagram_keeps_registrations (data : list byte) (rinfo : EndPoint)
    (w : UdpSocket) :
  stable w (snd (handleMessage data rinfo w)).
Proof.
  unfold handleMessage. destruct data as [|type payload]; [apply stable_refl|].
  destruct (byte_val type =? GENERAL).
  { destruct (oracle_read _) as [[obj|e] r]; [|apply stable_refl].
    destruct (handlers w !! identify obj); [apply stable_emit|apply stable_refl]. }
  destruct (byte_val type =? STREAM); [|apply stable_refl].
  unfold bind at 1, get.
  destruct (stream w) as [o|].
  { apply stream_receive_stable, client_handler_tame. }
  destruct (streams w) as [m|]; [|apply stable_refl].
  destruct (m !! getEndPointId rinfo) as [[o ud]|].
  { apply stream_receive_stable, server_handler_tame. }
  unfold bind, modify.
  eapply stable_trans; [apply (stable_allocate
    (new_UdpStream rinfo 0 (ServerClose (getEndPointId rinfo) (next_ref w))))|].
  apply stream_receive_stable, connect_handler_tame.
Qed.

(** ** The end of a registered stream *)

(** [handleClose] in one step. *)
Lemma handleClose_spec (userData : option UserData) (o : nat) (w : UdpSocket) :
  handleClose userData o w
  = set_out (out w
             ++ match closeHandler w with
                | Some name => [CloseHandlerRun name userData o]
                | None => []
                end
             ++ (if sclosing w && no_stream_left w then [TransportClosed] else [])) w.
Proof.
  unfold handleClose, socket_end, emit, no_stream_left.
  destruct w as [v h sh ch oh [name|] st sts [|] hp nr ot]; simpl;
    rewrite ?app_nil_r; try reflexivity;
    destruct st; simpl; rewrite ?app_nil_r; try reflexivity;
    destruct sts as [m|]; simpl; rewrite ?app_nil_r, <- ?app_assoc; try reflexivity;
    destruct (bool_decide (size m = 0%nat)); simpl;
    rewrite ?app_nil_r, <- ?app_assoc; reflexivity.
Qed.

Lemma run_closure_server (remoteId : string) (o : nat) (ud : UserData)
    (m : gmap string (nat * UserData)) (w : UdpSocket) :
  streams w = Some m -> m !! remoteId = Some (o, ud) ->
  run_closure (ServerClose remoteId o) w
  = (Ok tt, handleClose (Some ud) o (set_streams (Some (delete remoteId m)) w)).
Proof. intros Hm Hreg. unfold run_closure. by rewrite Hm, Hreg, Nat.eqb_refl. Qed.

(** X12. The peer of a registered stream acknowledges its close (a frame
    whose ack is [0xFFFF]): [handleMessage] ends the stream, which removes
    the registration of the remote and calls the close handler, if there is
    one, once, with the user data of the registration; a closing socket with
    no stream left closes its transport. *)
Theorem close_ack_evicts (w : UdpSocket) (rinfo : EndPoint) (type : byte)
    (payload : list byte) (m : gmap string (nat * UserData)) (o : nat)
    (ud : UserData) (s : SStream) (rest : Reader) :
  byte_val type = STREAM ->
  stream w = None ->
  streams w = Some m ->
  m !! getEndPointId rinfo = Some (o, ud) ->
  heap w !! o = Some s ->
  onClose s = Some (ServerClose (getEndPointId rinfo) o) ->
  uint16_read {| rversion := version s; rbytes := payload |} = (Ok 65535, rest) ->
  let res := handleMessage (type :: payload) rinfo w in
  fst res = Ok tt
  /\ streams (snd res) = Some (delete (getEndPointId rinfo) m)
  /\ out (snd res)
     = out w
       ++ match closeHandler w with
          | Some name => [CloseHandlerRun name (Some ud) o]
          | None => []
          end
       ++ (if sclosing w && bool_decide (size (delete (getEndPointId rinfo) m) = 0%nat)
           then [TransportClosed] else [])
  /\ exists s', heap (snd res) !! o = Some s'
                /\ closing s' = true /\ onClose s' = None
                /\ sendHandle s' = HNull /\ retryHandle s' = HNull.
Proof.
  intros Htype Hstream Hstreams Hreg Hs Hk Hread res.
  assert (Heq : exists s',
             res = (Ok tt, set_heap (<[o := s']> (heap w))
                             (handleClose (Some ud) o
                                (set_streams (Some (delete (getEndPointId rinfo) m)) w)))
             /\ closing s' = true /\ onClose s' = None
             /\ sendHandle s' = HNull /\ retryHandle s' = HNull).
  { subst res. unfold handleMessage. rewrite Htype. simpl.
    unfold bind at 1, get. rewrite Hstream, Hstreams, Hreg.
    unfold stream_receive. rewrite Hs. unfold on_stream. rewrite Hs.
    rewrite (receive_unfold _ _ _ _ _ 65535 Hread). simpl.
    unfold on_ctx. simpl. rewrite end_spec. simpl. rewrite Hk.
    rewrite (run_closure_server _ o ud m w Hstreams Hreg). simpl.
    destruct (handleClose_streams (Some ud) o
                (set_streams (Some (delete (getEndPointId rinfo) m)) w)) as [_ ->].
    simpl. eexists. split; [reflexivity|]. done. }
  destruct Heq as (s' & -> & Hc & Hk' & Hh & Hr).
  rewrite handleClose_spec. unfold no_stream_left. simpl. rewrite Hstream.
  split; [done|]. split; [done|]. split; [done|].
  exists s'. by rewrite lookup_insert_eq.
Qed.

(** X13. The peer of the client stream acknowledges its close (a frame whose
    ack is [0xFFFF]): [handleMessage] ends the stream, the socket drops it
    and is closing from then on, the close handler, if there is one, is
    called once, without user data, and the transport is closed unless
    remotes are registered. *)
Theorem client_close_ack (w : UdpSocket) (rinfo : EndPoint) (type : byte)
    (payload : list byte) (o : nat) (s : SStream) (rest : Reader) :
  byte_val type = STREAM ->
  stream w = Some o ->
  heap w !! o = Some s ->
  onClose s = Some (ClientClose o) ->
  uint16_read {| rversion := version s; rbytes := payload |} = (Ok 65535, rest) ->
  let res := handleMessage (type :: payload) rinfo w in
  fst res = Ok tt
  /\ stream (snd res) = None
  /\ sclosing (snd res) = true
  /\ out (snd res)
     = out w
       ++ match closeHandler w with
          | Some name => [CloseHandlerRun name None o]
          | None => []
          end
       ++ (if match streams w with
              | Some m => bool_decide (size m = 0%nat)
              | None => true
              end
           then [TransportClosed] else [])
  /\ exists s', heap (snd res) !! o = Some s'
                /\ closing s' = true /\ onClose s' = None
                /\ sendHandle s' = HNull /\ retryHandle s' = HNull.
Proof.
  intros Htype Hstream Hs Hk Hread res.
  assert (Heq : exists s',
             res = (Ok tt, set_heap (<[o := s']> (heap w))
                             (handleClose None o (set_sclosing true (set_stream None w))))
             /\ closing s' = true /\ onClose s' = None
             /\ sendHandle s' = HNull /\ retryHandle s' = HNull).
  { subst res. unfold handleMessage. rewrite Htype. simpl.
    unfold bind at 1, get. rewrite Hstream.
    unfold stream_receive. rewrite Hs. unfold on_stream. rewrite Hs.
    rewrite (receive_unfold _ _ _ _ _ 65535 Hread). simpl.
    unfold on_ctx. simpl. rewrite end_spec. simpl. rewrite Hk.
    unfold run_closure.
    destruct (handleClose_streams None o (set_sclosing true (set_stream None w)))
      as [_ Hheap].
    cbn [fst snd self env]. rewrite Hheap. simpl.
    eexists. split; [reflexivity|]. done. }
  destruct Heq as (s' & -> & Hc & Hk' & Hh & Hr).
  rewrite handleClose_spec. unfold no_stream_left. simpl.
  split; [done|]. split; [done|]. split; [done|]. split; [done|].
  exists s'. by rewrite lookup_insert_eq.
Qed.

(** ** From [connect] to the connect handler *)

(** [connect] in one step. *)
Lemma connect_spec (endpoint : EndPoint) (version0 : Z) (message : Item) (w : UdpSocket) :
  connect endpoint version0 message w
  = let o := next_ref w in
    let s0 := new_UdpStream endpoint version0 (ClientClose o) in
    (Ok o,
     set_heap (<[o := set_sendHandle HPending (enqueue message s0)]>
                 (<[o := s0]> (heap w)))
       (set_stream (Some o) (set_next_ref (S o) (set_heap (<[o := s0]> (heap w)) w)))).
Proof.
  unfold connect, bind, get, modify, ret, on_stream. simpl.
  rewrite lookup_insert_eq. reflexivity.
Qed.

Lemma frame_items_single (ver : Z) (space : nat) (k : Z * Item) (b : list byte) :
  item_bytes ver k = Some b -> (length b <= space)%nat ->
  frame_items ver space [k] = [k] /\ items_bytes ver [k] = b.
Proof.
  intros Hb Hfit. unfold items_bytes. simpl. rewrite Hb. simpl.
  destruct (Nat.leb_spec (length b) space); [|lia]. by rewrite app_nil_r.
Qed.

(** The first datagram of a connection: ack 0, the connect message under
    sequence number 1, no close. *)
Definition first_frame (bs : list byte) : list byte :=
  u16_encode 0 ++ (u16_encode 1 ++ bs) ++ u16_encode 0.

Lemma connect_datagram (w : UdpSocket) (endpoint : EndPoint) (version0 : Z)
    (message : Item) (bs : list byte) :
  oracle_encode version0 message = Some bs -> (length bs <= 993)%nat ->
  transport_closed w = false ->
  let connected := snd (connect endpoint version0 message w) in
  out (snd (on_stream (next_ref w) (fire_immediate sendStream) connected))
  = out w ++ [DatagramSent endpoint ([byte_of STREAM] ++ first_frame bs)].
Proof.
  intros Hbs Hlen Hopen. rewrite connect_spec. cbv zeta. cbn [snd].
  unfold on_stream. cbn [heap set_heap]. rewrite lookup_insert_eq.
  rewrite fire_immediate_spec. cbn [self sendHandle set_sendHandle enqueue set_items
    set_localSeq new_UdpStream]. cbv zeta. cbn [env].
  rewrite sendStream_unfold.
  cbn [remoteSeq version items closing remote attempts localSeq
       set_attempts set_sendHandle enqueue set_items set_localSeq new_UdpStream app].
  change (0 + 1) with 1. change (in_u16 0) with true. cbv iota zeta.
  assert (Hk : item_bytes version0 (1, message) = Some (u16_encode 1 ++ bs))
    by (unfold item_bytes; simpl; by rewrite Hbs).
  destruct (frame_items_single version0 997 (1, message) _ Hk) as [-> ->].
  { rewrite length_app, u16_encode_length. lia. }
  simpl andb. cbv iota.
  match goal with |- context [(?a <=? 1000)%nat] =>
    destruct (Nat.leb_spec a 1000) as [_|Hbig] end.
  - unfold transport_send, transport_closed. cbn [out set_heap set_stream set_next_ref].
    fold (transport_closed w). rewrite Hopen.
    simpl. unfold first_frame. by rewrite <- !app_assoc.
  - simpl length in Hbig. rewrite !length_app, !u16_encode_length in Hbig. lia.
Qed.

Lemma connect_handler_call (remoteId : string) (o : nat) (seq : Z) (msg : Item)
    (ch : Item -> list api) (c : SCtx) :
  connectHandlers (env c) !! identify msg = Some ch ->
  exists c3,
    call_handler run_closure (connect_handler remoteId o) seq msg c = (Ok tt, c3)
    /\ remoteSeq (self c3) = remoteSeq (self c)
    /\ stable (emit (ConnectHandlerRun (identify msg) msg o) (env c)) (env c3).
Proof.
  intros Hch. unfold call_handler, bind at 1, log, modify. cbn [fst snd].
  unfold handler_body, bind at 1, get. cbn [env]. unfold connect_handler.
  rewrite Hch. cbn [run_actions run_action]. unfold try_catch, bind at 1, on_env.
  cbn [env self trace].
  set (c2 := {| self := self c;
                env := emit (ConnectHandlerRun (identify msg) msg o) (env c);
                trace := trace c ++ [HandlerCalled seq msg] |}).
  pose proof (run_actions_stable (map Call (ch msg))
                (Forall_calls _ _ (fun _ => I)) c2) as Hst.
  pose proof (run_actions_quiet run_closure (map Call (ch msg)) c2) as [Hq _].
  unfold stableC in Hst.
  destruct (run_actions run_closure (map Call (ch msg)) c2) as [[[]|e] c3];
    exists c3; done.
Qed.

Lemma first_frame_received (w : UdpSocket) (rinfo : EndPoint) (msg : Item)
    (bs : list byte) (vw : Z) (ch : Item -> list api) (o : nat) (k : SockCb) :
  oracle_round_trip vw 0 ->
  oracle_encode vw msg = Some bs ->
  connectHandlers w !! identify msg = Some ch ->
  exists c3,
    receive run_closure (connect_handler (getEndPointId rinfo) o)
      ({| rversion := 0; rbytes := first_frame bs |},
       {| self := new_UdpStream rinfo 0 k; env := w; trace := [] |})
    = (Ok tt, ({| rversion := 0; rbytes := [] |}, c3))
    /\ remoteSeq (self c3) = 1
    /\ stable (emit (ConnectHandlerRun (identify msg) msg o) w) (env c3).
Proof.
  intros Horacle Hbs Hch. unfold first_frame.
  rewrite (receive_to_loop _ _ _ _ _ 0
             (uint16_read_encode 0 0 _ eq_refl) ltac:(lia)).
  cbn [rbytes].
  set (fuel := length ((u16_encode 1 ++ bs) ++ u16_encode 0)).
  rewrite <- app_assoc.
  set (c1 := on_self (set_sendHandle HPending)
               (prepared 0 {| self := new_UdpStream rinfo 0 k; env := w; trace := [] |})).
  rewrite (receive_loop_new run_closure fuel _ _
             {| rversion := 0; rbytes := bs ++ u16_encode 0 |}
             {| rversion := 0; rbytes := u16_encode 0 |} _ c1 1 msg
             (uint16_read_encode 0 1 _ eq_refl) ltac:(lia) ltac:(lia));
    [|simpl; lia|reflexivity
     |apply (oracle_read_encode 0 msg bs _ (Horacle msg bs _ Hbs))].
  unfold bind at 1, on_ctx at 1. cbn [fst snd].
  destruct (connect_handler_call (getEndPointId rinfo) o 1 msg ch
              (on_self (set_remoteSeq 1) c1) Hch) as (c3 & Hcall & Hrs & Hst).
  rewrite Hcall. exists c3.
  assert (Hfuel : exists fuel', fuel = S fuel').
  { subst fuel. rewrite length_app, u16_encode_length.
    exists (length (u16_encode 1 ++ bs) + 1)%nat. lia. }
  destruct Hfuel as (fuel' & ->).
  rewrite <- (app_nil_r (u16_encode 0)).
  rewrite (receive_loop_end run_closure fuel' _ _ _ c3 (uint16_read_encode 0 0 [] eq_refl)).
  split; [done|]. split; [by rewrite Hrs|exact Hst].
Qed.

(** X14. A client whose transport is open connects and its first send comes
    due; the datagram reaches a listening socket that has no registration
    for the source and has a connect handler for the type of the message,
    and whose oracle reads under version 0 what the client wrote under its
    version. Then the
    client has sent one datagram, to the endpoint; the server creates a
    stream for the source and calls the connect handler, with the connect
    message and that stream, before anything else it logs; the new stream
    has taken sequence number 1; and nothing is registered yet. *)
Theorem connect_reaches_server (w1 w2 : UdpSocket) (endpoint rinfo : EndPoint)
    (version0 : Z) (msg : Item) (bs : list byte) (ch : Item -> list api)
    (m : gmap string (nat * UserData)) :
  oracle_round_trip version0 0 ->
  oracle_encode version0 msg = Some bs ->
  (length bs <= 993)%nat ->
  transport_closed w1 = false ->
  stream w2 = None ->
  streams w2 = Some m ->
  m !! getEndPointId rinfo = None ->
  connectHandlers w2 !! identify msg = Some ch ->
  let o1 := next_ref w1 in
  let o2 := next_ref w2 in
  let connected := connect endpoint version0 msg w1 in
  let sent := snd (on_stream o1 (fire_immediate sendStream) (snd connected)) in
  exists data,
    fst connected = Ok o1
    /\ stream (snd connected) = Some o1
    /\ out sent = out w1 ++ [DatagramSent endpoint data]
    /\ let res := handleMessage data rinfo w2 in
       fst res = Ok tt
       /\ (exists tl,
              out (snd res) = out w2 ++ ConnectHandlerRun (identify msg) msg o2 :: tl)
       /\ (exists s2, heap (snd res) !! o2 = Some s2 /\ remoteSeq s2 = 1)
       /\ (exists m', streams (snd res) = Some m' /\ m' ⊆ m).
Proof.
  intros Horacle Hbs Hlen Hopen Hstream Hstreams Hnone Hch o1 o2 connected sent.
  exists ([byte_of STREAM] ++ first_frame bs).
  split; [subst connected; by rewrite connect_spec|].
  split; [subst connected; by rewrite connect_spec|].
  split; [apply (connect_datagram w1 endpoint version0 msg bs Hbs Hlen Hopen)|].
  set (k := ServerClose (getEndPointId rinfo) o2).
  set (w2a := set_next_ref (S o2)
                (set_heap (<[o2 := new_UdpStream rinfo 0 k]> (heap w2)) w2)).
  destruct (first_frame_received w2a rinfo msg bs version0 ch o2 k Horacle Hbs Hch)
    as (c3 & Hrecv & Hrs & Hst).
  assert (Heq : handleMessage ([byte_of STREAM] ++ first_frame bs) rinfo w2
                = (Ok tt, set_heap (<[o2 := self c3]> (heap (env c3))) (env c3))).
  { change ([byte_of STREAM] ++ first_frame bs) with (byte_of STREAM :: first_frame bs).
    unfold handleMessage. rewrite byte_val_of by (unfold STREAM; lia).
    change (STREAM =? GENERAL) with false. change (STREAM =? STREAM) with true.
    cbv iota. unfold bind at 1, get. rewrite Hstream, Hstreams, Hnone.
    unfold bind, modify. fold o2. fold k. fold w2a.
    unfold stream_receive.
    assert (Hl : heap w2a !! o2 = Some (new_UdpStream rinfo 0 k))
      by (subst w2a; simpl; by rewrite lookup_insert_eq).
    rewrite Hl. unfold on_stream. rewrite Hl.
    change (version (new_UdpStream rinfo 0 k)) with 0.
    by rewrite Hrecv. }
  cbv zeta. rewrite Heq. cbn [fst snd out streams heap set_heap].
  destruct Hst as (_ & _ & _ & _ & _ & _ & (tl & Hout) & _ & Hsub & _).
  split; [done|]. split.
  { exists tl. rewrite Hout. simpl. by rewrite <- app_assoc. }
  split.
  { exists (self c3). by rewrite lookup_insert_eq. }
  simpl in Hsub. rewrite Hstreams in Hsub.
  destruct (streams (env c3)) as [m'|]; [|done]. by exists m'.
Qed.

(** ** An item nobody handles *)

(** X16. The client stream, none of whose sends has raised, receives a
    frame with one new item whose type has no stream handler: unlike a
    general message without a handler, nothing is raised; the error is
    reported through [raiseError] and that is all the socket does. The
    stream has taken the item all the same: [remoteSeq] is its sequence
    number and the send that carries the ack is pending, so the item will
    not be handed over again. *)
Theorem stream_item_without_handler (w : UdpSocket) (rinfo : EndPoint) (type : byte)
    (o : nat) (s : SStream) (ack seq : Z) (item : Item) (bs : list byte) :
  byte_val type = STREAM ->
  stream w = Some o ->
  heap w !! o = Some s ->
  sendHandle s <> HStale ->
  in_u16 ack = true -> ack <> 65535 ->
  remoteSeq s < seq -> 0 < seq < 65535 ->
  0 < maxAttempts s ->
  oracle_decode (version s) (bs ++ u16_encode 0) = Some (item, length bs) ->
  streamHandlers w !! identify item = None ->
  let frame := u16_encode ack ++ (u16_encode seq ++ bs) ++ u16_encode 0 in
  let res := handleMessage (type :: frame) rinfo w in
  fst res = Ok tt
  /\ out (snd res) = out w ++ [ErrorLogged (NoStreamHandler (identify item))]
  /\ exists s', heap (snd res) !! o = Some s'
                /\ remoteSeq s' = seq
                /\ sendHandle s' = HPending
                /\ items s' = shift_acked ack (items s).
Proof.
  intros Htype Hstream Hs Hlive Hack Hack' Hnew Hseq Hmax Hdec Hnone frame res.
  set (c0 := {| self := s; env := w; trace := [] |} : SCtx).
  pose proof (item_frame_received run_closure client_handler (version s) ack seq item
                bs c0 Hack Hack' Hnew Hseq Hmax Hdec) as Hrecv.
  cbv zeta in Hrecv.
  set (c1 := if truthy (sendHandle (self (prepared ack c0))) then prepared ack c0
             else on_self (set_sendHandle HPending) (prepared ack c0)) in Hrecv.
  assert (Hc1 : env c1 = w
                /\ sendHandle (self c1) = HPending
                /\ items (self c1) = shift_acked ack (items s)).
  { subst c1. unfold prepared. simpl.
    destruct (truthy (retryHandle s)); simpl;
      destruct (sendHandle s) eqn:Hh; simpl; rewrite ?Hh; done. }
  clearbody c1. destruct Hc1 as (He & Hh1 & Hi1).
  set (c3 := {| self := set_remoteSeq seq (self c1);
                env := raiseError (NoStreamHandler (identify item)) w;
                trace := trace c1 ++ [HandlerCalled seq item] |} : SCtx).
  assert (Hcall : call_handler run_closure client_handler seq item
                    (on_self (set_remoteSeq seq) c1) = (Ok tt, c3)).
  { unfold call_handler, handler_body, bind, log, modify, get.
    cbn [fst snd env on_self].
    unfold client_handler. rewrite He, Hnone. cbn [run_actions run_action].
    unfold bind, on_env, ret. cbn [env self trace on_self]. reflexivity. }
  rewrite Hcall in Hrecv.
  assert (Heq : res = (Ok tt, set_heap (<[o := self c3]> (heap (env c3))) (env c3))).
  { subst res. unfold handleMessage. rewrite Htype. simpl.
    unfold bind at 1, get. rewrite Hstream.
    unfold stream_receive. rewrite Hs. unfold on_stream. rewrite Hs.
    fold c0. subst frame. by rewrite Hrecv. }
  rewrite Heq. cbn [fst snd out heap set_heap].
  split; [done|]. split; [done|].
  exists (self c3). rewrite lookup_insert_eq. done.
Qed.

(** ** A frame from a stranger *)

(** What [handleMessage] does with a [STREAM] datagram when the socket has a
    client stream: [receive] of that stream on the payload, with the client
    handler; the outcome is that of [receive] and the stream object holds
    what [receive] left. The source of the datagram does not occur in it. *)
Lemma client_stream_receive (w : UdpSocket) (rinfo : EndPoint) (type : byte) (o : nat)
    (s : SStream) (payload : list byte) :
  byte_val type = STREAM ->
  stream w = Some o ->
  heap w !! o = Some s ->
  let res := receive run_closure client_handler
               ({| rversion := version s; rbytes := payload |},
                {| self := s; env := w; trace := [] |}) in
  let c' := snd (snd res) in
  handleMessage (type :: payload) rinfo w
  = (fst res, set_heap (<[o := self c']> (heap (env c'))) (env c')).
Proof.
  intros Htype Hstream Hs res c'. subst c' res.
  unfold handleMessage. rewrite Htype. simpl.
  unfold bind at 1, get. rewrite Hstream.
  unfold stream_receive. rewrite Hs. unfold on_stream. rewrite Hs.
  by destruct (receive run_closure client_handler _) as [r [rd c]].
Qed.

Lemma client_handler_call (seq : Z) (item : Item) (sh : Item -> list api) (c : SCtx) :
  streamHandlers (env c) !! identify item = Some sh ->
  let res := call_handler run_closure client_handler seq item c in
  remoteSeq (self (snd res)) = remoteSeq (self c)
  /\ stable (emit (StreamHandlerRun (identify item) item None (stream (env c))) (env c))
            (env (snd res)).
Proof.
  intros Hsh. cbv zeta.
  set (c2 := {| self := self c;
                env := emit (StreamHandlerRun (identify item) item None (stream (env c)))
                         (env c);
                trace := trace c ++ [HandlerCalled seq item] |}).
  assert (Hcall : call_handler run_closure client_handler seq item c
                  = run_actions run_closure (map Call (sh item)) c2).
  { unfold call_handler, bind at 1, log, modify. cbn [fst snd].
    unfold handler_body, bind at 1, get. cbn [env]. unfold client_handler.
    rewrite Hsh. cbn [run_actions run_action]. unfold bind at 1, on_env.
    cbn [env self trace]. reflexivity. }
  rewrite Hcall.
  pose proof (run_actions_stable (map Call (sh item))
                (Forall_calls _ _ (fun _ => I)) c2) as Hst.
  pose proof (run_actions_quiet run_closure (map Call (sh item)) c2) as [Hq _].
  unfold stableC in Hst.
  by destruct (run_actions run_closure (map Call (sh item)) c2) as [r c3].
Qed.

(** C10. On a socket with a client stream, [handleMessage] gives the payload
    of every [STREAM] datagram to [receive] of that stream, with the client
    handler, and stores what [receive] left in the stream object; the source
    address occurs in neither, and no hypothesis relates it to the remote of
    the stream. So, from any source: the stream drops the entries a frame
    acknowledges; and a frame with one new item of a type that has a stream
    handler runs that handler on the item, with the client stream, before
    anything else the socket logs, and the stream takes the sequence number
    of the item. *)
Theorem client_stream_any_source (w : UdpSocket) (rinfo : EndPoint) (type : byte)
    (o : nat) (s : SStream) :
  byte_val type = STREAM ->
  stream w = Some o ->
  heap w !! o = Some s ->
  (forall payload : list byte,
      let res := receive run_closure client_handler
                   ({| rversion := version s; rbytes := payload |},
                    {| self := s; env := w; trace := [] |}) in
      let c' := snd (snd res) in
      handleMessage (type :: payload) rinfo w
      = (fst res, set_heap (<[o := self c']> (heap (env c'))) (env c')))
  /\ (forall ack : Z,
         in_u16 ack = true -> ack <> 65535 ->
         let w' := snd (handleMessage (type :: u16_encode ack ++ u16_encode 0) rinfo w) in
         out w' = out w
         /\ exists s', heap w' !! o = Some s'
                       /\ items s' = shift_acked ack (items s)
                       /\ attempts s' = 0
                       /\ retryHandle s' = HNull)
  /\ (forall (ack seq : Z) (item : Item) (bs : list byte) (sh : Item -> list api),
         in_u16 ack = true -> ack <> 65535 ->
         remoteSeq s < seq -> 0 < seq < 65535 ->
         0 < maxAttempts s ->
         oracle_decode (version s) (bs ++ u16_encode 0) = Some (item, length bs) ->
         streamHandlers w !! identify item = Some sh ->
         let frame := u16_encode ack ++ (u16_encode seq ++ bs) ++ u16_encode 0 in
         let w' := snd (handleMessage (type :: frame) rinfo w) in
         (exists tl,
             out w' = out w ++ StreamHandlerRun (identify item) item None (Some o) :: tl)
         /\ exists s', heap w' !! o = Some s' /\ remoteSeq s' = seq).
Proof.
  intros Htype Hstream Hs.
  split; [intros payload; by apply client_stream_receive|].
  set (c0 := {| self := s; env := w; trace := [] |} : SCtx).
  split.
  - intros ack Hack Hack' w'. subst w'.
    rewrite (client_stream_receive w rinfo type o s _ Htype Hstream Hs). cbv zeta.
    fold c0.
    rewrite (receive_to_loop run_closure client_handler _ _ c0 ack
               (uint16_read_encode (version s) ack _ Hack) Hack').
    cbn [rbytes]. rewrite <- (app_nil_r (u16_encode 0)).
    rewrite (receive_loop_end run_closure _ client_handler _ _ _
               (uint16_read_encode (version s) 0 [] eq_refl)).
    cbn [fst snd out heap set_heap].
    assert (Hp : env (prepared ack c0) = w
                 /\ items (self (prepared ack c0)) = shift_acked ack (items s)
                 /\ attempts (self (prepared ack c0)) = 0
                 /\ retryHandle (self (prepared ack c0)) = HNull).
    { unfold prepared. simpl.
      destruct (retryHandle s) eqn:E; simpl; rewrite ?E; done. }
    destruct Hp as (He & Hi & Ha & Hr). rewrite He. split; [done|].
    exists (self (prepared ack c0)). by rewrite lookup_insert_eq.
  - intros ack seq item bs sh Hack Hack' Hnew Hseq Hmax Hdec Hsh frame w'.
    subst w' frame.
    rewrite (client_stream_receive w rinfo type o s _ Htype Hstream Hs). cbv zeta.
    fold c0.
    rewrite (item_frame_received run_closure client_handler (version s) ack seq item
               bs c0 Hack Hack' Hnew Hseq Hmax Hdec).
    set (c1 := if truthy (sendHandle (self (prepared ack c0))) then prepared ack c0
               else on_self (set_sendHandle HPending) (prepared ack c0)).
    assert (Hc1 : env c1 = w).
    { subst c1. unfold prepared. simpl.
      destruct (truthy (retryHandle s)); simpl;
        destruct (truthy (sendHandle s)) eqn:Hh; simpl; rewrite ?Hh; done. }
    clearbody c1.
    destruct (client_handler_call seq item sh (on_self (set_remoteSeq seq) c1))
      as (Hrs & Hst).
    { cbn [env on_self]. by rewrite Hc1. }
    cbn [env on_self self remoteSeq set_remoteSeq] in Hrs, Hst.
    rewrite Hc1, Hstream in Hst.
    destruct Hst as (_ & _ & _ & _ & _ & _ & (tl & Hout) & _).
    destruct (call_handler run_closure client_handler seq item
                (on_self (set_remoteSeq seq) c1)) as [[[]|e] c3];
      cbn [fst snd out heap set_heap] in *;
      (split; [exists tl; rewrite Hout; simpl; by rewrite <- app_assoc|]);
      exists (self c3); by rewrite lookup_insert_eq.
Qed.

(** ** [close()] of the socket

    [this.streams.forEach] visits the registrations in the order they were
    made, which the map of the model does not record: [socket_close] takes
    the remotes in that order as an argument, and what is proved of it holds
    for every order. An entry removed before its turn (by the [onClose]
    closure of a stream that ends) is passed over, as [forEach] does. *)
Fixpoint close_each (order : list string) : M UdpSocket unit :=
  match order with
  | [] => ret tt
  | remoteId :: rest =>
      (let* w := get in
       match streams w with
       | Some m =>
           match m !! remoteId with
           | Some (o, _) => on_stream o (close run_closure)
           | None => ret tt
           end
       | None => ret tt
       end ;;
       close_each rest)%js
  end.

Definition socket_close (order : list string) : M UdpSocket unit :=
  (let* w := get in
   if sclosing w then ret tt
   else
     modify (set_sclosing true) ;;
     (let* w := get in
      if no_stream_left w then modify socket_end else ret tt) ;;
     (let* w := get in
      match stream w with
      | Some o => on_stream o (close run_closure)
      | None => ret tt
      end) ;;
     (let* w := get in
      match streams w with
      | Some _ => close_each order
      | None => ret tt
      end))%js.

Lemma close_each_stable (order : list string) (w : UdpSocket) :
  stable w (snd (close_each order w)).
Proof.
  revert w. induction order as [|rid rest IH]; intros w; simpl; [apply stable_refl|].
  unfold bind at 1. unfold bind at 1, get.
  set (step := match streams w with Some m => _ | None => _ end).
  assert (Hstep : stable w (snd (step w))).
  { subst step. destruct (streams w) as [m|]; [|apply stable_refl].
    destruct (m !! rid) as [[o ud]|]; [|apply stable_refl].
    apply on_stream_stable, close_stable. }
  destruct (step w) as [[[]|e] w1]; simpl in *; [|exact Hstep].
  eapply stable_trans; [exact Hstep|apply IH].
Qed.

(** [close()] on a socket that is not closing yet, in one step. *)
Lemma socket_close_unfold (order : list string) (w : UdpSocket) :
  sclosing w = false ->
  socket_close order w
  = let w1 := set_sclosing true w in
    let w2 := if no_stream_left w1 then socket_end w1 else w1 in
    match match stream w2 with
          | Some o => on_stream o (close run_closure) w2
          | None => (Ok tt, w2)
          end with
    | (Ok _, w3) =>
        match streams w3 with
        | Some _ => close_each order w3
        | None => (Ok tt, w3)
        end
    | (Threw e, w3) => (Threw e, w3)
    end.
Proof.
  intros Hc. unfold socket_close, bind, get, modify, ret. rewrite Hc. cbv zeta.
  destruct (no_stream_left (set_sclosing true w));
    match goal with |- context [stream ?x] => destruct (stream x) end;
    try match goal with |- context [on_stream ?o ?m ?x] =>
          destruct (on_stream o m x) as [[[]|e] w3] end;
    try reflexivity;
    match goal with |- context [streams ?x] => destruct (streams x) end;
    reflexivity.
Qed.

(** X17. [close()] of the socket, whatever the order of the registrations
    and whether it returns or raises: the socket is closing afterwards, the
    version and the handlers are as they were, no remote has been registered
    (a registration is kept as it was or removed), the client stream is the
    one it was or is gone, and the log has only grown. On a socket that is
    closing already it does nothing. *)
Theorem socket_close_stable (order : list string) (w : UdpSocket) :
  stable w (snd (socket_close order w))
  /\ sclosing (snd (socket_close order w)) = true
  /\ (if sclosing w then socket_close order w = (Ok tt, w) else True).
Proof.
  destruct (sclosing w) eqn:Hc.
  { assert (Hnoop : socket_close order w = (Ok tt, w))
      by (unfold socket_close, bind at 1, get; by rewrite Hc).
    rewrite Hnoop. split; [apply stable_refl|]. by split. }
  rewrite (socket_close_unfold order w Hc). cbv zeta.
  set (w1 := set_sclosing true w).
  assert (H1 : stable w w1 /\ sclosing w1 = true).
  { split; [|done].
    repeat split; try done; simpl; [by exists []; rewrite app_nil_r| |by left].
    by destruct (streams w). }
  set (w2 := if no_stream_left w1 then socket_end w1 else w1).
  assert (H2 : stable w1 w2)
    by (subst w2; destruct (no_stream_left w1); [apply stable_emit|apply stable_refl]).
  set (step := match stream w2 with Some o => _ | None => _ end).
  assert (H3 : stable w2 (snd step)).
  { subst step. destruct (stream w2); [|apply stable_refl].
    apply on_stream_stable, close_stable. }
  assert (Hfinal : forall w', stable w2 w' -> stable w w' /\ sclosing w' = true).
  { intros w' H'. destruct H1 as [H1 Hc1].
    assert (Hw : stable w1 w') by (eapply stable_trans; [exact H2|exact H']).
    split; [eapply stable_trans; [exact H1|exact Hw]|].
    destruct Hw as (_ & _ & _ & _ & _ & _ & _ & _ & _ & _ & Hw). auto. }
  destruct step as [[[]|e] w3]; simpl in H3.
  - assert (H4 : stable w3 (snd (match streams w3 with
                                 | Some _ => close_each order w3
                                 | None => (Ok tt, w3)
                                 end))).
    { destruct (streams w3); [apply close_each_stable|apply stable_refl]. }
    destruct (Hfinal _ (stable_trans _ _ _ H3 H4)). done.
  - destruct (Hfinal _ H3). done.
Qed.



(** X19. [close()] on a client socket (no [listen]) whose stream is open and
    has a send pending, or none scheduled and fewer than five attempts
    behind it: the socket and the stream are closing, the stream is left
    with [maxAttempts] 5 and a send pending; the socket keeps the stream,
    its transport stays open, and nothing is sent or called yet. *)
Theorem socket_close_client (order : list string) (w : UdpSocket) (o : nat)
    (s : SStream) :
  sclosing w = false ->
  stream w = Some o ->
  streams w = None ->
  heap w !! o = Some s ->
  closing s = false ->
  sendHandle s = HPending \/ (sendHandle s = HNull /\ attempts s < 5) ->
  let s' := set_sendHandle HPending (set_maxAttempts 5 (set_closing true s)) in
  socket_close order w
  = (Ok tt, set_heap (<[o := s']> (heap w)) (set_sclosing true w))
  /\ closing s' = true /\ maxAttempts s' = 5 /\ sendHandle s' = HPending
  /\ out (set_heap (<[o := s']> (heap w)) (set_sclosing true w)) = out w.
Proof.
  intros Hc Hstream Hstreams Hs Hopen Hleft s'.
  split; [|done].
  rewrite (socket_close_unfold order w Hc). cbv zeta.
  assert (Hbusy : no_stream_left (set_sclosing true w) = false)
    by (unfold no_stream_left; simpl; by rewrite Hstream).
  rewrite Hbusy.
  assert (Hs1 : stream (set_sclosing true w) = Some o) by exact Hstream.
  rewrite Hs1. unfold on_stream.
  assert (Hh1 : heap (set_sclosing true w) !! o = Some s) by exact Hs.
  rewrite Hh1, close_spec. cbn [self]. rewrite Hopen, send_spec. cbv zeta.
  cbn [self on_self sendHandle attempts maxAttempts set_maxAttempts set_closing
       set_sendHandle env trace].
  destruct Hleft as [Hp|[Hn Hlt]].
  - rewrite Hp. simpl.
    assert (Hsame : set_maxAttempts 5 (set_closing true s) = s')
      by (subst s'; destruct s; simpl in *; by subst).
    by rewrite Hsame, Hstreams.
  - rewrite Hn. simpl.
    destruct (Z.geb_spec (attempts s) 5); [lia|]. simpl. by rewrite Hstreams.
Qed.

End Socket.
End Wire.

(** * Executions on a small oracle

    Messages are byte strings, encoded as their length in one byte followed
    by the bytes; the type of a message is its first byte. Integers are
    big-endian. *)

Definition demo_decode (ver : Z) (bs : list byte) : option (list byte * nat) :=
  match bs with
  | [] => None
  | n :: rest =>
      let len := Z.to_nat (byte_val n) in
      Some (take len rest, S len)
  end.

Definition demo_encode (ver : Z) (item : list byte) : option (list byte) :=
  if (length item <? 256)%nat
  then Some (byte_of (Z.of_nat (length item)) :: item)
  else None.

Definition demo_identify (item : list byte) : Z :=
  match item with
  | [] => 0
  | b :: _ => byte_val b
  end.

Abbreviation demo_socket := (@UdpSocket (list byte) unit).
Abbreviation demo_stream := (@UdpStream (list byte) SockCb).
Abbreviation demo_ctx := (@Ctx (list byte) SockCb demo_socket).

Definition demo_peer : EndPoint := {| port := 9000; address := "10.0.0.2" |}.
Definition demo_other : EndPoint := {| port := 4444; address := "10.6.6.6" |}.

(** A stream to [demo_peer], as [connect] constructs it. *)
Definition demo_start : demo_ctx :=
  constructed demo_peer 1 (ClientClose 0) (set_stream (Some 0%nat) (new_UdpSocket 1)).

(** A handler that does nothing but be called. *)
Definition demo_handler : @Handler (list byte) demo_socket :=
  fun _ _ => (Sync, []).

Definition demo_run (ops : list op) (c : demo_ctx) : demo_ctx :=
  run_ops true demo_decode run_closure (sendStream true demo_encode) ops c.

Definition demo_frame (bs : list byte) : Reader := {| rversion := 1; rbytes := bs |}.

(** [ack 0], [(1, "\007")], end. *)
Definition frame_1 : Reader :=
  demo_frame [x00; x00; x00; x01; x01; x07; x00; x00].

(** [ack 0], [(1, "\007")], [(2, "\008")], end: item 1 sent again, with the
    new item 2. *)
Definition frame_1_2 : Reader :=
  demo_frame [x00; x00; x00; x01; x01; x07; x00; x02; x01; x08; x00; x00].

(** C1. A stream that has received item 1 receives the frame that a sender
    with items 1 and 2 pending serializes: item 1 again, and item 2. The loop
    of [receive] drops the two bytes of the repeated sequence number and not
    the item after them: it goes on at the first byte of the encoding of
    item 1, reads [01 07] as sequence number 263, hands the handler an empty
    message decoded from the byte after it, reads [02 01] as sequence number
    513 and raises on what follows. Item 2 never reaches the handler and
    [remoteSeq] is 513. *)
Theorem receive_duplicate_then_new :
  let sender : demo_stream :=
    set_items [(1, [x07]); (2, [x08])] (new_UdpStream demo_other 1 (ClientClose 0)) in
  let c1 := demo_run [OpReceive frame_1 demo_handler] demo_start in
  let res := receive true demo_decode run_closure demo_handler (frame_1_2, c1) in
  wout (snd (snd (serialize true demo_encode (sender, new_writer 1 1000))))
  = rbytes frame_1_2
  /\ trace c1 = [HandlerCalled 1 [x07]]
  /\ remoteSeq (self c1) = 1
  /\ fst res = Threw RangeError
  /\ trace (snd (snd res)) = [HandlerCalled 1 [x07]; HandlerCalled 263 []]
  /\ remoteSeq (self (snd (snd res))) = 513.
Proof. vm_compute. repeat split. Qed.



(** ** The theorems at work *)

Definition demo_queue : list (Z * list byte) :=
  [(1, [x0a]); (2, [x0b; x0b; x0b; x0b; x0b; x0b]); (3, [x0c])].

Definition demo_pending : demo_stream :=
  set_items demo_queue (new_UdpStream demo_peer 1 (ClientClose 0)).

(** A buffer of ten bytes takes the ack and entry 1; entry 2 does not fit;
    entry 3 would, and is not tried. *)
Lemma serialize_raise_reverts_witness :
  let w := new_writer 1 10 in
  let before_2 := with_out w [x00; x00; x00; x01; x01; x0a] in
  items demo_pending = [(1, [x0a])] ++ (2, [x0b; x0b; x0b; x0b; x0b; x0b]) :: [(3, [x0c])]
  /\ fst (item_body true demo_encode (2, [x0b; x0b; x0b; x0b; x0b; x0b])
            (demo_pending, before_2)) = Threw RangeError
  /\ serialize true demo_encode (demo_pending, w)
     = (Ok tt, (demo_pending, with_out w [x00; x00; x00; x01; x01; x0a; x00; x00])).
Proof.
  intros w before_2. split; [reflexivity|]. split; [vm_compute; reflexivity|].
  destruct (serialize_raise_reverts true demo_encode demo_pending w
              (with_out w [x00; x00]) [(1, [x0a])] [(3, [x0c])]
              (2, [x0b; x0b; x0b; x0b; x0b; x0b]) RangeError
              eq_refl eq_refl eq_refl eq_refl) as [Hs _].
  rewrite Hs. vm_compute. reflexivity.
Defined.

(** An ack of 2 removes entries 1 and 2 and keeps entry 3. *)
Lemma receive_ack_witness :
  let c := on_self (set_items demo_queue) demo_start in
  let frame := demo_frame [x00; x02; x00; x00] in
  uint16_read true frame = (Ok 2, demo_frame [x00; x00])
  /\ items (self (snd (snd (receive true demo_decode run_closure demo_handler (frame, c)))))
     = [(3, [x0c])].
Proof.
  intros c frame.
  assert (Hread : uint16_read true frame = (Ok 2, demo_frame [x00; x00]))
    by (vm_compute; reflexivity).
  split; [exact Hread|].
  destruct (receive_ack true demo_decode run_closure demo_handler frame
              (demo_frame [x00; x00]) c 2 Hread) as (_ & _ & Hloop).
  rewrite Hloop by lia. vm_compute. reflexivity.
Defined.

(** The close sentinel, with bytes after it that stay unread. *)
Lemma receive_close_sentinel_witness :
  let frame := demo_frame [xff; xff; x00; x05; x01; x07] in
  let res := receive_loop true demo_decode run_closure 4 demo_handler (frame, demo_start) in
  uint16_read true frame = (Ok 65535, demo_frame [x00; x05; x01; x07])
  /\ fst (snd res) = demo_frame [x00; x05; x01; x07]
  /\ remoteSeq (self (snd (snd res))) = 65535
  /\ closing (self (snd (snd res))) = true
  /\ maxAttempts (self (snd (snd res))) = 1.
Proof.
  intros frame res.
  assert (Hread : uint16_read true frame = (Ok 65535, demo_frame [x00; x05; x01; x07]))
    by (vm_compute; reflexivity).
  split; [exact Hread|].
  destruct (receive_close_sentinel true demo_decode run_closure 3 demo_handler frame
              (demo_frame [x00; x05; x01; x07]) demo_start Hread)
    as (Hr & Hs & Hc & _ & Hm & Hok & _).
  split; [exact Hr|]. split; [exact Hs|]. split; [exact Hc|].
  apply Hm, Hok. vm_compute. reflexivity.
Defined.

(** A stream after [close()] and the send that [close()] scheduled. *)
Definition demo_closing : demo_ctx := demo_run [OpClose; OpImmediate] demo_start.

Lemma send_while_closing_witness :
  closing (self demo_closing) = true
  /\ send run_closure (Some [x05]) demo_closing = send run_closure None demo_closing
  /\ items (self (snd (send run_closure (Some [x05]) demo_closing))) = []
  /\ localSeq (self (snd (send run_closure (Some [x05]) demo_closing))) = 0.
Proof.
  assert (Hc : closing (self demo_closing) = true) by (vm_compute; reflexivity).
  split; [exact Hc|].
  destruct (send_while_closing run_closure [x05] demo_closing Hc)
    as (Hsend & Hitems & Hseq & _).
  split; [exact Hsend|]. split; [rewrite Hitems|rewrite Hseq]; vm_compute; reflexivity.
Defined.

(** C6, as stated, fails: on this closing stream no send is scheduled, and
    [send(item)] schedules one; and once [attempts] has reached [maxAttempts]
    [send(item)] ends the stream and calls [onClose]. *)
Lemma send_while_closing_not_noop :
  let c := demo_closing in
  let c' := snd (send run_closure (Some [x05]) c) in
  let spent := demo_run [OpRetry; OpImmediate; OpRetry; OpImmediate; OpRetry;
                         OpImmediate; OpRetry; OpImmediate] demo_closing in
  let spent' := snd (send run_closure (Some [x05]) spent) in
  (closing (self c) = true /\ sendHandle (self c) = HNull
   /\ sendHandle (self c') = HPending)
  /\ (closing (self spent) = true /\ closes (trace spent) = 0%nat
      /\ closes (trace spent') = 1%nat /\ stream (env spent') = None).
Proof. vm_compute. repeat split. Qed.

(** A socket with a general handler for type 5 only receives a message of
    type 9. *)
Definition demo_general : demo_socket := on 5 0%nat (new_UdpSocket 1).

Lemma general_without_handler_witness :
  byte_val x00 = GENERAL
  /\ handlers demo_general !! demo_identify [x09] = None
  /\ handleMessage true demo_decode demo_identify [x00; x01; x09] demo_other demo_general
     = (Threw TypeError, demo_general).
Proof.
  split; [reflexivity|]. split; [vm_compute; reflexivity|].
  apply (general_without_handler true demo_decode demo_identify demo_general
           x00 [x01; x09] demo_other [x09] (demo_frame [])).
  - reflexivity.
  - vm_compute. reflexivity.
  - vm_compute. reflexivity.
Defined.

(** A listening socket with a connect handler for type 7 receives the first
    frame of a new remote, twice before the handler's promise resolves. *)
Definition demo_connect_datagram : list byte :=
  [x01; x00; x00; x00; x01; x01; x07; x00; x00].

Definition demo_listening : demo_socket :=
  onConnect 7 (fun _ => []) (listen (new_UdpSocket 1)).

Definition demo_one_pending : demo_socket :=
  snd (handleMessage true demo_decode demo_identify demo_connect_datagram demo_peer
         demo_listening).

Definition demo_two_pending : demo_socket :=
  snd (handleMessage true demo_decode demo_identify demo_connect_datagram demo_peer
         demo_one_pending).

Definition demo_provisional : demo_stream :=
  default (new_UdpStream demo_peer 0 (ServerClose "10.0.0.2:9000" 0))
          (heap demo_two_pending !! 0%nat).

Lemma connect_resolution_witness :
  streams demo_two_pending = Some ∅
  /\ heap demo_two_pending !! 0%nat = Some demo_provisional
  /\ connect_resolved "10.0.0.2:9000" 0 (Some tt) demo_two_pending
     = (Ok tt, set_streams (Some (<["10.0.0.2:9000" := (0%nat, tt)]> ∅)) demo_two_pending).
Proof.
  assert (Hm : streams demo_two_pending = Some ∅) by (vm_compute; reflexivity).
  assert (Hs : heap demo_two_pending !! 0%nat = Some demo_provisional)
    by (vm_compute; reflexivity).
  split; [exact Hm|]. split; [exact Hs|].
  destruct (connect_resolution "10.0.0.2:9000" 0 (Some tt) demo_two_pending ∅
              demo_provisional Hm Hs) as (Haccept & _).
  apply (Haccept tt eq_refl). reflexivity.
Defined.

(** The race of the two provisional streams: the first resolution registers
    stream 0, the second ends stream 1 and leaves the registration alone. *)
Example connect_race :
  let w1 := snd (connect_resolved "10.0.0.2:9000" 0 (Some tt) demo_two_pending) in
  let w2 := snd (connect_resolved "10.0.0.2:9000" 1 (Some tt) w1) in
  out demo_two_pending = [ConnectHandlerRun 7 [x07] 0; ConnectHandlerRun 7 [x07] 1]
  /\ streams w2 = Some (<["10.0.0.2:9000" := (0%nat, tt)]> ∅)
  /\ closing <$> heap w2 !! 0%nat = Some false
  /\ closing <$> heap w2 !! 1%nat = Some true
  /\ out w2 = out demo_two_pending.
Proof. vm_compute. repeat split. Qed.

(** With a close handler and an open handler set, in the variant: the
    accepted stream is announced, and a teardown frame ([ack 0xFFFF]) from its
    remote evicts it and calls the close handler. *)
Example connect_and_teardown :
  let w0 := snd (onOpen 1 (snd (socket_onClose 2 demo_one_pending))) in
  let w1 := snd (connect_resolved_onOpen "10.0.0.2:9000" 0 (Some tt) w0) in
  let w2 := snd (handleMessage true demo_decode demo_identify [x01; xff; xff] demo_peer w1) in
  streams w1 = Some (<["10.0.0.2:9000" := (0%nat, tt)]> ∅)
  /\ out w1 = [ConnectHandlerRun 7 [x07] 0; OpenHandlerRun 1 tt 0]
  /\ streams w2 = Some ∅
  /\ out w2 = out w1 ++ [CloseHandlerRun 2 (Some tt) 0]
  /\ closing <$> heap w2 !! 0%nat = Some true.
Proof. vm_compute. repeat split. Qed.

(** A rejection with nobody registered: the stream is ended, and its
    [onClose] closure, which finds no entry for the remote, raises inside the
    [async] handler. *)
Example connect_rejected :
  let res := connect_resolved "10.0.0.2:9000" 0 None demo_one_pending in
  fst res = Threw TypeError
  /\ closing <$> heap (snd res) !! 0%nat = Some true
  /\ onClose <$> heap (snd res) !! 0%nat = Some None
  /\ streams (snd res) = Some ∅.
Proof. vm_compute. repeat split. Qed.

(** A client socket connected to [demo_peer], with a stream handler for
    type 5, receives a stream frame from [demo_other]. *)
Definition demo_client : demo_socket :=
  snd (connect demo_peer 1 [x05] (onStream 5 (fun _ => []) (new_UdpSocket 1))).

Definition demo_stream_datagram : list byte :=
  [x01; x00; x00; x00; x01; x01; x05; x00; x00].

(** The frame of the stranger is handled as one of the connected remote. *)
Example client_stream_foreign_frame :
  let w := snd (handleMessage true demo_decode demo_identify demo_stream_datagram
                  demo_other demo_client) in
  remote <$> heap demo_client !! 0%nat = Some demo_peer
  /\ out w = [StreamHandlerRun 5 [x05] None (Some 0%nat)]
  /\ remoteSeq <$> heap w !! 0%nat = Some 1.
Proof. vm_compute. repeat split. Qed.

(** With the handler registered the same datagram is delivered. *)
Example general_with_handler :
  out (snd (handleMessage true demo_decode demo_identify [x00; x01; x09] demo_other
              (on 9 3%nat demo_general)))
  = [HandlerRun 3 [x09]].
Proof. vm_compute. reflexivity. Qed.

(** ** A connection, end to end

    A client connects with a message of type 7; its first frame reaches a
    listening server, whose connect handler accepts; the server's
    acknowledgement empties the client's queue. *)
Definition demo_immediate (o : nat) : M demo_socket unit :=
  on_stream o (fire_immediate (sendStream true demo_encode)).

Definition last_datagram (w : demo_socket) : list byte :=
  match last (out w) with
  | Some (DatagramSent _ data) => data
  | _ => []
  end.

Example demo_handshake :
  let client1 := snd (connect demo_peer 1 [x07] (new_UdpSocket 1)) in
  let client2 := snd (demo_immediate 0 client1) in
  let frame := last_datagram client2 in
  let server1 := snd (handleMessage true demo_decode demo_identify frame demo_other
                        demo_listening) in
  let server2 := snd (connect_resolved "10.6.6.6:4444" 0 (Some tt) server1) in
  let server3 := snd (demo_immediate 0 server2) in
  let reply := last_datagram server3 in
  let client3 := snd (handleMessage true demo_decode demo_identify reply demo_peer
                        client2) in
  frame = [x01; x00; x00; x00; x01; x01; x07; x00; x00]
  /\ out server1 = [ConnectHandlerRun 7 [x07] 0]
  /\ streams server2 = Some (<["10.6.6.6:4444" := (0%nat, tt)]> ∅)
  /\ reply = [x01; x00; x01; x00; x00]
  /\ items <$> heap client2 !! 0%nat = Some [(1, [x07])]
  /\ items <$> heap client3 !! 0%nat = Some []
  /\ retryHandle <$> heap client3 !! 0%nat = Some HNull.
Proof. vm_compute. repeat split. Qed.

(** ** More executions *)

Lemma demo_oracle_round_trip (vw vr : Z) :
  oracle_round_trip demo_decode demo_encode vw vr.
Proof.
  intros it bs rest Henc. unfold demo_encode in Henc.
  destruct (Nat.ltb_spec (length it) 256) as [Hlen|]; [|discriminate].
  injection Henc as <-. unfold demo_decode. simpl.
  rewrite byte_val_of by lia. rewrite Nat2Z.id.
  by rewrite take_app_length.
Qed.

Lemma demo_handler_calm : calm run_closure demo_handler.
Proof. intros it c. reflexivity. Qed.

(** A closing stream with item 1 pending is given another item, which it
    refuses, and an ack of 1, which empties its queue. *)
Lemma closing_only_drains_witness :
  let c := demo_run [OpSend (Some [x07]); OpClose] demo_start in
  let ops := [OpSend (Some [x08]); OpReceive (demo_frame [x00; x01; x00; x00]) demo_handler] in
  closing (self c) = true
  /\ items (self c) = [(1, [x07])]
  /\ items (self (demo_run ops c)) = []
  /\ (closing (self (demo_run ops c)) = true
      /\ localSeq (self (demo_run ops c)) = localSeq (self c)
      /\ exists acked, items (self c) = acked ++ items (self (demo_run ops c))).
Proof.
  intros c ops. split; [reflexivity|]. split; [reflexivity|].
  split; [vm_compute; reflexivity|].
  apply (closing_only_drains true demo_decode run_closure (sendStream true demo_encode)
           ops c).
  reflexivity.
Defined.

(** Four items that fill the datagram up to its last byte: the terminator
    does not fit, [sendStream] raises, and the stream is stuck. *)
Definition demo_full : demo_ctx :=
  demo_run (map (fun it => OpSend (Some it))
              [replicate 255 x00; replicate 255 x00; replicate 255 x00;
               replicate 219 x00])
           demo_start.

Lemma failed_send_wedges_witness :
  let ops := [OpRetry; OpSend (Some [x01]); OpClose; OpImmediate; OpRetry] in
  let c' := demo_run (OpImmediate :: ops) demo_full in
  sendHandle (self demo_full) = HPending
  /\ length (items (self demo_full)) = 4%nat
  /\ sendHandle (self c') = HStale
  /\ env c' = env demo_full
  /\ trace c' = trace demo_full
  /\ attempts (self c') = attempts (self demo_full) + 1.
Proof.
  intros ops c'.
  assert (Hthrew : sendStream true demo_encode
                     (set_attempts (attempts (self demo_full) + 1)
                        (set_sendHandle HStale (self demo_full))) (env demo_full)
                   = (Threw RangeError, env demo_full)) by (vm_compute; reflexivity).
  assert (Hp : sendHandle (self demo_full) = HPending) by (vm_compute; reflexivity).
  split; [exact Hp|]. split; [vm_compute; reflexivity|].
  pose proof (failed_send_wedges true demo_decode run_closure (sendStream true demo_encode)
                demo_full RangeError (env demo_full) ops Hp Hthrew) as H.
  specialize (H eq_refl). cbv zeta in H. exact H.
Defined.

(** Three items on a new stream. *)
Lemma sends_are_numbered_witness :
  let c' := demo_run (map (fun it => OpSend (Some it)) [[x07]; [x08]; [x09]]) demo_start in
  items (self c') = [(1, [x07]); (2, [x08]); (3, [x09])]
  /\ localSeq (self c') = 3
  /\ sendHandle (self c') = HPending
  /\ env c' = env demo_start
  /\ trace c' = [].
Proof.
  intros c'.
  destruct (sends_are_numbered true demo_decode run_closure (sendStream true demo_encode)
              [[x07]; [x08]; [x09]] demo_start eq_refl eq_refl ltac:(discriminate))
    as (Hi & Hl & Hh & He & Ht).
  repeat split; assumption.
Defined.

(** One item, never acknowledged: ten sends, then [onClose]. *)
Definition demo_unanswered : demo_ctx := demo_run [OpSend (Some [x07])] demo_start.

Lemma gives_up_after_max_attempts_witness :
  let c' := demo_run (retry_rounds 10) demo_unanswered in
  sendHandle (self demo_unanswered) = HPending
  /\ items (self demo_unanswered) = [(1, [x07])]
  /\ attempts (self (demo_run (retry_rounds 9) demo_unanswered)) = 9
  /\ retryInterval (self (demo_run (retry_rounds 9) demo_unanswered)) = 3000
  /\ trace (demo_run (retry_rounds 9) demo_unanswered) = []
  /\ onClose (self c') = None
  /\ closing (self c') = true
  /\ attempts (self c') = 10
  /\ trace c' = [OnCloseCalled (ClientClose 0)].
Proof.
  intros c'.
  set (running := fun e : demo_socket => transport_closed e = false).
  assert (Hsend : forall (s' : demo_stream) (e : demo_socket),
             same_frame (self demo_unanswered) s' -> running e ->
             fst (sendStream true demo_encode s' e) = Ok tt
             /\ running (snd (sendStream true demo_encode s' e))).
  { intros s' e (Hi & Hr & Hc & Hv & _) Hopen. unfold running in *.
    rewrite sendStream_unfold. rewrite Hi, Hr, Hc, Hv.
    change (in_u16 (remoteSeq (self demo_unanswered))) with true. cbv iota zeta.
    match goal with |- context [(?a <=? 1000)%nat] =>
      change (a <=? 1000)%nat with true end.
    cbv iota. unfold transport_send. rewrite Hopen. cbn [fst snd].
    split; [reflexivity|]. by rewrite transport_closed_emit, Hopen. }
  assert (Hrun : running (env demo_unanswered)) by (vm_compute; reflexivity).
  assert (Hp : sendHandle (self demo_unanswered) = HPending)
    by (vm_compute; reflexivity).
  assert (Hi : items (self demo_unanswered) = [(1, [x07])])
    by (vm_compute; reflexivity).
  assert (Hk0 : onClose (self demo_unanswered) = Some (ClientClose 0))
    by (vm_compute; reflexivity).
  assert (Hri : retryInterval (self demo_unanswered) = 500 * 1)
    by (vm_compute; reflexivity).
  assert (Hn : attempts (self demo_unanswered) + Z.of_nat 10
               = maxAttempts (self demo_unanswered)) by (vm_compute; reflexivity).
  assert (Hne : items (self demo_unanswered) <> []) by (rewrite Hi; discriminate).
  pose proof (gives_up_after_max_attempts true demo_decode run_closure
                (sendStream true demo_encode) running demo_unanswered (ClientClose 0) 9 1
                Hsend Hrun Hp (or_introl Hne) Hk0 Hri ltac:(lia) Hn) as [Halive Hend].
  cbv zeta in Hend. destruct Hend as (Hk & Hc & _ & _ & Ha & _ & Ht).
  destruct (Halive 9%nat (le_n 9)) as (_ & _ & Ha9 & Hri9 & _ & Ht9).
  subst c'. unfold demo_run.
  split; [exact Hp|]. split; [exact Hi|].
  split; [rewrite Ha9; vm_compute; reflexivity|].
  split; [rewrite Hri9; reflexivity|].
  split; [rewrite Ht9; vm_compute; reflexivity|].
  split; [exact Hk|]. split; [exact Hc|].
  split; [rewrite Ha; vm_compute; reflexivity|rewrite Ht; vm_compute; reflexivity].
Defined.

(** The frame of a sender with items 1, 2 and 3 pending, received by a new
    stream. *)
Lemma frame_round_trip_witness :
  let w' := snd (snd (serialize true demo_encode (demo_pending, new_writer 1 1000))) in
  let res := receive true demo_decode run_closure demo_handler
               ({| rversion := 1; rbytes := wout w' |}, demo_start) in
  wout w' = [x00; x00; x00; x01; x01; x0a;
             x00; x02; x06; x0b; x0b; x0b; x0b; x0b; x0b;
             x00; x03; x01; x0c; x00; x00]
  /\ fst res = Ok tt
  /\ rbytes (fst (snd res)) = []
  /\ handed (trace (snd (snd res))) = demo_queue
  /\ remoteSeq (self (snd (snd res))) = 3.
Proof.
  intros w' res. split; [vm_compute; reflexivity|].
  assert (Hser : serialize true demo_encode (demo_pending, new_writer 1 1000)
                 = (Ok tt, (demo_pending, w'))) by (vm_compute; reflexivity).
  destruct (frame_round_trip true demo_decode demo_encode run_closure demo_handler
              demo_pending 1 1 1000 w' demo_start
              (demo_oracle_round_trip 1 1) demo_handler_calm Hser
              ltac:(discriminate) ltac:(simpl; lia) ltac:(simpl; lia) ltac:(simpl; lia))
    as (Hok & Hrest & Hhanded & Hrs).
  repeat split; assumption.
Defined.

(** A general message of type 7 from one socket to another that handles
    type 7. *)
Lemma general_round_trip_witness :
  let w1 : demo_socket := new_UdpSocket 1 in
  let w2 : demo_socket := on 7 0%nat (new_UdpSocket 1) in
  let sent := socket_send demo_encode demo_peer [x07; x2a] w1 in
  sent = (Ok tt, emit (DatagramSent demo_peer [x00; x02; x07; x2a]) w1)
  /\ exists data,
       snd sent = emit (DatagramSent demo_peer data) w1
       /\ (length data <= 1000)%nat
       /\ handleMessage true demo_decode demo_identify data demo_other w2
          = (Ok tt, emit (HandlerRun 0 [x07; x2a]) w2).
Proof.
  intros w1 w2 sent.
  assert (Hsent : sent = (Ok tt, snd sent)) by (vm_compute; reflexivity).
  split; [vm_compute; reflexivity|].
  apply (general_round_trip true demo_decode demo_encode demo_identify w1 (snd sent) w2
           demo_peer demo_other [x07; x2a] 0 (demo_oracle_round_trip 1 1) Hsent).
  vm_compute. reflexivity.
Defined.

(** A server with a close handler and [demo_peer] registered receives the
    acknowledgement of a close from it. *)
Definition demo_registered : demo_socket :=
  snd (connect_resolved "10.0.0.2:9000" 0 (Some tt)
         (snd (socket_onClose 2 demo_one_pending))).

Lemma close_ack_evicts_witness :
  let res := handleMessage true demo_decode demo_identify [x01; xff; xff] demo_peer
               demo_registered in
  streams demo_registered = Some (<["10.0.0.2:9000" := (0%nat, tt)]> ∅)
  /\ fst res = Ok tt
  /\ streams (snd res) = Some (delete (getEndPointId demo_peer)
                                 (<["10.0.0.2:9000" := (0%nat, tt)]> ∅))
  /\ out (snd res) = out demo_registered ++ [CloseHandlerRun 2 (Some tt) 0].
Proof.
  intros res.
  assert (Hm : streams demo_registered = Some (<["10.0.0.2:9000" := (0%nat, tt)]> ∅))
    by (vm_compute; reflexivity).
  split; [exact Hm|].
  destruct (close_ack_evicts true demo_decode demo_identify demo_registered demo_peer x01
              [xff; xff] (<["10.0.0.2:9000" := (0%nat, tt)]> ∅) 0 tt
              (set_remoteSeq 1 (set_sendHandle HPending
                 (new_UdpStream demo_peer 0 (ServerClose "10.0.0.2:9000" 0))))
              {| rversion := 0; rbytes := [] |})
    as (Hok & Hstreams & Hout & _);
    try (vm_compute; reflexivity).
  subst res. split; [exact Hok|]. split; [exact Hstreams|].
  rewrite Hout. vm_compute. reflexivity.
Defined.

(** The connected client receives the acknowledgement of a close. *)
Lemma client_close_ack_witness :
  let res := handleMessage true demo_decode demo_identify [x01; xff; xff] demo_peer
               demo_client in
  stream demo_client = Some 0%nat
  /\ fst res = Ok tt
  /\ stream (snd res) = None
  /\ sclosing (snd res) = true
  /\ out (snd res) = [TransportClosed].
Proof.
  intros res. split; [reflexivity|].
  destruct (client_close_ack true demo_decode demo_identify demo_client demo_peer x01
              [xff; xff] 0
              (set_sendHandle HPending
                 (enqueue [x05] (new_UdpStream demo_peer 1 (ClientClose 0))))
              {| rversion := 1; rbytes := [] |})
    as (Hok & Hstream & Hclosing & Hout & _);
    try (vm_compute; reflexivity).
  subst res. split; [exact Hok|]. split; [exact Hstream|]. split; [exact Hclosing|].
  rewrite Hout. vm_compute. reflexivity.
Defined.

(** A client connects to a listening server with a message of type 7. *)
Lemma connect_reaches_server_witness :
  let w1 : demo_socket := new_UdpSocket 1 in
  let connected := connect demo_peer 1 [x07] w1 in
  let sent := snd (on_stream 0 (fire_immediate (sendStream true demo_encode))
                     (snd connected)) in
  exists data,
    fst connected = Ok 0%nat
    /\ stream (snd connected) = Some 0%nat
    /\ out sent = out w1 ++ [DatagramSent demo_peer data]
    /\ let res := handleMessage true demo_decode demo_identify data demo_other
                    demo_listening in
       fst res = Ok tt
       /\ (exists tl, out (snd res)
                      = out demo_listening ++ ConnectHandlerRun 7 [x07] 0 :: tl)
       /\ (exists s2, heap (snd res) !! 0%nat = Some s2 /\ remoteSeq s2 = 1)
       /\ (exists m', streams (snd res) = Some m' /\ m' ⊆ ∅).
Proof.
  apply (connect_reaches_server true demo_decode demo_encode demo_identify
           (new_UdpSocket 1) demo_listening demo_peer demo_other 1 [x07] [x01; x07]
           (fun _ => []) ∅ (demo_oracle_round_trip 1 0));
    try reflexivity.
  simpl. lia.
Defined.

(** Item 1 is pending and its retry timer set; a frame that acknowledges
    nothing and carries nothing cancels the timer, and the item stays where
    it is. *)
Lemma ack_only_frame_cancels_retry_witness :
  let c := demo_run [OpSend (Some [x07]); OpImmediate] demo_start in
  let res := receive true demo_decode run_closure demo_handler
               (demo_frame [x00; x00; x00; x00], c) in
  let c' := snd (snd res) in
  retryHandle (self c) = HPending
  /\ sendHandle (self c) = HNull
  /\ fst res = Ok tt
  /\ items (self c') = [(1, [x07])]
  /\ retryHandle (self c') = HNull
  /\ sendHandle (self c') = HNull
  /\ demo_run (retry_rounds 3) c' = c'.
Proof.
  intros c res c'.
  assert (Hnull : sendHandle (self c) = HNull) by (vm_compute; reflexivity).
  destruct (ack_only_frame_cancels_retry true demo_decode run_closure
              (sendStream true demo_encode) demo_handler
              (demo_frame [x00; x00; x00; x00]) (demo_frame [x00; x00]) (demo_frame [])
              c 0 eq_refl ltac:(discriminate) eq_refl)
    as (Hok & _ & Hi & _ & _ & Hrh & Hsh & _ & _ & Hstall).
  subst c' res.
  split; [vm_compute; reflexivity|]. split; [exact Hnull|]. split; [exact Hok|].
  split; [rewrite Hi; vm_compute; reflexivity|]. split; [exact Hrh|].
  split; [by rewrite Hsh|]. exact (Hstall Hnull 3%nat).
Defined.

(** The connected client, which handles type 5 and whose first send has gone
    out, is sent an item of type 9. *)
Definition demo_connected : demo_socket := snd (demo_immediate 0 demo_client).

Lemma stream_item_without_handler_witness :
  let res := handleMessage true demo_decode demo_identify
               [x01; x00; x00; x00; x01; x01; x09; x00; x00] demo_peer demo_connected in
  streamHandlers demo_connected !! 9 = None
  /\ sendHandle <$> heap demo_connected !! 0%nat = Some HNull
  /\ fst res = Ok tt
  /\ out (snd res) = out demo_connected ++ [ErrorLogged (NoStreamHandler 9)]
  /\ remoteSeq <$> heap (snd res) !! 0%nat = Some 1
  /\ sendHandle <$> heap (snd res) !! 0%nat = Some HPending.
Proof.
  intros res.
  destruct (heap demo_connected !! 0%nat) as [s|] eqn:Hs;
    [|vm_compute in Hs; discriminate].
  assert (Hnull : sendHandle s = HNull)
    by (vm_compute in Hs; injection Hs as <-; reflexivity).
  assert (Hrs0 : remoteSeq s = 0)
    by (vm_compute in Hs; injection Hs as <-; reflexivity).
  assert (Hmax : maxAttempts s = 10)
    by (vm_compute in Hs; injection Hs as <-; reflexivity).
  assert (Hver : version s = 1)
    by (vm_compute in Hs; injection Hs as <-; reflexivity).
  assert (Hnone : streamHandlers demo_connected !! demo_identify [x09] = None)
    by (vm_compute; reflexivity).
  assert (Hstream : stream demo_connected = Some 0%nat) by (vm_compute; reflexivity).
  assert (Hlive : sendHandle s <> HStale) by (rewrite Hnull; discriminate).
  assert (Hdec : demo_decode (version s) ([x01; x09] ++ u16_encode true 0)
                 = Some ([x09], length [x01; x09])) by reflexivity.
  pose proof (stream_item_without_handler true demo_decode demo_identify demo_connected
                demo_peer x01 0 s 0 1 [x09] [x01; x09]
                eq_refl Hstream Hs Hlive eq_refl ltac:(discriminate)
                ltac:(rewrite Hrs0; lia) ltac:(lia) ltac:(rewrite Hmax; lia)
                Hdec Hnone) as H.
  cbv zeta in H.
  change (u16_encode true 0 ++ (u16_encode true 1 ++ [x01; x09]) ++ u16_encode true 0)
    with [x00; x00; x00; x01; x01; x09; x00; x00] in H.
  destruct H as (Hok & Hout & s' & Hs' & Hrs & Hh & _).
  subst res. split; [exact Hnone|]. split; [simpl; by rewrite Hnull|].
  split; [exact Hok|].
  split; [exact Hout|].
  rewrite Hs'. cbn [fmap option_fmap option_map].
  split; [exact (f_equal Some Hrs)|exact (f_equal Some Hh)].
Defined.


(** The connected client is closed after its first send has gone out. *)
Lemma socket_close_client_witness :
  let res := socket_close [] demo_connected in
  sendHandle <$> heap demo_connected !! 0%nat = Some HNull
  /\ fst res = Ok tt
  /\ sclosing (snd res) = true
  /\ stream (snd res) = Some 0%nat
  /\ out (snd res) = out demo_connected
  /\ closing <$> heap (snd res) !! 0%nat = Some true
  /\ maxAttempts <$> heap (snd res) !! 0%nat = Some 5
  /\ sendHandle <$> heap (snd res) !! 0%nat = Some HPending.
Proof.
  intros res.
  destruct (heap demo_connected !! 0%nat) as [s|] eqn:Hs;
    [|vm_compute in Hs; discriminate].
  assert (Hnull : sendHandle s = HNull)
    by (vm_compute in Hs; injection Hs as <-; reflexivity).
  assert (Ha : attempts s < 5)
    by (vm_compute in Hs; injection Hs as <-; simpl; lia).
  assert (Hopen : closing s = false)
    by (vm_compute in Hs; injection Hs as <-; reflexivity).
  assert (Hc : sclosing demo_connected = false) by (vm_compute; reflexivity).
  assert (Hstream : stream demo_connected = Some 0%nat) by (vm_compute; reflexivity).
  assert (Hstreams : streams demo_connected = None) by (vm_compute; reflexivity).
  pose proof (socket_close_client [] demo_connected 0 s Hc Hstream Hstreams Hs Hopen
                (or_intror (conj Hnull Ha))) as H.
  cbv zeta in H. destruct H as (Heq & Hclosing & Hmax & Hh & Hout).
  subst res. rewrite Heq. cbn [fst snd].
  split; [simpl; by rewrite Hnull|]. split; [reflexivity|]. split; [reflexivity|].
  split; [exact Hstream|]. split; [exact Hout|].
  cbn [heap set_heap]. rewrite lookup_insert_eq. simpl. repeat split.
Defined.

(** The four items of [demo_full] take 996 bytes; with the tag and the ack
    the buffer of [sendStream] holds 999, and the terminator raises. *)
Lemma serialize_terminator_overflow_witness :
  let s := self demo_full in
  let w := with_out (new_writer 1 1000) [x01] in
  let res := serialize true demo_encode (s, w) in
  length (items s) = 4%nat
  /\ frame_items true demo_encode 1 997 (items s) = items s
  /\ fst res = Threw RangeError
  /\ length (wout (snd (snd res))) = 999%nat.
Proof.
  intros s w res.
  assert (Hack : in_u16 (remoteSeq s) = true) by (vm_compute; reflexivity).
  assert (Hroom : room w 2 = true) by (vm_compute; reflexivity).
  pose proof (serialize_terminator_overflow true demo_encode s w Hack Hroom) as H.
  cbv zeta in H. destruct H as [_ Hover].
  assert (Hleft : (wsize w - length (wout w) - 2
                   - length (items_bytes true demo_encode (wversion w)
                               (frame_items true demo_encode (wversion w)
                                  (wsize w - length (wout w) - 2) (items s))) < 2)%nat)
    by (vm_compute; lia).
  specialize (Hover Hleft).
  split; [vm_compute; reflexivity|]. split; [vm_compute; reflexivity|].
  subst res. rewrite Hover. split; [reflexivity|]. vm_compute. reflexivity.
Defined.

(** [end()] in the middle of an execution, and again later. *)
Lemma on_close_at_most_once_witness :
  ends true OpEnd (demo_run [OpSend (Some [x05]); OpImmediate] demo_start)
  /\ closes (trace (demo_run ([OpSend (Some [x05]); OpImmediate]
                                ++ OpEnd :: [OpEnd; OpClose; OpRetry]) demo_start))
     = 1%nat.
Proof.
  split; [exact I|].
  exact (proj2 (on_close_at_most_once true demo_decode run_closure
                  (sendStream true demo_encode) demo_peer 1 (ClientClose 0)
                  (set_stream (Some 0%nat) (new_UdpSocket 1)))
               [OpSend (Some [x05]); OpImmediate] [OpEnd; OpClose; OpRetry] OpEnd I).
Defined.

(** A stream sends item 1, is closed, and sends the close; the
    acknowledgement of the first frame arrives. Nothing is left to run. *)
Definition demo_close_sent : demo_ctx :=
  demo_run [OpSend (Some [x07]); OpImmediate; OpClose; OpImmediate] demo_start.

Lemma closing_stream_stalls_witness :
  let ack_1 := demo_frame [x00; x01; x00; x00] in
  let c' := demo_run [OpReceive ack_1 demo_handler] demo_close_sent in
  let later := retry_rounds 10 ++ [OpClose; OpRetry; OpImmediate] in
  out (env demo_close_sent)
  = [DatagramSent demo_peer [x01; x00; x00; x00; x01; x01; x07; x00; x00];
     DatagramSent demo_peer [x01; x00; x00; x00; x01; x01; x07; xff; xff]]
  /\ retryHandle (self demo_close_sent) = HPending
  /\ closes (trace demo_close_sent) = 0%nat
  /\ closing (self c') = true
  /\ onClose (self c') = Some (ClientClose 0)
  /\ sendHandle (self c') = HNull
  /\ retryHandle (self c') = HNull
  /\ env c' = env demo_close_sent
  /\ demo_run later c' = c'
  /\ closes (trace (demo_run later c')) = 0%nat.
Proof.
  intros ack_1 c' later.
  assert (Hc : closing (self demo_close_sent) = true) by (vm_compute; reflexivity).
  assert (Hk : onClose (self demo_close_sent) = Some (ClientClose 0))
    by (vm_compute; reflexivity).
  assert (Hh : sendHandle (self demo_close_sent) = HNull) by (vm_compute; reflexivity).
  assert (Hr1 : uint16_read true ack_1 = (Ok 1, demo_frame [x00; x00]))
    by (vm_compute; reflexivity).
  assert (Hr2 : uint16_read true (demo_frame [x00; x00]) = (Ok 0, demo_frame []))
    by (vm_compute; reflexivity).
  assert (Hack : 1 <> 65535) by discriminate.
  pose proof (closing_stream_stalls true demo_decode run_closure
                (sendStream true demo_encode) demo_handler ack_1 (demo_frame [x00; x00])
                (demo_frame []) demo_close_sent (ClientClose 0) 1
                Hc Hk Hh Hr1 Hack Hr2) as H.
  cbv zeta in H.
  destruct H as (_ & Hc' & Hk' & Hh' & Hr' & _ & He' & Hidle).
  assert (Hlater : forallb unattended later = true) by (vm_compute; reflexivity).
  destruct (Hidle later Hlater) as [Hsame Hcloses].
  assert (Hzero : closes (trace demo_close_sent) = 0%nat) by (vm_compute; reflexivity).
  split; [vm_compute; reflexivity|]. split; [vm_compute; reflexivity|].
  split; [exact Hzero|]. split; [exact Hc'|]. split; [exact Hk'|].
  split; [exact Hh'|]. split; [exact Hr'|]. split; [exact He'|].
  split; [exact Hsame|exact (eq_trans Hcloses Hzero)].
Defined.

(** The client connected to [demo_peer] receives frames from [demo_other]:
    an item of type 5, which its stream handler is given, and an
    acknowledgement of sequence number 1, which empties its queue. *)
Lemma client_stream_any_source_witness :
  let item_1 := [x01; x00; x00; x00; x01; x01; x05; x00; x00] in
  let ack_1 := [x01; x00; x01; x00; x00] in
  let w1 := snd (handleMessage true demo_decode demo_identify item_1 demo_other
                   demo_client) in
  let w2 := snd (handleMessage true demo_decode demo_identify ack_1 demo_other
                   demo_client) in
  remote <$> heap demo_client !! 0%nat = Some demo_peer
  /\ items <$> heap demo_client !! 0%nat = Some [(1, [x05])]
  /\ (exists tl, out w1 = out demo_client ++ StreamHandlerRun 5 [x05] None (Some 0%nat) :: tl)
  /\ remoteSeq <$> heap w1 !! 0%nat = Some 1
  /\ out w2 = out demo_client
  /\ items <$> heap w2 !! 0%nat = Some [].
Proof.
  intros item_1 ack_1 w1 w2.
  set (s := set_sendHandle HPending
              (enqueue [x05] (new_UdpStream demo_peer 1 (ClientClose 0))) : demo_stream).
  assert (Hs : heap demo_client !! 0%nat = Some s) by (vm_compute; reflexivity).
  assert (Hstream : stream demo_client = Some 0%nat) by (vm_compute; reflexivity).
  assert (Hsh : streamHandlers demo_client !! demo_identify [x05]
                = Some (fun _ => [])) by (vm_compute; reflexivity).
  assert (Hdec : demo_decode (version s) ([x01; x05] ++ u16_encode true 0)
                 = Some ([x05], length [x01; x05])) by reflexivity.
  pose proof (client_stream_any_source true demo_decode demo_identify demo_client
                demo_other x01 0 s eq_refl Hstream Hs) as (_ & Hack & Hitem).
  specialize (Hack 1 eq_refl ltac:(discriminate)).
  specialize (Hitem 0 1 [x05] [x01; x05] (fun _ => []) eq_refl ltac:(discriminate)
                ltac:(simpl; lia) ltac:(lia) ltac:(simpl; lia) Hdec Hsh).
  cbv zeta in Hack, Hitem.
  change (x01 :: u16_encode true 1 ++ u16_encode true 0) with ack_1 in Hack.
  change (x01 :: u16_encode true 0 ++ (u16_encode true 1 ++ [x01; x05])
                   ++ u16_encode true 0) with item_1 in Hitem.
  fold w1 in Hitem. fold w2 in Hack.
  destruct Hitem as (Hout1 & s1 & Hs1 & Hrs1).
  destruct Hack as (Hout2 & s2 & Hs2 & Hi2 & _).
  split; [vm_compute; reflexivity|]. split; [vm_compute; reflexivity|].
  split; [exact Hout1|]. split; [by rewrite Hs1, <- Hrs1|].
  split; [exact Hout2|]. rewrite Hs2. simpl. rewrite Hi2. reflexivity.
Defined.
